(** * SharedProcess: lifecycle and channel broker of the shared-process window

    Shallow embedding of [class SharedProcess] (the third unit of
    src/vs/platform/history/common/history.ts) together with the fragment of
    the JavaScript run-time it is written against: promises with their
    reaction lists, the microtask queue, [setTimeout] macrotasks, the
    [ipcMain.once] listeners and Electron's [BrowserWindow] objects.

    The parent process is single threaded and cooperatively scheduled, so a
    run of the program is a sequence of events ([Event]), each handled by a
    total function on the state ([step]).  Synchronous code is written in a
    state-and-exception monad [M]; an [async] function is cut at its [await]s
    into continuations ([Cont]) that the microtask queue resumes. *)

From stdpp Require Import base gmap strings list.
From Stdlib Require Import Lia.

Local Open Scope string_scope.
Local Open Scope list_scope.

(** ** Data *)

(** [NodeJS.ProcessEnv]: an object from variable names to [string | undefined].
    A key bound to [None] is a property whose value is [undefined]. *)
Abbreviation ProcessEnv := (gmap string (option string)).

(** [{ ...a, ...b }]: own properties of [a], then those of [b], the later
    spread overwriting the earlier one on equal keys. *)
Definition spread (a b : ProcessEnv) : ProcessEnv := b ∪ a.

Record IEnvironmentMainService := {
  appRoot : string;
  nodeCachedDataDir : option string;
  backupWorkspacesPath : string;
  sharedIPCHandle : string;
  args : list string
}.

(** The injected services, read only by [createWindow]. *)
Record Services := {
  environmentService : IEnvironmentMainService;
  logService_getLevel : nat;
  themeMainService_getBackgroundColor : string
}.

Record ISharedProcessConfiguration := {
  cfg_machineId : string;
  cfg_windowId : nat;
  cfg_appRoot : string;
  cfg_nodeCachedDataDir : option string;
  cfg_backupWorkspacesPath : string;
  cfg_userEnv : ProcessEnv;
  cfg_sharedIPCHandle : string;
  cfg_args : list string;
  cfg_logLevel : nat
}.

(** The query of the loaded URL,
    [config=${encodeURIComponent(JSON.stringify(config))}], as the object the
    worker reads back from it with [JSON.parse].  [JSON.stringify] leaves out
    every property whose value is [undefined]: [nodeCachedDataDir] may be
    missing, and the environment holds the variables bound to a string only.
    The order of the properties in the text and the percent-encoding, which
    decoding undoes, are not modelled. *)
Record ConfigurationQuery := {
  q_machineId : string;
  q_windowId : nat;
  q_appRoot : string;
  q_nodeCachedDataDir : option string;
  q_backupWorkspacesPath : string;
  q_userEnv : gmap string string;
  q_sharedIPCHandle : string;
  q_args : list string;
  q_logLevel : nat
}.

Definition JSON_stringify (config : ISharedProcessConfiguration) : ConfigurationQuery :=
  {| q_machineId := cfg_machineId config;
     q_windowId := cfg_windowId config;
     q_appRoot := cfg_appRoot config;
     q_nodeCachedDataDir := cfg_nodeCachedDataDir config;
     q_backupWorkspacesPath := cfg_backupWorkspacesPath config;
     q_userEnv := omap id (cfg_userEnv config);
     q_sharedIPCHandle := cfg_sharedIPCHandle config;
     q_args := cfg_args config;
     q_logLevel := cfg_logLevel config |}.

(** The closure stored in [this.windowCloseListener]. *)
Inductive Listener := CloseVeto.

(** An Electron [BrowserWindow]; its id is its index in [windows]. *)
Record BrowserWindow := {
  bw_backgroundColor : string;
  bw_visible : bool;
  bw_devTools : bool;
  bw_destroyed : bool;                      (* webContents.isDestroyed() *)
  bw_closeListeners : list Listener;        (* listeners of 'close' *)
  bw_query : option ConfigurationQuery       (* query of the loaded URL *)
}.

Inductive Value :=
| VUndefined
| VBool (b : bool)
| VPort (port : nat)                         (* a MessagePortMain *)
| VPromise (p : nat).                        (* a promise of the heap *)

Inductive Completion :=
| Normal (v : Value)
| Throw (msg : string).

(** The points at which the [async] functions of the class are suspended,
    and the two jobs by which a promise adopts the state of another.  A
    continuation that belongs to an [async] call carries the promise that
    the call returned. *)
Inductive Cont :=
| K_whenIpcReady_spawned (p : nat)     (* after [await this.whenSpawnedBarrier.wait()] *)
| K_whenIpcReady_signalled (p : nat)   (* after [await new Promise(... ipc-ready ...)] *)
| K_connect (p : nat)                  (* [connect], after [await this.whenIpcReady] *)
| K_toggle (p : nat)                   (* [toggle], after [await this.whenIpcReady] *)
| K_channel_ready (nonce : string)     (* channel handler, after [await this.whenReady()] *)
| K_channel_port (nonce : string)      (* channel handler, after [await this.connect()] *)
| K_resolveThenable (p t : nat)        (* [p] was resolved with the promise [t]: call [t.then] *)
| K_adopt (p : nat).                   (* the resolving functions of [p], given to [then] *)

Inductive PromiseState :=
| Pending (reactions : list Cont)
| Settled (c : Completion).

Abbreviation Job := (Cont * Completion)%type.

(** Callbacks handed to [setTimeout]. *)
Inductive Timer :=
| T_closeWindow (wid : nat).           (* the arrow function in [onWillShutdown] *)

(** Instrumentation: calls that leave the coordinator, in the order made. *)
Inductive Effect :=
| ETrace (msg : string)
| ENewBrowserWindow (wid : nat)
| ELoadURL (wid : nat) (query : ConfigurationQuery)
| EOn (wid : nat) (event : string)
| ERemoveListener (wid : nat) (event : string)
| ESend (wid : nat) (channel : string)
| ESetTimeout (ms : nat)
| EClose (wid : nat)
| EShow (wid : nat)
| EHide (wid : nat)
| EOpenDevTools (wid : nat)
| ECloseDevTools (wid : nat)
| EPostMessage (nonce : string) (port : nat).

(** ** The readiness gate *)

Module Barrier.
Section Gate.
Context {W : Type}.

(** Modelled from the spec: [Barrier] of vs/base/common/async is not part
    of the sources.  The spec gives a boolean [opened] and the pending
    waiters; [open()] marks the gate open and releases every waiter,
    [wait()] suspends the caller until open and goes through at once when
    the gate is already open.  Both operations hand back the waiters they
    release. *)
Record t := mk { isOpen : bool; waiters : list W }.

(** Modelled from the spec: a new gate is closed and nobody waits. *)
Definition new : t := mk false [].

(** Modelled from the spec: [open()] marks the gate open and releases every
    pending waiter; on an open gate nobody is pending. *)
Definition open (b : t) : t * list W := (mk true [], waiters b).

(** Modelled from the spec: [wait()] goes through at once on an open gate and
    suspends the caller otherwise. *)
Definition wait (w : W) (b : t) : t * list W :=
  if isOpen b then (b, [w]) else (mk false (waiters b ++ [w]), []).

End Gate.
Arguments t : clear implicits.
End Barrier.

(** ** State of the coordinator and of the run-time *)

Record State := {
  (* fields of [SharedProcess] *)
  machineId : string;
  services : Services;
  userEnv : ProcessEnv;
  whenSpawnedBarrier : Barrier.t Cont;
  window : option nat;
  windowCloseListener : option Listener;
  _whenReady : option nat;
  _whenIpcReady : option nat;
  (* Electron and the event loop *)
  windows : list BrowserWindow;
  promises : list PromiseState;
  onceIpcReady : list nat;     (* ipcMain.once('...=ipc-ready'): promises to resolve *)
  onceInitDone : list nat;     (* ipcMain.once('...=init-done'): promises to resolve *)
  microtasks : list Job;
  timers : list Timer;
  nextPort : nat;
  channels : list (nat * nat); (* channels being established: promise and port *)
  log : list Effect
}.

(** Assignments to the fields that the program writes. *)

Definition set_userEnv (v : ProcessEnv) (s : State) : State :=
  {| machineId := machineId s; services := services s; userEnv := v;
     whenSpawnedBarrier := whenSpawnedBarrier s; window := window s;
     windowCloseListener := windowCloseListener s; _whenReady := _whenReady s;
     _whenIpcReady := _whenIpcReady s; windows := windows s; promises := promises s;
     onceIpcReady := onceIpcReady s; onceInitDone := onceInitDone s;
     microtasks := microtasks s; timers := timers s; nextPort := nextPort s;
     channels := channels s; log := log s |}.

Definition set_whenSpawnedBarrier (v : Barrier.t Cont) (s : State) : State :=
  {| machineId := machineId s; services := services s; userEnv := userEnv s;
     whenSpawnedBarrier := v; window := window s;
     windowCloseListener := windowCloseListener s; _whenReady := _whenReady s;
     _whenIpcReady := _whenIpcReady s; windows := windows s; promises := promises s;
     onceIpcReady := onceIpcReady s; onceInitDone := onceInitDone s;
     microtasks := microtasks s; timers := timers s; nextPort := nextPort s;
     channels := channels s; log := log s |}.

Definition set_window (v : option nat) (s : State) : State :=
  {| machineId := machineId s; services := services s; userEnv := userEnv s;
     whenSpawnedBarrier := whenSpawnedBarrier s; window := v;
     windowCloseListener := windowCloseListener s; _whenReady := _whenReady s;
     _whenIpcReady := _whenIpcReady s; windows := windows s; promises := promises s;
     onceIpcReady := onceIpcReady s; onceInitDone := onceInitDone s;
     microtasks := microtasks s; timers := timers s; nextPort := nextPort s;
     channels := channels s; log := log s |}.

Definition set_windowCloseListener (v : option Listener) (s : State) : State :=
  {| machineId := machineId s; services := services s; userEnv := userEnv s;
     whenSpawnedBarrier := whenSpawnedBarrier s; window := window s;
     windowCloseListener := v; _whenReady := _whenReady s;
     _whenIpcReady := _whenIpcReady s; windows := windows s; promises := promises s;
     onceIpcReady := onceIpcReady s; onceInitDone := onceInitDone s;
     microtasks := microtasks s; timers := timers s; nextPort := nextPort s;
     channels := channels s; log := log s |}.

Definition set__whenReady (v : option nat) (s : State) : State :=
  {| machineId := machineId s; services := services s; userEnv := userEnv s;
     whenSpawnedBarrier := whenSpawnedBarrier s; window := window s;
     windowCloseListener := windowCloseListener s; _whenReady := v;
     _whenIpcReady := _whenIpcReady s; windows := windows s; promises := promises s;
     onceIpcReady := onceIpcReady s; onceInitDone := onceInitDone s;
     microtasks := microtasks s; timers := timers s; nextPort := nextPort s;
     channels := channels s; log := log s |}.

Definition set__whenIpcReady (v : option nat) (s : State) : State :=
  {| machineId := machineId s; services := services s; userEnv := userEnv s;
     whenSpawnedBarrier := whenSpawnedBarrier s; window := window s;
     windowCloseListener := windowCloseListener s; _whenReady := _whenReady s;
     _whenIpcReady := v; windows := windows s; promises := promises s;
     onceIpcReady := onceIpcReady s; onceInitDone := onceInitDone s;
     microtasks := microtasks s; timers := timers s; nextPort := nextPort s;
     channels := channels s; log := log s |}.

Definition set_windows (v : list BrowserWindow) (s : State) : State :=
  {| machineId := machineId s; services := services s; userEnv := userEnv s;
     whenSpawnedBarrier := whenSpawnedBarrier s; window := window s;
     windowCloseListener := windowCloseListener s; _whenReady := _whenReady s;
     _whenIpcReady := _whenIpcReady s; windows := v; promises := promises s;
     onceIpcReady := onceIpcReady s; onceInitDone := onceInitDone s;
     microtasks := microtasks s; timers := timers s; nextPort := nextPort s;
     channels := channels s; log := log s |}.

Definition set_promises (v : list PromiseState) (s : State) : State :=
  {| machineId := machineId s; services := services s; userEnv := userEnv s;
     whenSpawnedBarrier := whenSpawnedBarrier s; window := window s;
     windowCloseListener := windowCloseListener s; _whenReady := _whenReady s;
     _whenIpcReady := _whenIpcReady s; windows := windows s; promises := v;
     onceIpcReady := onceIpcReady s; onceInitDone := onceInitDone s;
     microtasks := microtasks s; timers := timers s; nextPort := nextPort s;
     channels := channels s; log := log s |}.

Definition set_onceIpcReady (v : list nat) (s : State) : State :=
  {| machineId := machineId s; services := services s; userEnv := userEnv s;
     whenSpawnedBarrier := whenSpawnedBarrier s; window := window s;
     windowCloseListener := windowCloseListener s; _whenReady := _whenReady s;
     _whenIpcReady := _whenIpcReady s; windows := windows s; promises := promises s;
     onceIpcReady := v; onceInitDone := onceInitDone s; microtasks := microtasks s;
     timers := timers s; nextPort := nextPort s; channels := channels s;
     log := log s |}.

Definition set_onceInitDone (v : list nat) (s : State) : State :=
  {| machineId := machineId s; services := services s; userEnv := userEnv s;
     whenSpawnedBarrier := whenSpawnedBarrier s; window := window s;
     windowCloseListener := windowCloseListener s; _whenReady := _whenReady s;
     _whenIpcReady := _whenIpcReady s; windows := windows s; promises := promises s;
     onceIpcReady := onceIpcReady s; onceInitDone := v; microtasks := microtasks s;
     timers := timers s; nextPort := nextPort s; channels := channels s;
     log := log s |}.

Definition set_microtasks (v : list Job) (s : State) : State :=
  {| machineId := machineId s; services := services s; userEnv := userEnv s;
     whenSpawnedBarrier := whenSpawnedBarrier s; window := window s;
     windowCloseListener := windowCloseListener s; _whenReady := _whenReady s;
     _whenIpcReady := _whenIpcReady s; windows := windows s; promises := promises s;
     onceIpcReady := onceIpcReady s; onceInitDone := onceInitDone s; microtasks := v;
     timers := timers s; nextPort := nextPort s; channels := channels s;
     log := log s |}.

Definition set_timers (v : list Timer) (s : State) : State :=
  {| machineId := machineId s; services := services s; userEnv := userEnv s;
     whenSpawnedBarrier := whenSpawnedBarrier s; window := window s;
     windowCloseListener := windowCloseListener s; _whenReady := _whenReady s;
     _whenIpcReady := _whenIpcReady s; windows := windows s; promises := promises s;
     onceIpcReady := onceIpcReady s; onceInitDone := onceInitDone s;
     microtasks := microtasks s; timers := v; nextPort := nextPort s;
     channels := channels s; log := log s |}.

Definition set_nextPort (v : nat) (s : State) : State :=
  {| machineId := machineId s; services := services s; userEnv := userEnv s;
     whenSpawnedBarrier := whenSpawnedBarrier s; window := window s;
     windowCloseListener := windowCloseListener s; _whenReady := _whenReady s;
     _whenIpcReady := _whenIpcReady s; windows := windows s; promises := promises s;
     onceIpcReady := onceIpcReady s; onceInitDone := onceInitDone s;
     microtasks := microtasks s; timers := timers s; nextPort := v;
     channels := channels s; log := log s |}.

Definition set_channels (v : list (nat * nat)) (s : State) : State :=
  {| machineId := machineId s; services := services s; userEnv := userEnv s;
     whenSpawnedBarrier := whenSpawnedBarrier s; window := window s;
     windowCloseListener := windowCloseListener s; _whenReady := _whenReady s;
     _whenIpcReady := _whenIpcReady s; windows := windows s; promises := promises s;
     onceIpcReady := onceIpcReady s; onceInitDone := onceInitDone s;
     microtasks := microtasks s; timers := timers s; nextPort := nextPort s;
     channels := v; log := log s |}.

Definition set_log (v : list Effect) (s : State) : State :=
  {| machineId := machineId s; services := services s; userEnv := userEnv s;
     whenSpawnedBarrier := whenSpawnedBarrier s; window := window s;
     windowCloseListener := windowCloseListener s; _whenReady := _whenReady s;
     _whenIpcReady := _whenIpcReady s; windows := windows s; promises := promises s;
     onceIpcReady := onceIpcReady s; onceInitDone := onceInitDone s;
     microtasks := microtasks s; timers := timers s; nextPort := nextPort s;
     channels := channels s; log := v |}.

(** ** Synchronous code: state and exceptions *)

Inductive Res (A : Type) :=
| Ok (a : A)
| Thrown (msg : string).
Arguments Ok {A} a.
Arguments Thrown {A} msg.

Definition M (A : Type) : Type := State -> Res A * State.

Definition ret {A} (a : A) : M A := fun s => (Ok a, s).

Definition bind {A B} (m : M A) (k : A -> M B) : M B := fun s =>
  match m s with
  | (Ok a, s') => k a s'
  | (Thrown e, s') => (Thrown e, s')
  end.

Definition throw {A} (msg : string) : M A := fun s => (Thrown msg, s).

(** [try { m } catch (err) { h err }] *)
Definition try_catch {A} (m : M A) (h : string -> M A) : M A := fun s =>
  match m s with
  | (Ok a, s') => (Ok a, s')
  | (Thrown e, s') => h e s'
  end.

Definition gets {A} (f : State -> A) : M A := fun s => (Ok (f s), s).
Definition modify (f : State -> State) : M unit := fun s => (Ok tt, f s).

Declare Scope js_scope.
Delimit Scope js_scope with js.
Notation "x <- c1 ;; c2" := (bind c1 (fun x => c2))
  (at level 100, c1 at next level, c2 at level 200, right associativity) : js_scope.
Notation "c1 ;; c2" := (bind c1 (fun _ => c2))
  (at level 100, c2 at level 200, right associativity) : js_scope.
Local Open Scope js_scope.

(** The state a call leaves behind, whatever its outcome. *)
Definition exec {A} (m : M A) (s : State) : State := snd (m s).

(** ** Run-time primitives *)

Definition emit (e : Effect) : M unit :=
  modify (fun s => set_log (log s ++ [e]) s).

(** [this.logService.trace(msg)] *)
Definition trace (msg : string) : M unit := emit (ETrace msg).

Definition enqueue (js : list Job) : M unit :=
  modify (fun s => set_microtasks (microtasks s ++ js) s).

(** A new pending promise; its identity is its index in [promises]. *)
Definition newPromise : M nat := fun s =>
  (Ok (length (promises s)), set_promises (promises s ++ [Pending []]) s).

(** Resolve or reject [p]: its reactions become microtasks.  Settling a
    promise that is already settled does nothing. *)
Definition settle (p : nat) (c : Completion) : M unit := fun s =>
  match promises s !! p with
  | Some (Pending ks) =>
      (Ok tt, set_microtasks (microtasks s ++ map (fun k => (k, c)) ks)
                (set_promises (<[p := Settled c]> (promises s)) s))
  | _ => (Ok tt, s)
  end.

(** [await p] with the rest of the function as [k]: a reaction on a pending
    promise, a microtask on a settled one. *)
Definition await (p : nat) (k : Cont) : M unit := fun s =>
  match promises s !! p with
  | Some (Pending ks) => (Ok tt, set_promises (<[p := Pending (ks ++ [k])]> (promises s)) s)
  | Some (Settled c) => (Ok tt, set_microtasks (microtasks s ++ [(k, c)]) s)
  | None => (Ok tt, s)
  end.

(** What an [await] evaluates to when the function is resumed. *)
Definition resume (c : Completion) : M Value :=
  match c with
  | Normal v => ret v
  | Throw e => throw e
  end.

(** The resolving function of [p], called with [v]: a promise as resolution
    is adopted in a microtask of its own, which calls its [then]; any other
    value fulfils [p]. *)
Definition resolve (p : nat) (v : Value) : M unit :=
  match v with
  | VPromise t => enqueue [(K_resolveThenable p t, Normal VUndefined)]
  | _ => settle p (Normal v)
  end.

(** One segment of the body of an [async] function whose promise is [p]:
    [None] when it stops at an [await], [Some v] when it returns [v], which
    resolves [p]; an exception rejects [p]. *)
Definition async_segment (p : nat) (body : M (option Value)) : M unit := fun s =>
  match body s with
  | (Ok None, s') => (Ok tt, s')
  | (Ok (Some v), s') => resolve p v s'
  | (Thrown e, s') => settle p (Throw e) s'
  end.

(** [await this.whenSpawnedBarrier.wait()] *)
Definition await_whenSpawnedBarrier (k : Cont) : M unit := fun s =>
  let '(b, released) := Barrier.wait k (whenSpawnedBarrier s) in
  enqueue (map (fun k' => (k', Normal (VBool true))) released)
          (set_whenSpawnedBarrier b s).

(** [this.whenSpawnedBarrier.open()] *)
Definition open_whenSpawnedBarrier : M unit := fun s =>
  let '(b, released) := Barrier.open (whenSpawnedBarrier s) in
  enqueue (map (fun k' => (k', Normal (VBool true))) released)
          (set_whenSpawnedBarrier b s).

(** *** BrowserWindow *)

Definition update_window (wid : nat) (f : BrowserWindow -> BrowserWindow) : M unit :=
  modify (fun s => set_windows (alter f wid (windows s)) s).

Definition bw_set_visible (v : bool) (b : BrowserWindow) : BrowserWindow :=
  {| bw_backgroundColor := bw_backgroundColor b; bw_visible := v;
     bw_devTools := bw_devTools b; bw_destroyed := bw_destroyed b;
     bw_closeListeners := bw_closeListeners b; bw_query := bw_query b |}.

Definition bw_set_devTools (v : bool) (b : BrowserWindow) : BrowserWindow :=
  {| bw_backgroundColor := bw_backgroundColor b; bw_visible := bw_visible b;
     bw_devTools := v; bw_destroyed := bw_destroyed b;
     bw_closeListeners := bw_closeListeners b; bw_query := bw_query b |}.

Definition bw_set_destroyed (v : bool) (b : BrowserWindow) : BrowserWindow :=
  {| bw_backgroundColor := bw_backgroundColor b; bw_visible := bw_visible b;
     bw_devTools := bw_devTools b; bw_destroyed := v;
     bw_closeListeners := bw_closeListeners b; bw_query := bw_query b |}.

Definition bw_set_closeListeners (v : list Listener) (b : BrowserWindow) : BrowserWindow :=
  {| bw_backgroundColor := bw_backgroundColor b; bw_visible := bw_visible b;
     bw_devTools := bw_devTools b; bw_destroyed := bw_destroyed b;
     bw_closeListeners := v; bw_query := bw_query b |}.

Definition bw_set_query (v : option ConfigurationQuery) (b : BrowserWindow)
  : BrowserWindow :=
  {| bw_backgroundColor := bw_backgroundColor b; bw_visible := bw_visible b;
     bw_devTools := bw_devTools b; bw_destroyed := bw_destroyed b;
     bw_closeListeners := bw_closeListeners b; bw_query := v |}.

(** [new BrowserWindow({ show: false, backgroundColor, webPreferences })];
    the web preferences are constants that no method reads back. *)
Definition new_BrowserWindow (backgroundColor : string) : M nat :=
  wid <- gets (fun s => length (windows s));;
  modify (fun s => set_windows (windows s ++
    [{| bw_backgroundColor := backgroundColor; bw_visible := false;
        bw_devTools := false; bw_destroyed := false;
        bw_closeListeners := []; bw_query := None |}]) s);;
  emit (ENewBrowserWindow wid);;
  ret wid.

Definition loadURL (wid : nat) (query : ConfigurationQuery) : M unit :=
  update_window wid (bw_set_query (Some query));;
  emit (ELoadURL wid query).

(** [window.webContents.isDestroyed()]; a window that does not exist counts
    as destroyed. *)
Definition webContents_isDestroyed (wid : nat) : M bool :=
  gets (fun s => match windows s !! wid with
                 | Some b => bw_destroyed b
                 | None => true
                 end).

Definition isVisible (wid : nat) : M bool :=
  gets (fun s => match windows s !! wid with
                 | Some b => bw_visible b
                 | None => false
                 end).

Definition webContents_send (wid : nat) (channel : string) : M unit :=
  emit (ESend wid channel).

Definition hide (wid : nat) : M unit :=
  update_window wid (bw_set_visible false);; emit (EHide wid).

Definition show (wid : nat) : M unit :=
  update_window wid (bw_set_visible true);; emit (EShow wid).

Definition openDevTools (wid : nat) : M unit :=
  update_window wid (bw_set_devTools true);; emit (EOpenDevTools wid).

Definition closeDevTools (wid : nat) : M unit :=
  update_window wid (bw_set_devTools false);; emit (ECloseDevTools wid).

(** [window.on('close', l)] *)
Definition on_close (wid : nat) (l : Listener) : M unit :=
  update_window wid (fun b => bw_set_closeListeners (bw_closeListeners b ++ [l]) b);;
  emit (EOn wid "close").

(** [EventEmitter.removeListener]: drops one registration of [l]; every
    registered listener is the veto closure. *)
Definition remove_one (l : Listener) (ls : list Listener) : list Listener :=
  match l, ls with
  | CloseVeto, CloseVeto :: ls' => ls'
  | CloseVeto, [] => []
  end.

Definition removeListener_close (wid : nat) (l : Listener) : M unit :=
  update_window wid (fun b => bw_set_closeListeners (remove_one l (bw_closeListeners b)) b);;
  emit (ERemoveListener wid "close").

(** [setTimeout(cb, ms)] *)
Definition setTimeout (cb : Timer) (ms : nat) : M unit :=
  modify (fun s => set_timers (timers s ++ [cb]) s);;
  emit (ESetTimeout ms).

(** Modelled from the spec: [connect] of vs/base/parts/ipc/electron-main/ipc.mp
    is not part of the sources.  The spec has it create a new channel,
    transfer one end into the worker host by a message addressed to the
    worker, and return the other end to the caller; establishing the channel
    is a suspension point, a transport-level await across the boundary to
    the worker.  So the call returns a promise, which stays pending with the
    channel in [channels] until the transport reports back. *)
Definition connectMessagePort (wid : nat) : M nat :=
  port <- gets nextPort;;
  modify (set_nextPort (S port));;
  webContents_send wid "vscode:createMessageChannel";;
  t <- newPromise;;
  modify (fun s => set_channels (channels s ++ [(t, port)]) s);;
  ret t.

(** Modelled from the spec: the transport reports that the [i]-th channel
    still being established is in place; the promise of that
    [connectMessagePort] call is fulfilled with the end kept for the caller. *)
Definition on_channelEstablished (i : nat) : M unit :=
  cs <- gets channels;;
  match cs !! i with
  | None => ret tt
  | Some (t, port) =>
      modify (set_channels (delete i cs));;
      settle t (Normal (VPort port))
  end.

(** ** The methods of [SharedProcess] *)

Definition exitChannel : string := "vscode:electron-main->shared-process=exit".

Definition connectError : string :=
  "Cannot connect to shared process window because the window is closed or destroyed".

(** [get whenIpcReady]: the first access starts the [async] arrow function,
    which runs up to its first [await], and stores its promise. *)
Definition whenIpcReady : M nat :=
  cur <- gets _whenIpcReady;;
  match cur with
  | Some p => ret p
  | None =>
      p <- newPromise;;
      await_whenSpawnedBarrier (K_whenIpcReady_spawned p);;
      modify (set__whenIpcReady (Some p));;
      ret p
  end.

(** The [config] object literal of [createWindow], for the window [wid]. *)
Definition configuration (s : State) (wid : nat) : ISharedProcessConfiguration :=
  {| cfg_machineId := machineId s;
     cfg_windowId := wid;
     cfg_appRoot := appRoot (environmentService (services s));
     cfg_nodeCachedDataDir := nodeCachedDataDir (environmentService (services s));
     cfg_backupWorkspacesPath := backupWorkspacesPath (environmentService (services s));
     cfg_userEnv := userEnv s;
     cfg_sharedIPCHandle := sharedIPCHandle (environmentService (services s));
     cfg_args := args (environmentService (services s));
     cfg_logLevel := logService_getLevel (services s) |}.

Definition createWindow : M unit :=
  color <- gets (fun s => themeMainService_getBackgroundColor (services s));;
  wid <- new_BrowserWindow color;;
  modify (set_window (Some wid));;
  config <- gets (fun s => configuration s wid);;
  loadURL wid (JSON_stringify config).

(** The three remaining registrations only log when their event arrives. *)
Definition registerWindowListeners : M unit :=
  w <- gets window;;
  match w with
  | None => ret tt
  | Some wid =>
      modify (set_windowCloseListener (Some CloseVeto));;
      on_close wid CloseVeto;;
      emit (EOn wid "render-process-gone");;
      emit (EOn wid "unresponsive");;
      emit (EOn wid "did-fail-load")
  end.

(** The body of [this.windowCloseListener]; [e.preventDefault()] is its
    veto, accounted for in [emit_close]. *)
Definition windowCloseListener_body : M unit :=
  trace "SharedProcess#close prevented";;
  w <- gets window;;
  match w with
  | None => ret tt
  | Some wid =>
      v <- isVisible wid;;
      if v then hide wid else ret tt
  end.

(** Electron emitting ['close'] on a window: every listener runs; the window
    goes away unless a listener prevented the default. *)
Fixpoint run_closeListeners (ls : list Listener) : M unit :=
  match ls with
  | [] => ret tt
  | CloseVeto :: ls' => windowCloseListener_body;; run_closeListeners ls'
  end.

Definition emit_close (wid : nat) : M unit :=
  b <- gets (fun s => windows s !! wid);;
  match b with
  | None => ret tt
  | Some bw =>
      match bw_closeListeners bw with
      | [] => update_window wid (bw_set_destroyed true)
      | ls => run_closeListeners ls
      end
  end.

(** [window.close()]; whether the call throws is up to Electron. *)
Definition BrowserWindow_close (throws : bool) (wid : nat) : M unit :=
  emit (EClose wid);;
  if throws then throw "Object has been destroyed" else emit_close wid.

(** The arrow function given to [setTimeout] in [onWillShutdown]. *)
Definition onWillShutdown_timeout (wid : nat) (throws : bool) : M unit :=
  try_catch (BrowserWindow_close throws wid) (fun _ => ret tt);;
  modify (set_window None).

Definition onWillShutdown : M unit :=
  w <- gets window;;
  match w with
  | None => ret tt
  | Some wid =>
      destroyed <- webContents_isDestroyed wid;;
      (if destroyed then ret tt else webContents_send wid exitChannel);;
      l <- gets windowCloseListener;;
      match l with
      | Some cl =>
          removeListener_close wid cl;;
          modify (set_windowCloseListener None)
      | None => ret tt
      end;;
      setTimeout (T_closeWindow wid) 0
  end.

Definition whenReady : M nat :=
  cur <- gets _whenReady;;
  match cur with
  | Some p => ret p
  | None =>
      p <- newPromise;;
      modify (fun s => set_onceInitDone (onceInitDone s ++ [p]) s);;
      modify (set__whenReady (Some p));;
      ret p
  end.

Definition spawn (env : ProcessEnv) : M unit :=
  modify (fun s => set_userEnv (spread (userEnv s) env) s);;
  open_whenSpawnedBarrier.

(** [whenIpcReady], resumed once the barrier is open. *)
Definition whenIpcReady_spawned (p : nat) (c : Completion) : M (option Value) :=
  _ <- resume c;;
  createWindow;;
  registerWindowListeners;;
  q <- newPromise;;
  modify (fun s => set_onceIpcReady (onceIpcReady s ++ [q]) s);;
  await q (K_whenIpcReady_signalled p);;
  ret None.

(** [whenIpcReady], resumed once the worker has sent ipc-ready. *)
Definition whenIpcReady_signalled (c : Completion) : M (option Value) :=
  _ <- resume c;;
  ret (Some VUndefined).

(** [connect()]: the call itself, up to its [await]; returns its promise. *)
Definition connect : M nat :=
  p <- newPromise;;
  q <- whenIpcReady;;
  await q (K_connect p);;
  ret p.

(** [connect()], resumed after [await this.whenIpcReady]; it returns the
    promise of [connectMessagePort]. *)
Definition connect_resumed (c : Completion) : M (option Value) :=
  _ <- resume c;;
  w <- gets window;;
  match w with
  | None => throw connectError
  | Some wid =>
      destroyed <- webContents_isDestroyed wid;;
      if destroyed then throw connectError
      else t <- connectMessagePort wid;; ret (Some (VPromise t))
  end.

Definition toggle : M nat :=
  p <- newPromise;;
  q <- whenIpcReady;;
  await q (K_toggle p);;
  ret p.

Definition toggle_resumed (c : Completion) : M (option Value) :=
  _ <- resume c;;
  w <- gets window;;
  match w with
  | None => ret (Some VUndefined)
  | Some wid =>
      v <- isVisible wid;;
      (if v then closeDevTools wid;; hide wid
       else show wid;; openDevTools wid);;
      ret (Some VUndefined)
  end.

(** The listener of ['vscode:createSharedProcessMessageChannel'].  The promise
    of this [async] arrow function is dropped by [ipcMain], so a rejection
    inside it ends the handler and nothing is posted. *)
Definition onCreateSharedProcessMessageChannel (nonce : string) : M unit :=
  trace "SharedProcess: on vscode:createSharedProcessMessageChannel";;
  p <- whenReady;;
  await p (K_channel_ready nonce).

Definition channel_ready (nonce : string) (c : Completion) : M unit :=
  match c with
  | Throw _ => ret tt
  | Normal _ =>
      p <- connect;;
      await p (K_channel_port nonce)
  end.

Definition channel_port (nonce : string) (c : Completion) : M unit :=
  match c with
  | Normal (VPort port) => emit (EPostMessage nonce port)
  | _ => ret tt
  end.

(** The worker's two signals, delivered to the [ipcMain.once] listeners
    registered at that moment; a signal nobody listens for is lost. *)
Fixpoint fire_once (msg : string) (ps : list nat) : M unit :=
  match ps with
  | [] => ret tt
  | p :: ps' => trace msg;; settle p (Normal VUndefined);; fire_once msg ps'
  end.

Definition on_ipcReady : M unit :=
  ps <- gets onceIpcReady;;
  modify (set_onceIpcReady []);;
  fire_once "SharedProcess: IPC ready" ps.

Definition on_initDone : M unit :=
  ps <- gets onceInitDone;;
  modify (set_onceInitDone []);;
  fire_once "SharedProcess: Overall ready" ps.

(** ** The event loop *)

(** A job of the microtask queue.  The last two make a promise [p] that was
    resolved with the promise [t] take the state of [t]: the first calls
    [t.then] with the resolving functions of [p], the second is that
    reaction; [t] is never fulfilled with a promise, so its value fulfils
    [p]. *)

Definition run_job (j : Job) : M unit :=
  match j with
  | (K_whenIpcReady_spawned p, c) => async_segment p (whenIpcReady_spawned p c)
  | (K_whenIpcReady_signalled p, c) => async_segment p (whenIpcReady_signalled c)
  | (K_connect p, c) => async_segment p (connect_resumed c)
  | (K_toggle p, c) => async_segment p (toggle_resumed c)
  | (K_channel_ready nonce, c) => channel_ready nonce c
  | (K_channel_port nonce, c) => channel_port nonce c
  | (K_resolveThenable p t, _) => await t (K_adopt p)
  | (K_adopt p, c) => settle p c
  end.

Inductive Event :=
| E_spawn (env : ProcessEnv)                 (* a caller invokes [spawn(env)] *)
| E_connect                                  (* a caller invokes [connect()] *)
| E_toggle                                   (* a caller invokes [toggle()] *)
| E_whenReady                                (* a caller invokes [whenReady()] *)
| E_createSharedProcessMessageChannel (nonce : string)
| E_channelEstablished (i : nat)             (* transport: a channel is in place *)
| E_ipcReady                                 (* worker: ipc-ready *)
| E_initDone                                 (* worker: init-done *)
| E_willShutdown                             (* lifecycle: onWillShutdown *)
| E_microtask                                (* the loop runs the next microtask *)
| E_timer (closeThrows : bool)               (* the loop runs the next timer *)
| E_windowClose (wid : nat)                  (* a close request from outside *)
| E_windowDestroyed (wid : nat).             (* the window's contents are gone *)

Definition step (ev : Event) (s : State) : State :=
  match ev with
  | E_spawn env => exec (spawn env) s
  | E_connect => exec connect s
  | E_toggle => exec toggle s
  | E_whenReady => exec whenReady s
  | E_createSharedProcessMessageChannel nonce =>
      exec (onCreateSharedProcessMessageChannel nonce) s
  | E_channelEstablished i => exec (on_channelEstablished i) s
  | E_ipcReady => exec on_ipcReady s
  | E_initDone => exec on_initDone s
  | E_willShutdown => exec onWillShutdown s
  | E_microtask =>
      match microtasks s with
      | [] => s
      | j :: q => exec (run_job j) (set_microtasks q s)
      end
  | E_timer throws =>
      match timers s with
      | [] => s
      | T_closeWindow wid :: ts =>
          exec (onWillShutdown_timeout wid throws) (set_timers ts s)
      end
  | E_windowClose wid => exec (emit_close wid) s
  | E_windowDestroyed wid => exec (update_window wid (bw_set_destroyed true)) s
  end.

Definition run (evs : list Event) (s : State) : State :=
  foldl (fun s ev => step ev s) s evs.

(** [new SharedProcess(machineId, userEnv, ...)]: nothing has happened yet.
    The constructor's [registerListeners] is what routes [E_willShutdown] and
    [E_createSharedProcessMessageChannel] to their handlers. *)
Definition init (mid : string) (env : ProcessEnv) (sv : Services) : State :=
  {| machineId := mid; services := sv; userEnv := env;
     whenSpawnedBarrier := Barrier.new;
     window := None; windowCloseListener := None;
     _whenReady := None; _whenIpcReady := None;
     windows := []; promises := []; onceIpcReady := []; onceInitDone := [];
     microtasks := []; timers := []; nextPort := 0; channels := []; log := [] |}.

Definition reachable (s : State) : Prop :=
  exists mid env sv evs, s = run evs (init mid env sv).

(** ** Vocabulary of the statements *)

Definition ipcReadyMsg : string := "SharedProcess: IPC ready".
Definition overallReadyMsg : string := "SharedProcess: Overall ready".

(** The worker's ipc-ready signal has been observed by a listener. *)
Definition ipcReady_observed (s : State) : Prop := ETrace ipcReadyMsg ∈ log s.

(** The worker's init-done signal has been observed by a listener. *)
Definition initDone_observed (s : State) : Prop := ETrace overallReadyMsg ∈ log s.

Definition barrier_open (s : State) : Prop :=
  Barrier.isOpen (whenSpawnedBarrier s) = true.

Definition settled (s : State) (p : nat) : Prop :=
  exists c, promises s !! p = Some (Settled c).

(** Number of times [createWindow] has run: each run constructs one window. *)
Definition creations (s : State) : nat := length (windows s).

(** The configuration payload of a window: the query of the URL it was
    loaded with. *)
Definition payload (s : State) (wid : nat) : option ConfigurationQuery :=
  b ← windows s !! wid; bw_query b.

(** The merge in the words of the specification, for the environment [env]
    of a payload: on every key the last overlay that binds it wins, whatever
    the baseline and the earlier overlays say; a key that no overlay binds
    keeps the value of the baseline.  A variable whose value is [undefined]
    is not part of the payload. *)
Definition last_overlay_wins (base : ProcessEnv) (overlays : list ProcessEnv)
    (env : gmap string string) : Prop :=
  (forall i o k v,
     overlays !! i = Some o -> o !! k = Some v ->
     (forall j o', i < j -> overlays !! j = Some o' -> o' !! k = None) ->
     env !! k = v) /\
  (forall k,
     (forall o, o ∈ overlays -> o !! k = None) ->
     env !! k = base !! k ≫= id).

(** Operations on a gate, and the waiters a sequence of them releases. *)
Inductive GateOp (W : Type) :=
| G_open
| G_wait (w : W).
Arguments G_open {W}.
Arguments G_wait {W} w.

Definition gate_step {W} (st : Barrier.t W * list W) (op : GateOp W)
  : Barrier.t W * list W :=
  match op with
  | G_open => let '(b, r) := Barrier.open st.1 in (b, st.2 ++ r)
  | G_wait w => let '(b, r) := Barrier.wait w st.1 in (b, st.2 ++ r)
  end.

Definition gate_run {W} (ops : list (GateOp W)) (b : Barrier.t W)
  : Barrier.t W * list W :=
  foldl gate_step (b, []) ops.

(** The waiters that a sequence of operations registers, in order. *)
Definition gate_waits {W} (ops : list (GateOp W)) : list W :=
  omap (fun op => match op with G_wait w => Some w | G_open => None end) ops.

(** A coordinator used in the examples. *)
Definition demo_services : Services :=
  {| environmentService :=
       {| appRoot := "/app"; nodeCachedDataDir := None;
          backupWorkspacesPath := "/backups"; sharedIPCHandle := "/tmp/shared.sock";
          args := [] |};
     logService_getLevel := 3;
     themeMainService_getBackgroundColor := "#1E1E1E" |}.

Definition demo_init : State := init "machine" ∅ demo_services.

(** The window exists and the worker has answered ipc-ready. *)
Definition demo_live : State :=
  run [E_connect; E_spawn ∅; E_microtask; E_ipcReady; E_microtask; E_microtask] demo_init.

(** ** Weakest preconditions for the synchronous code *)

(** [wp m Q E s]: run from [s], [m] either returns [a] in a state satisfying
    [Q a], or throws in a state satisfying [E]. *)
Definition wp {A} (m : M A) (Q : A -> State -> Prop) (E : State -> Prop)
  (s : State) : Prop :=
  match m s with
  | (Ok a, s') => Q a s'
  | (Thrown _, s') => E s'
  end.

(** ** Invariants of the promise heap *)

(** Both conditions a channel has to wait for. *)
Definition gate_passed (s : State) : Prop := barrier_open s /\ ipcReady_observed s.

(** [p] is a promise of the heap other than the one memoized by [whenReady]. *)
Definition owned (s : State) (p : nat) : Prop :=
  p < length (promises s) /\ _whenReady s <> Some p.

Definition is_channel_ready (k : Cont) : Prop :=
  match k with K_channel_ready _ => True | _ => False end.

(** What may wait on an owned promise. *)
Definition reaction_ok (s : State) (k : Cont) : Prop :=
  match k with
  | K_whenIpcReady_signalled p | K_connect p | K_toggle p | K_adopt p => owned s p
  | K_channel_port _ => initDone_observed s
  | K_whenIpcReady_spawned _ | K_channel_ready _ | K_resolveThenable _ _ => False
  end.

(** What may sit in the microtask queue. *)
Definition job_ok (s : State) (j : Job) : Prop :=
  match j.1 with
  | K_whenIpcReady_spawned p => owned s p /\ barrier_open s /\ exists v, j.2 = Normal v
  | K_whenIpcReady_signalled p | K_connect p | K_toggle p | K_adopt p =>
      owned s p /\ gate_passed s
  | K_resolveThenable p t => owned s p /\ owned s t /\ gate_passed s
  | K_channel_ready _ => initDone_observed s
  | K_channel_port _ => initDone_observed s /\ gate_passed s
  end.

(** A promise handed on as a value is an owned one. *)
Definition value_ok (s : State) (r : option Value) : Prop :=
  forall t, r = Some (VPromise t) -> owned s t.

Definition promise_ok (s : State) (p : nat) (st : PromiseState) : Prop :=
  match st with
  | Pending ks =>
      (_whenReady s = Some p -> Forall is_channel_ready ks) /\
      (_whenReady s <> Some p -> Forall (reaction_ok s) ks)
  | Settled _ =>
      (_whenReady s = Some p -> initDone_observed s) /\
      (_whenReady s <> Some p -> gate_passed s)
  end.

Definition is_post (e : Effect) : Prop :=
  match e with EPostMessage _ _ => True | _ => False end.

Record PInv (s : State) : Prop := {
  pinv_whenReady : forall p, _whenReady s = Some p -> p < length (promises s);
  pinv_whenIpcReady : forall p, _whenIpcReady s = Some p -> owned s p;
  pinv_onceInitDone : Forall (fun t => _whenReady s = Some t) (onceInitDone s);
  pinv_onceIpcReady : Forall (owned s) (onceIpcReady s);
  pinv_waiters :
    Forall (fun k => exists p, k = K_whenIpcReady_spawned p /\ owned s p)
           (Barrier.waiters (whenSpawnedBarrier s));
  pinv_microtasks : Forall (job_ok s) (microtasks s);
  pinv_promises : forall p st, promises s !! p = Some st -> promise_ok s p st;
  pinv_listening : onceIpcReady s <> [] -> barrier_open s;
  pinv_released : barrier_open s -> Barrier.waiters (whenSpawnedBarrier s) = [];
  pinv_posted : forall e, e ∈ log s -> is_post e ->
                initDone_observed s /\ gate_passed s;
  pinv_channels : Forall (fun c => owned s c.1 /\ gate_passed s) (channels s)
}.

(** What later states keep of earlier ones. *)
Record ext (s s' : State) : Prop := {
  ext_promises : length (promises s) <= length (promises s');
  ext_whenReady :
    _whenReady s' = _whenReady s \/
    (_whenReady s = None /\ exists p, _whenReady s' = Some p /\ length (promises s) <= p);
  ext_whenIpcReady : forall p, _whenIpcReady s = Some p -> _whenIpcReady s' = Some p;
  ext_log : forall e, e ∈ log s -> e ∈ log s';
  ext_barrier : barrier_open s -> barrier_open s'
}.

(** Bodies of [whenIpcReady] that wait for the barrier or for their turn. *)
Definition is_spawned (k : Cont) : bool :=
  match k with K_whenIpcReady_spawned _ => true | _ => false end.

Fixpoint count_spawned (ks : list Cont) : nat :=
  match ks with
  | [] => 0
  | k :: ks' => (if is_spawned k then 1 else 0) + count_spawned ks'
  end.

Definition pending_bodies (s : State) : nat :=
  count_spawned (Barrier.waiters (whenSpawnedBarrier s)) +
  count_spawned (map fst (microtasks s)).

(** Bodies still to run plus windows already created. *)
Definition cnt (s : State) : nat := pending_bodies s + creations s.

Definition accessed (s : State) : nat :=
  match _whenIpcReady s with Some _ => 1 | None => 0 end.

(** Effects that neither post a port nor report the ipc-ready signal. *)
Definition silent (e : Effect) : Prop :=
  match e with
  | EPostMessage _ _ => False
  | ETrace msg => msg <> ipcReadyMsg
  | _ => True
  end.

(** A call that leaves the promise heap, the queue and the gate alone, posts
    nothing and observes no signal. *)
Record pframe (s s' : State) : Prop := {
  pf_whenReady : _whenReady s' = _whenReady s;
  pf_whenIpcReady : _whenIpcReady s' = _whenIpcReady s;
  pf_barrier : whenSpawnedBarrier s' = whenSpawnedBarrier s;
  pf_promises : promises s' = promises s;
  pf_onceIpcReady : onceIpcReady s' = onceIpcReady s;
  pf_onceInitDone : onceInitDone s' = onceInitDone s;
  pf_microtasks : microtasks s' = microtasks s;
  pf_log : exists l, log s' = log s ++ l /\ Forall silent l;
  pf_windows : length (windows s') = length (windows s);
  pf_nextPort : nextPort s <= nextPort s';
  pf_channels : channels s' = channels s
}.

Definition framed {A} (m : M A) : Prop :=
  forall s, wp m (fun _ => pframe s) (pframe s) s.

(** What every call of the coordinator other than [createWindow] keeps: the
    invariant, the extension order, the balance between bodies of
    [whenIpcReady] started and bodies pending or run, the windows, and the
    microtasks already queued. *)
Record keeps (s s' : State) : Prop := {
  keeps_inv : PInv s';
  keeps_ext : ext s s';
  keeps_bal : cnt s' + accessed s = cnt s + accessed s';
  keeps_creations : creations s' = creations s;
  keeps_queue : exists new, microtasks s' = microtasks s ++ new
}.

(** The same for a call that, in addition, cannot throw. *)
Definition framed0 {A} (m : M A) : Prop :=
  forall s, wp m (fun _ => pframe s) (fun _ => False) s.

(** A call that always returns. *)
Definition total {A} (m : M A) : Prop := forall s, exists a s', m s = (Ok a, s').

(** What the invariant is at the end of every event. *)
Record Inv (s : State) : Prop := {
  inv_heap : PInv s;
  inv_once : cnt s = accessed s
}.

(** ** Invariants of the window *)

(** Effects that neither close a window nor register a close listener. *)
Definition quiet (e : Effect) : Prop :=
  match e with
  | EClose _ => False
  | EOn _ ev => ev <> "close"
  | _ => True
  end.

(** Number of [window.on('close', ...)] calls made so far. *)
Fixpoint veto_registrations (l : list Effect) : nat :=
  match l with
  | [] => 0
  | EOn _ ev :: l' => (if String.eqb ev "close" then 1 else 0) + veto_registrations l'
  | _ :: l' => veto_registrations l'
  end.

Definition is_close (e : Effect) : Prop :=
  match e with EClose _ => True | _ => False end.

(** Every close call in the log comes after the removal of the close
    listener of the same window. *)
Definition close_after_removal (l : list Effect) : Prop :=
  forall i w, l !! i = Some (EClose w) ->
    exists j, j < i /\ l !! j = Some (ERemoveListener w "close").

Record WInv (s : State) : Prop := {
  winv_window : forall w, window s = Some w ->
    exists bw, windows s !! w = Some bw /\
               bw_closeListeners bw = option_list (windowCloseListener s);
  winv_unclosed : forall w, window s = Some w -> EClose w ∉ log s;
  winv_closed : forall w, EClose w ∈ log s -> w < length (windows s);
  winv_timers : forall w, T_closeWindow w ∈ timers s ->
    w < length (windows s) /\ ERemoveListener w "close" ∈ log s;
  winv_removed : forall w, window s = Some w -> windowCloseListener s = None ->
    ERemoveListener w "close" ∈ log s;
  winv_order : close_after_removal (log s);
  winv_registrations : veto_registrations (log s) = creations s
}.

(** A call that leaves the window handle, the close listeners, the loaded
    configuration and the timers alone and closes nothing. *)
Record wframe (s s' : State) : Prop := {
  wf_window : window s' = window s;
  wf_listener : windowCloseListener s' = windowCloseListener s;
  wf_timers : timers s' = timers s;
  wf_length : length (windows s') = length (windows s);
  wf_windows : forall w,
    bw_closeListeners <$> windows s' !! w = bw_closeListeners <$> windows s !! w;
  wf_config : forall w,
    bw_query <$> windows s' !! w = bw_query <$> windows s !! w;
  wf_log : exists l, log s' = log s ++ l /\ Forall quiet l
}.

Definition wframed {A} (m : M A) : Prop :=
  forall s, wp m (fun _ => wframe s) (wframe s) s.

(** The window right after [createWindow] and [registerWindowListeners]. *)
Definition fresh_window (s : State) : BrowserWindow :=
  {| bw_backgroundColor := themeMainService_getBackgroundColor (services s);
     bw_visible := false; bw_devTools := false; bw_destroyed := false;
     bw_closeListeners := [CloseVeto];
     bw_query := Some (JSON_stringify (configuration s (length (windows s)))) |}.

(** What [createWindow] followed by [registerWindowListeners] leaves. *)
Record window_created (s s' : State) : Prop := {
  wc_window : window s' = Some (length (windows s));
  wc_listener : windowCloseListener s' = Some CloseVeto;
  wc_timers : timers s' = timers s;
  wc_windows : windows s' = windows s ++ [fresh_window s];
  wc_log : log s' = log s ++
    [ENewBrowserWindow (length (windows s));
     ELoadURL (length (windows s))
       (JSON_stringify (configuration s (length (windows s))));
     EOn (length (windows s)) "close";
     EOn (length (windows s)) "render-process-gone";
     EOn (length (windows s)) "unresponsive";
     EOn (length (windows s)) "did-fail-load"];
  wc_userEnv : userEnv s' = userEnv s
}.


(** [onWillShutdown] with a window: what it leaves. *)
Record shutdown_issued (s s' : State) (w : nat) (bw : BrowserWindow) : Prop := {
  si_window : window s' = Some w;
  si_listener : windowCloseListener s' = None;
  si_timers : timers s' = timers s ++ [T_closeWindow w];
  si_windows : windows s' =
    match windowCloseListener s with
    | Some l => <[w := bw_set_closeListeners (remove_one l (bw_closeListeners bw)) bw]> (windows s)
    | None => windows s
    end;
  si_log : log s' = log s ++
    (if bw_destroyed bw then [] else [ESend w exitChannel]) ++
    match windowCloseListener s with
    | Some _ => [ERemoveListener w "close"]
    | None => []
    end ++ [ESetTimeout 0]
}.

(** ** The ipc-ready listener and the memoized promise *)

(** The promise a continuation settles when it finishes, if it has one. *)
Definition target (k : Cont) : option nat :=
  match k with
  | K_whenIpcReady_spawned p | K_whenIpcReady_signalled p
  | K_connect p | K_toggle p | K_resolveThenable p _ | K_adopt p => Some p
  | K_channel_ready _ | K_channel_port _ => None
  end.

(** [p] is a promise of the heap that no ipc-ready listener resolves. *)
Definition free (s : State) (p : nat) : Prop :=
  p < length (promises s) /\ p ∉ onceIpcReady s.

Definition cont_ok (s : State) (k : Cont) : Prop :=
  forall t, target k = Some t -> free s t.

(** A port in circulation has been allocated. *)
Definition port_ok (s : State) (c : Completion) : Prop :=
  match c with
  | Normal (VPort n) => n < nextPort s
  | _ => True
  end.

(** [q] is settled, or the microtask that settles it is queued. *)
Definition resolving (s : State) (q : nat) : Prop :=
  settled s q \/ exists c, (K_whenIpcReady_signalled q, c) ∈ microtasks s.

(** The promise behind an ipc-ready listener is pending, only the listener
    resolves it, and the body of [whenIpcReady] waits on it; every port held
    by a promise, a microtask or a posted message has been allocated. *)
Record LInv (s : State) : Prop := {
  linv_jobs : forall k c, (k, c) ∈ microtasks s -> cont_ok s k;
  linv_reactions : forall p ks k,
    promises s !! p = Some (Pending ks) -> k ∈ ks ->
    is_spawned k = false /\ cont_ok s k;
  linv_waiters : forall k, k ∈ Barrier.waiters (whenSpawnedBarrier s) ->
    exists q, k = K_whenIpcReady_spawned q /\ _whenIpcReady s = Some q;
  linv_memo : forall q, _whenIpcReady s = Some q -> free s q;
  linv_whenReady : forall t, _whenReady s = Some t -> free s t;
  linv_spawned : forall q c,
    (K_whenIpcReady_spawned q, c) ∈ microtasks s -> _whenIpcReady s = Some q;
  linv_listening : forall ip, ip ∈ onceIpcReady s ->
    ip < length (promises s) /\
    exists q ks, _whenIpcReady s = Some q /\
      promises s !! ip = Some (Pending ks) /\ K_whenIpcReady_signalled q ∈ ks;
  linv_initDone : forall t, t ∈ onceInitDone s -> free s t;
  linv_ports : forall p c, promises s !! p = Some (Settled c) -> port_ok s c;
  linv_job_ports : forall k c, (k, c) ∈ microtasks s -> port_ok s c;
  linv_posted : forall nonce n, EPostMessage nonce n ∈ log s -> n < nextPort s;
  linv_channels : forall t n, (t, n) ∈ channels s -> free s t /\ n < nextPort s
}.

Record lext (s s' : State) : Prop := {
  lext_promises : length (promises s) <= length (promises s');
  lext_listening : forall ip, ip ∈ onceIpcReady s' ->
    ip ∈ onceIpcReady s \/ length (promises s) <= ip;
  lext_memo : forall q, _whenIpcReady s = Some q -> _whenIpcReady s' = Some q;
  lext_resolving : forall q, resolving s q -> resolving s' q;
  lext_log : ipcReady_observed s' -> ipcReady_observed s;
  lext_reactions : forall p ks k,
    promises s !! p = Some (Pending ks) -> k ∈ ks ->
    (exists ks', promises s' !! p = Some (Pending ks') /\ k ∈ ks') \/
    (exists c, (k, c) ∈ microtasks s');
  lext_jobs : forall j, j ∈ microtasks s -> j ∈ microtasks s';
  lext_nextPort : nextPort s <= nextPort s'
}.

Record lkeeps (s s' : State) : Prop := {
  lk_inv : LInv s';
  lk_ext : lext s s'
}.

(** Once the ipc-ready signal has been observed, the promise memoized by
    [whenIpcReady] is settled or about to be. *)
Record Ready (s : State) : Prop := {
  ready_inv : LInv s;
  ready_observed : ipcReady_observed s ->
    exists q, _whenIpcReady s = Some q /\ resolving s q
}.

(** ** Example states *)

(** The worker has been spawned and has sent both of its signals; one
    channel request has been served. *)
Definition demo_served : State :=
  run [E_createSharedProcessMessageChannel "nonce-1"; E_connect; E_spawn ∅;
       E_microtask; E_ipcReady; E_microtask; E_microtask; E_initDone;
       E_microtask; E_microtask; E_microtask; E_microtask;
       E_channelEstablished 1; E_microtask; E_microtask] demo_init.




(** The first call of [connect()] has been given its port, and the microtask
    queue has drained. *)
Definition demo_connected : State :=
  run [E_connect; E_spawn ∅; E_microtask; E_ipcReady; E_microtask; E_microtask;
       E_microtask; E_channelEstablished 0; E_microtask] demo_init.

(** * Properties *)

(** ** Runs *)

Lemma run_app evs1 evs2 s : run (evs1 ++ evs2) s = run evs2 (run evs1 s).
Proof. unfold run. apply foldl_app. Qed.

Lemma run_snoc evs ev s : run (evs ++ [ev]) s = step ev (run evs s).
Proof. by rewrite run_app. Qed.

Lemma reachable_init mid env sv : reachable (init mid env sv).
Proof. by exists mid, env, sv, []. Qed.

Lemma reachable_step ev s : reachable s -> reachable (step ev s).
Proof.
  intros (mid & env & sv & evs & ->).
  exists mid, env, sv, (evs ++ [ev]). by rewrite run_snoc.
Qed.

Lemma reachable_run evs s : reachable s -> reachable (run evs s).
Proof.
  revert s. induction evs as [|ev evs IH]; intros s Hs; [done|].
  apply IH. by apply reachable_step.
Qed.

(** Induction over the events that led to a state. *)
Lemma reachable_ind (P : State -> Prop) :
  (forall mid env sv, P (init mid env sv)) ->
  (forall ev s, reachable s -> P s -> P (step ev s)) ->
  forall s, reachable s -> P s.
Proof.
  intros Hinit Hstep s (mid & env & sv & evs & ->).
  induction evs as [|ev evs IH] using rev_ind; [apply Hinit|].
  rewrite run_snoc. apply Hstep; [|done].
  by exists mid, env, sv, evs.
Qed.

(** ** Shutdown before the window exists *)

(** C8.  When the window handle is undefined, [onWillShutdown] returns at
    once: it completes without an exception and the state it leaves is the
    state it found, so nothing was sent, no close was scheduled and no field
    changed. *)
Theorem C8_shutdown_without_window (s : State) :
  window s = None ->
  onWillShutdown s = (Ok tt, s) /\ step E_willShutdown s = s.
Proof.
  intros Hw. unfold step, exec, onWillShutdown, bind, gets.
  by rewrite Hw.
Qed.

Lemma C8_shutdown_without_window_witness :
  window demo_init = None /\
  (onWillShutdown demo_init = (Ok tt, demo_init) /\ step E_willShutdown demo_init = demo_init).
Proof. split; [reflexivity | apply (C8_shutdown_without_window demo_init); reflexivity]. Defined.

(** ** Rules for [wp] *)

Section WP.
Context {A B : Type}.
Implicit Types (m : M A) (k : A -> M B).

Lemma wp_ret (a : A) (Q : A -> State -> Prop) E s : Q a s -> wp (ret a) Q E s.
Proof. done. Qed.

Lemma wp_bind m k (Q : B -> State -> Prop) E s :
  wp m (fun a s' => wp (k a) Q E s') E s -> wp (bind m k) Q E s.
Proof. unfold wp, bind. destruct (m s) as [[a|e] s']; done. Qed.

Lemma wp_mono m (Q Q' : A -> State -> Prop) (E E' : State -> Prop) s :
  wp m Q E s ->
  (forall a s', Q a s' -> Q' a s') -> (forall s', E s' -> E' s') ->
  wp m Q' E' s.
Proof. unfold wp. destruct (m s) as [[a|e] s']; auto. Qed.

Lemma wp_gets (f : State -> A) (Q : A -> State -> Prop) E s :
  Q (f s) s -> wp (gets f) Q E s.
Proof. done. Qed.

Lemma wp_throw msg (Q : A -> State -> Prop) (E : State -> Prop) s :
  E s -> wp (throw msg) Q E s.
Proof. done. Qed.

Lemma wp_try_catch m (h : string -> M A) (Q : A -> State -> Prop) E s :
  wp m Q (fun s' => forall e, wp (h e) Q E s') s -> wp (try_catch m h) Q E s.
Proof.
  unfold wp, try_catch. destruct (m s) as [[a|e] s']; [done|].
  intros H. apply H.
Qed.

Lemma wp_exec m (Q : State -> Prop) s :
  wp m (fun _ => Q) Q s -> Q (exec m s).
Proof. unfold wp, exec. destruct (m s) as [[a|e] s']; done. Qed.
End WP.

Lemma wp_modify f (Q : unit -> State -> Prop) E s :
  Q tt (f s) -> wp (modify f) Q E s.
Proof. done. Qed.

(** Continue after a call whose specification is known. *)
Ltac wp_apply H :=
  apply wp_bind; eapply wp_mono; [apply H | cbv beta | cbv beta].

(** ** Extension is a preorder *)

Lemma ext_refl s : ext s s.
Proof. split; auto. Qed.

Lemma ext_trans s1 s2 s3 : ext s1 s2 -> ext s2 s3 -> ext s1 s3.
Proof.
  intros [Hp1 Hr1 Hi1 Hl1 Hb1] [Hp2 Hr2 Hi2 Hl2 Hb2].
  split; try (by auto); try lia.
  destruct Hr1 as [Hr1|(Hn & p & Hr1 & Hle)].
  - destruct Hr2 as [Hr2|(Hn' & p & Hr2 & Hle)].
    + left. congruence.
    + right. split; [congruence|]. exists p. split; [done|lia].
  - destruct Hr2 as [Hr2|(Hn' & p' & Hr2 & Hle')]; [|congruence].
    right. split; [done|]. exists p. split; [congruence|done].
Qed.

Lemma owned_ext s s' p : ext s s' -> owned s p -> owned s' p.
Proof.
  intros [Hp Hr _ _ _] [Hlt Hne]. split; [lia|].
  destruct Hr as [->|(_ & q & -> & Hle)]; [done|].
  intros [= ->]. lia.
Qed.

Lemma whenReady_ext s s' t : ext s s' -> _whenReady s = Some t -> _whenReady s' = Some t.
Proof. intros [_ [->|(Hn & _)] _ _ _] Ht; congruence. Qed.

Lemma gate_passed_ext s s' : ext s s' -> gate_passed s -> gate_passed s'.
Proof. intros Hx [Ho Hi]. split; [by apply (ext_barrier _ _ Hx)|by apply (ext_log _ _ Hx)]. Qed.

Lemma initDone_ext s s' : ext s s' -> initDone_observed s -> initDone_observed s'.
Proof. intros Hx. apply (ext_log _ _ Hx). Qed.

Lemma barrier_open_ext s s' : ext s s' -> barrier_open s -> barrier_open s'.
Proof. intros Hx. apply (ext_barrier _ _ Hx). Qed.

(** ** Stability under extension *)

Lemma reaction_ok_ext s s' k : ext s s' -> reaction_ok s k -> reaction_ok s' k.
Proof.
  intros Hx. destruct k; simpl; eauto using owned_ext, initDone_ext.
Qed.

Lemma job_ok_ext s s' j : ext s s' -> job_ok s j -> job_ok s' j.
Proof.
  intros Hx. unfold job_ok. destruct j as [[] c]; simpl;
    intuition eauto using owned_ext, initDone_ext, gate_passed_ext, barrier_open_ext.
Qed.

Lemma promise_ok_ext s s' p st :
  ext s s' -> p < length (promises s) -> promise_ok s p st -> promise_ok s' p st.
Proof.
  intros Hx Hlt Hok.
  assert (Hr : _whenReady s' = Some p <-> _whenReady s = Some p).
  { destruct (ext_whenReady _ _ Hx) as [->|(Hn & q & Hq & Hle)]; [done|].
    rewrite Hn, Hq. split; [|done]. intros [= ->]. lia. }
  destruct st as [ks|c]; simpl in *; destruct Hok as [H1 H2]; split; intros H.
  - apply H1, Hr, H.
  - eapply Forall_impl; [apply H2; by rewrite <- Hr|].
    intros k. by apply reaction_ok_ext.
  - eapply initDone_ext; [done|]. apply H1, Hr, H.
  - eapply gate_passed_ext; [done|]. apply H2. by rewrite <- Hr.
Qed.

Lemma Forall_owned_ext s s' l : ext s s' -> Forall (owned s) l -> Forall (owned s') l.
Proof. intros Hx H. eapply Forall_impl; [exact H|]. intros p. by apply owned_ext. Qed.

Lemma Forall_job_ok_ext s s' l : ext s s' -> Forall (job_ok s) l -> Forall (job_ok s') l.
Proof. intros Hx H. eapply Forall_impl; [exact H|]. intros p. by apply job_ok_ext. Qed.

Lemma keeps_refl s : PInv s -> keeps s s.
Proof.
  intros. split; [done|apply ext_refl|done|done|].
  exists []. by rewrite app_nil_r.
Qed.

Lemma keeps_trans s1 s2 s3 : keeps s1 s2 -> keeps s2 s3 -> keeps s1 s3.
Proof.
  intros [_ Hx1 Hb1 Hc1 (n1 & Hq1)] [Hi Hx2 Hb2 Hc2 (n2 & Hq2)].
  split; [done|by eapply ext_trans|lia|congruence|].
  exists (n1 ++ n2). by rewrite Hq2, Hq1, app_assoc.
Qed.

Lemma count_spawned_app ks1 ks2 :
  count_spawned (ks1 ++ ks2) = count_spawned ks1 + count_spawned ks2.
Proof. induction ks1 as [|k ks1 IH]; simpl; [done|]. rewrite IH. lia. Qed.

(** The queue only grows at its end. *)
Ltac qsolve :=
  simpl; first [ by (exists []; rewrite app_nil_r) | by eexists
               | by (rewrite app_nil_r; exists []; rewrite app_nil_r) ].

(** ** Calls outside the promise heap *)

Lemma pframe_refl s : pframe s s.
Proof. split; auto. exists []. by rewrite app_nil_r. Qed.

Lemma pframe_trans s1 s2 s3 : pframe s1 s2 -> pframe s2 s3 -> pframe s1 s3.
Proof.
  intros [? ? ? ? ? ? ? (l1 & Hl1 & Hp1) ? ? ?] [? ? ? ? ? ? ? (l2 & Hl2 & Hp2) ? ? ?].
  split; try congruence; try lia.
  exists (l1 ++ l2). split; [by rewrite Hl2, Hl1, app_assoc|].
  by apply Forall_app.
Qed.

Lemma pframe_keeps s s' : pframe s s' -> PInv s -> keeps s s'.
Proof.
  intros [Hr Hi Hb Hp Ho1 Ho2 Hm (l & Hl & Hnp) Hw _ Hch] Hinv.
  assert (Hx : ext s s').
  { split.
    - by rewrite Hp.
    - by left.
    - intros p. by rewrite Hi.
    - intros e He. rewrite Hl. apply elem_of_app. by left.
    - unfold barrier_open. by rewrite Hb. }
  split; [|done| | |].
  - destruct Hinv as [W1 W2 W3 W4 W5 W6 W7 W8 W9 W10 W11]. split.
    + intros p. rewrite Hr, Hp. apply W1.
    + intros p Hp'. apply (owned_ext s); [done|]. apply W2. by rewrite <- Hi.
    + rewrite Ho2. eapply Forall_impl; [exact W3|]. intros t. by rewrite Hr.
    + rewrite Ho1. by apply (Forall_owned_ext s).
    + rewrite Hb. eapply Forall_impl; [exact W5|].
      intros k (p & -> & Hown). exists p. split; [done|]. by apply (owned_ext s).
    + rewrite Hm. by apply (Forall_job_ok_ext s).
    + intros p st. rewrite Hp. intros Hst. apply (promise_ok_ext s); [done| |by apply W7].
      by apply lookup_lt_Some in Hst.
    + rewrite Ho1. intros Hne. apply (barrier_open_ext s); auto.
    + unfold barrier_open. rewrite Hb. apply W9.
    + intros e. rewrite Hl. intros [He|He]%elem_of_app Hpost.
      * destruct (W10 e He Hpost). split; [by apply (initDone_ext s)|by apply (gate_passed_ext s)].
      * rewrite Forall_forall in Hnp. specialize (Hnp e He). by destruct e.
    + rewrite Hch. eapply Forall_impl; [exact W11|]. intros c [? ?].
      split; [by apply (owned_ext s)|by apply (gate_passed_ext s)].
  - unfold cnt, pending_bodies, creations, accessed. by rewrite Hb, Hm, Hw, Hi.
  - unfold creations. by rewrite Hw.
  - exists []. by rewrite Hm, app_nil_r.
Qed.

Lemma framed_ret {A} (a : A) : framed (ret a).
Proof. intros s. apply pframe_refl. Qed.

Lemma framed_gets {A} (f : State -> A) : framed (gets f).
Proof. intros s. apply pframe_refl. Qed.

Lemma framed_throw {A} msg : framed (@throw A msg).
Proof. intros s. apply pframe_refl. Qed.

Lemma framed_bind {A B} (m : M A) (k : A -> M B) :
  framed m -> (forall a, framed (k a)) -> framed (bind m k).
Proof.
  intros Hm Hk s. apply wp_bind. eapply wp_mono; [apply Hm| |done].
  intros a s' Hf. eapply wp_mono; [apply Hk| |]; simpl.
  - intros b s'' H. exact (pframe_trans _ _ _ Hf H).
  - intros s'' H. exact (pframe_trans _ _ _ Hf H).
Qed.

Lemma framed_try_catch {A} (m : M A) (h : string -> M A) :
  framed m -> (forall e, framed (h e)) -> framed (try_catch m h).
Proof.
  intros Hm Hh s. apply wp_try_catch. eapply wp_mono; [apply Hm|done|].
  intros s' Hf e. eapply wp_mono; [apply Hh| |]; simpl.
  - intros b s'' H. exact (pframe_trans _ _ _ Hf H).
  - intros s'' H. exact (pframe_trans _ _ _ Hf H).
Qed.

Lemma framed_modify f : (forall s, pframe s (f s)) -> framed (modify f).
Proof. intros H s. apply H. Qed.

Lemma framed_emit e : silent e -> framed (emit e).
Proof.
  intros He. apply framed_modify. intros s. split; try done.
  exists [e]. split; [done|]. by constructor.
Qed.

Lemma framed_update_window wid f : framed (update_window wid f).
Proof.
  apply framed_modify. intros s. split; try done.
  - exists []. by rewrite app_nil_r.
  - simpl. by rewrite length_alter.
Qed.

Lemma framed_keeps {A} (m : M A) s :
  framed m -> PInv s -> wp m (fun _ => keeps s) (keeps s) s.
Proof.
  intros Hm Hinv. eapply wp_mono; [apply Hm| |];
    simpl; intros; by apply pframe_keeps.
Qed.
(** ** The primitives keep the invariant *)

(** A state that differs from [s] in ways the invariant can absorb: what is
    new in [s'] is checked in [s'], what is old is carried over. *)
Lemma PInv_step s s' :
  PInv s -> ext s s' ->
  _whenReady s' = _whenReady s ->
  (forall p, _whenIpcReady s' = Some p -> _whenIpcReady s = Some p \/ owned s' p) ->
  (forall t, t ∈ onceInitDone s' -> t ∈ onceInitDone s) ->
  (forall t, t ∈ onceIpcReady s' -> t ∈ onceIpcReady s \/ owned s' t) ->
  (onceIpcReady s' <> [] -> onceIpcReady s <> [] \/ barrier_open s') ->
  (forall k, k ∈ Barrier.waiters (whenSpawnedBarrier s') ->
     k ∈ Barrier.waiters (whenSpawnedBarrier s) \/
     exists p, k = K_whenIpcReady_spawned p /\ owned s' p) ->
  (barrier_open s' -> Barrier.waiters (whenSpawnedBarrier s') = []) ->
  (forall j, j ∈ microtasks s' -> j ∈ microtasks s \/ job_ok s' j) ->
  (forall p st, promises s' !! p = Some st ->
                promises s !! p = Some st \/ promise_ok s' p st) ->
  (forall e, e ∈ log s' -> is_post e ->
             e ∈ log s \/ (initDone_observed s' /\ gate_passed s')) ->
  (forall c, c ∈ channels s' ->
             c ∈ channels s \/ (owned s' c.1 /\ gate_passed s')) ->
  PInv s'.
Proof.
  intros [W1 W2 W3 W4 W5 W6 W7 W8 W9 W10 W11] Hx Hr Hi Hd Hq Hl Hw Ho Hm Hp Hlog Hch.
  split.
  - intros p. rewrite Hr. intros Hp'. pose proof (W1 p Hp'). pose proof (ext_promises _ _ Hx). lia.
  - intros p Hp'. destruct (Hi p Hp') as [Hold|Hnew]; [|done].
    apply (owned_ext s); auto.
  - apply Forall_forall. intros t Ht. apply Hd in Ht.
    rewrite Forall_forall in W3. rewrite Hr. by apply W3.
  - apply Forall_forall. intros t Ht. destruct (Hq t Ht) as [Hold|Hnew]; [|done].
    apply (owned_ext s); [done|]. rewrite Forall_forall in W4. by apply W4.
  - apply Forall_forall. intros k Hk. destruct (Hw k Hk) as [Hold|Hnew]; [|done].
    rewrite Forall_forall in W5. destruct (W5 k Hold) as (p & -> & Hown).
    exists p. split; [done|]. by apply (owned_ext s).
  - apply Forall_forall. intros j Hj. destruct (Hm j Hj) as [Hold|Hnew]; [|done].
    apply (job_ok_ext s); [done|]. rewrite Forall_forall in W6. by apply W6.
  - intros p st Hst. destruct (Hp p st Hst) as [Hold|Hnew]; [|done].
    apply (promise_ok_ext s); [done|by apply lookup_lt_Some in Hold|by apply W7].
  - intros Hne. destruct (Hl Hne) as [Hold|Hnew]; [|done].
    apply (barrier_open_ext s); auto.
  - done.
  - intros e He Hpost. destruct (Hlog e He Hpost) as [Hold|Hnew]; [|done].
    destruct (W10 e Hold Hpost). split; [by apply (initDone_ext s)|by apply (gate_passed_ext s)].
  - apply Forall_forall. intros c Hc. destruct (Hch c Hc) as [Hold|Hnew]; [|done].
    rewrite Forall_forall in W11. destruct (W11 c Hold).
    split; [by apply (owned_ext s)|by apply (gate_passed_ext s)].
Qed.

Lemma newPromise_spec s :
  PInv s ->
  wp newPromise (fun p s' => keeps s s' /\ owned s' p /\ p = length (promises s))
     (fun _ => False) s.
Proof.
  intros Hinv. unfold wp, newPromise.
  set (s' := set_promises _ s).
  assert (Hx : ext s s').
  { split; simpl; auto. rewrite length_app. lia. }
  split; [split; [|done|done|done|qsolve]|split; [|done]].
  - apply (PInv_step s); auto; simpl.
    + apply Hinv.
    + intros p st [Hold|[Hle Hnew]]%lookup_app_Some; [by left|right].
      apply list_lookup_singleton_Some in Hnew as [_ <-].
      split; intros _; constructor.
  - split; simpl; [rewrite length_app; simpl; lia|].
    intros H. apply (pinv_whenReady _ Hinv) in H. lia.
Qed.

Lemma reaction_not_spawned s k : reaction_ok s k -> is_spawned k = false.
Proof. by destruct k. Qed.

Lemma channel_ready_not_spawned k : is_channel_ready k -> is_spawned k = false.
Proof. by destruct k. Qed.

Lemma count_spawned_0 ks :
  Forall (fun k => is_spawned k = false) ks -> count_spawned ks = 0.
Proof. induction 1 as [|k ks Hk _ IH]; simpl; [done|]. by rewrite Hk. Qed.

Lemma reactions_not_spawned s p ks :
  PInv s -> promises s !! p = Some (Pending ks) -> count_spawned ks = 0.
Proof.
  intros Hinv Hp. apply count_spawned_0.
  destruct (pinv_promises _ Hinv _ _ Hp) as [H1 H2].
  destruct (decide (_whenReady s = Some p)) as [Hr|Hr].
  - eapply Forall_impl; [exact (H1 Hr)|]. apply channel_ready_not_spawned.
  - eapply Forall_impl; [exact (H2 Hr)|]. apply reaction_not_spawned.
Qed.

Lemma map_fst_pair (c : Completion) (ks : list Cont) :
  map fst (map (fun k => (k, c)) ks) = ks.
Proof. induction ks as [|k ks IH]; simpl; [done|]. by rewrite IH. Qed.

(** The promise to settle is either one of the [async] calls, settled after
    the gate, or the one of [whenReady], settled by init-done. *)
Lemma settle_spec s p c :
  PInv s ->
  (owned s p /\ gate_passed s) \/ (_whenReady s = Some p /\ initDone_observed s) ->
  wp (settle p c) (fun _ s' => keeps s s') (fun _ => False) s.
Proof.
  intros Hinv Hpre. unfold wp, settle.
  destruct (promises s !! p) as [[ks|c']|] eqn:Hp; try by apply keeps_refl.
  set (s' := set_microtasks _ _).
  assert (Hx : ext s s').
  { split; simpl; auto. by rewrite length_insert. }
  pose proof (pinv_promises _ Hinv _ _ Hp) as [Hk1 Hk2].
  split; [|done| |done|qsolve].
  - apply (PInv_step s); auto; simpl.
    + apply Hinv.
    + intros [k' c'] [Hold|Hnew]%elem_of_app; [by left|right].
      apply list_elem_of_fmap in Hnew as (k & [= -> ->] & Hk).
      destruct Hpre as [[Hown Hg]|[Hr Hd]].
      * specialize (Hk2 (proj2 Hown)). rewrite Forall_forall in Hk2.
        specialize (Hk2 k Hk). unfold job_ok.
        destruct k; simpl in *; try done;
          eauto using owned_ext, gate_passed_ext, initDone_ext.
      * specialize (Hk1 Hr). rewrite Forall_forall in Hk1.
        specialize (Hk1 k Hk). unfold job_ok.
        destruct k; simpl in *; done.
    + intros q st Hq. destruct (decide (q = p)) as [->|Hne].
      * right. rewrite list_lookup_insert_eq in Hq by (by apply lookup_lt_Some in Hp).
        injection Hq as <-. simpl.
        destruct Hpre as [[Hown Hg]|[Hr Hd]].
        -- split; [by destruct Hown|done].
        -- split; [done|congruence].
      * left. by rewrite list_lookup_insert_ne in Hq.
  - unfold cnt, pending_bodies, creations, accessed. simpl. rewrite map_app, count_spawned_app, map_fst_pair.
    rewrite (reactions_not_spawned s p ks) by done.
    destruct (_whenIpcReady s); lia.
Qed.

Lemma await_spec s q k :
  PInv s ->
  (owned s q /\ reaction_ok s k) \/ (_whenReady s = Some q /\ is_channel_ready k) ->
  wp (await q k) (fun _ s' => keeps s s') (fun _ => False) s.
Proof.
  intros Hinv Hpre. unfold wp, await.
  assert (Hns : is_spawned k = false).
  { destruct Hpre as [[_ H]|[_ H]];
      eauto using reaction_not_spawned, channel_ready_not_spawned. }
  destruct (promises s !! q) as [[ks|c]|] eqn:Hq; try by apply keeps_refl.
  - set (s' := set_promises _ _).
    assert (Hx : ext s s').
    { split; simpl; auto. by rewrite length_insert. }
    pose proof (pinv_promises _ Hinv _ _ Hq) as [Hk1 Hk2].
    split; [|done|done|done|qsolve].
    apply (PInv_step s); auto; simpl; [apply Hinv|].
    intros p st Hp. destruct (decide (p = q)) as [->|Hne].
    + right. rewrite list_lookup_insert_eq in Hp by (by apply lookup_lt_Some in Hq).
      injection Hp as <-. simpl.
      destruct Hpre as [[Hown Hr]|[Hr Hc]].
      * split; [by destruct Hown|]. intros Hne. apply Forall_app. split.
        -- eapply Forall_impl; [exact (Hk2 Hne)|]. intros k'. by apply reaction_ok_ext.
        -- constructor; [by apply (reaction_ok_ext s)|constructor].
      * split; [|done]. intros _. apply Forall_app. split; [auto|].
        by repeat constructor.
    + left. by rewrite list_lookup_insert_ne in Hp.
  - set (s' := set_microtasks _ _).
    assert (Hx : ext s s') by (split; simpl; auto).
    pose proof (pinv_promises _ Hinv _ _ Hq) as [Hk1 Hk2].
    split; [|done| |done|qsolve].
    + apply (PInv_step s); auto; simpl; [apply Hinv|].
      intros j [Hold|Hnew]%elem_of_app; [by left|right].
      apply list_elem_of_singleton in Hnew as ->.
      destruct Hpre as [[Hown Hr]|[Hr Hc]].
      * specialize (Hk2 (proj2 Hown)). unfold job_ok.
        destruct k; simpl in *; try done; auto.
      * specialize (Hk1 Hr). unfold job_ok. destruct k; simpl in *; try done.
    + unfold cnt, pending_bodies, creations, accessed. simpl. rewrite map_app, count_spawned_app. simpl.
      rewrite Hns. destruct (_whenIpcReady s); lia.
Qed.
(** Apply [PInv_step] from [s]; ten side conditions remain, in the order of
    its statement, and an eleventh when the call touches [channels]. *)
Ltac pinv_step s Hinv Hx :=
  apply (PInv_step s); [exact Hinv | exact Hx | simpl .. | simpl; try (by auto)].

Ltac ext_solve :=
  split; unfold barrier_open; simpl;
  [ rewrite ?length_app, ?length_insert; simpl; lia
  | first [by left | right; split; [done|by eexists]]
  | first [done | intros; congruence]
  | first [done | intros e He; rewrite ?elem_of_app; auto]
  | first [done | intros; congruence] ].

Lemma open_whenSpawnedBarrier_spec s :
  PInv s ->
  wp open_whenSpawnedBarrier (fun _ s' => keeps s s' /\ barrier_open s')
     (fun _ => False) s.
Proof.
  intros Hinv. unfold wp, open_whenSpawnedBarrier, Barrier.open, enqueue, modify.
  set (s' := set_microtasks _ _).
  assert (Hx : ext s s') by ext_solve.
  split; [split; [|done| |done|qsolve]|done].
  - pinv_step s Hinv Hx.
    + done.
    + auto.
    + auto.
    + auto.
    + intros _. by right.
    + intros k Hk. by apply elem_of_nil in Hk.
    + done.
    + intros [k c] [Hold|Hnew]%elem_of_app; [by left|right].
      apply list_elem_of_fmap in Hnew as (k' & [= -> ->] & Hk).
      pose proof (pinv_waiters _ Hinv) as Hw. rewrite Forall_forall in Hw.
      destruct (Hw _ Hk) as (p & -> & Hown). unfold job_ok. simpl.
      split; [by apply (owned_ext s)|]. split; [done|by eexists].
    + auto.
    + auto.
  - unfold cnt, pending_bodies, creations, accessed; simpl.
    rewrite map_app, count_spawned_app, map_fst_pair.
    destruct (_whenIpcReady s); lia.
Qed.

Lemma whenIpcReady_spec s :
  PInv s ->
  wp whenIpcReady (fun q s' => keeps s s' /\ owned s' q /\ _whenIpcReady s' = Some q)
     (fun _ => False) s.
Proof.
  intros Hinv. unfold wp, whenIpcReady, bind, gets.
  destruct (_whenIpcReady s) as [p|] eqn:Hi; simpl.
  { split; [by apply keeps_refl|]. split; [by apply Hinv|done]. }
  unfold await_whenSpawnedBarrier, Barrier.wait, enqueue, modify. simpl.
  destruct (Barrier.isOpen (whenSpawnedBarrier s)) eqn:Ho; simpl.
  - set (s' := set__whenIpcReady _ _).
    assert (Hx : ext s s') by ext_solve.
    assert (Hown : owned s' (length (promises s))).
    { split; simpl; [rewrite length_app; simpl; lia|].
      intros H. apply (pinv_whenReady _ Hinv) in H. lia. }
    split; [split; [|done| |done|qsolve]|done].
    + pinv_step s Hinv Hx.
      * done.
      * intros p [= <-]. by right.
      * auto.
      * auto.
      * auto.
      * auto.
      * exact (pinv_released _ Hinv).
      * intros j [Hold|Hnew]%elem_of_app; [by left|right].
        apply list_elem_of_singleton in Hnew as ->. unfold job_ok. simpl.
        split; [done|]. split; [done|by eexists].
      * intros p st [Hold|[Hle Hnew]]%lookup_app_Some; [by left|right].
        apply list_lookup_singleton_Some in Hnew as [_ <-].
        split; intros _; constructor.
      * auto.
    + unfold cnt, pending_bodies, creations, accessed; simpl.
      rewrite Hi, map_app, count_spawned_app. simpl. lia.
  - set (s' := set__whenIpcReady _ _).
    assert (Hx : ext s s') by ext_solve.
    assert (Hown : owned s' (length (promises s))).
    { split; simpl; [rewrite length_app; simpl; lia|].
      intros H. apply (pinv_whenReady _ Hinv) in H. lia. }
    split; [split; [|done| |done|qsolve]|done].
    + pinv_step s Hinv Hx.
      * done.
      * intros p [= <-]. by right.
      * auto.
      * auto.
      * auto.
      * intros k [Hold|Hnew]%elem_of_app; [by left|right].
        apply list_elem_of_singleton in Hnew as ->. by eexists.
      * unfold barrier_open. simpl. congruence.
      * intros j. rewrite app_nil_r. auto.
      * intros p st [Hold|[Hle Hnew]]%lookup_app_Some; [by left|right].
        apply list_lookup_singleton_Some in Hnew as [_ <-].
        split; intros _; constructor.
      * auto.
    + unfold cnt, pending_bodies, creations, accessed; simpl.
      rewrite Hi, app_nil_r, count_spawned_app. simpl. lia.
Qed.

Lemma whenReady_spec s :
  PInv s ->
  wp whenReady (fun p s' => keeps s s' /\ _whenReady s' = Some p) (fun _ => False) s.
Proof.
  intros Hinv. unfold wp, whenReady, bind, gets.
  destruct (_whenReady s) as [p|] eqn:Hr; simpl.
  { split; [by apply keeps_refl|done]. }
  set (s' := set__whenReady _ _).
  assert (Hx : ext s s') by ext_solve.
  split; [split; [|done|done|done|qsolve]|done].
  destruct Hinv as [W1 W2 W3 W4 W5 W6 W7 W8 W9 W10 W11].
  split; simpl.
  - intros p [= <-]. rewrite length_app. simpl. lia.
  - intros p Hp. by apply (owned_ext s), W2.
  - rewrite Hr in W3. destruct (onceInitDone s) as [|t ts]; [by repeat constructor|].
    by inversion W3.
  - by apply (Forall_owned_ext s).
  - eapply Forall_impl; [exact W5|]. intros k (p & -> & Hown).
    exists p. split; [done|]. by apply (owned_ext s).
  - by apply (Forall_job_ok_ext s).
  - intros p st [Hold|[Hle Hnew]]%lookup_app_Some.
    + apply (promise_ok_ext s); [done|by apply lookup_lt_Some in Hold|by apply W7].
    + apply list_lookup_singleton_Some in Hnew as [_ <-].
      split; intros _; constructor.
  - intros Hne. by apply (barrier_open_ext s), W8.
  - apply W9.
  - intros e He Hpost. destruct (W10 e He Hpost).
    split; [by apply (initDone_ext s)|by apply (gate_passed_ext s)].
  - eapply Forall_impl; [exact W11|]. intros c [? ?].
    split; [by apply (owned_ext s)|by apply (gate_passed_ext s)].
Qed.

Lemma emit_post_spec s nonce port :
  PInv s -> initDone_observed s -> gate_passed s ->
  wp (emit (EPostMessage nonce port)) (fun _ s' => keeps s s') (fun _ => False) s.
Proof.
  intros Hinv Hd Hg. unfold wp, emit, modify.
  set (s' := set_log _ _).
  assert (Hx : ext s s') by ext_solve.
  split; [|done|done|done|qsolve].
  pinv_step s Hinv Hx; auto.
  - exact (pinv_released _ Hinv).
  - intros e _ _. right. split; [by apply (initDone_ext s)|by apply (gate_passed_ext s)].
Qed.

Lemma trace_spec s msg :
  PInv s ->
  wp (trace msg) (fun _ s' => keeps s s' /\ ETrace msg ∈ log s') (fun _ => False) s.
Proof.
  intros Hinv. unfold wp, trace, emit, modify.
  set (s' := set_log _ _).
  assert (Hx : ext s s') by ext_solve.
  split; [|simpl; apply elem_of_app; right; by left].
  split; [|done|done|done|qsolve].
  pinv_step s Hinv Hx; auto.
  - exact (pinv_released _ Hinv).
  - intros e [He|He]%elem_of_app Hpost; [by left|].
    apply list_elem_of_singleton in He as ->. done.
Qed.

Lemma new_BrowserWindow_spec s color :
  PInv s ->
  wp (new_BrowserWindow color)
     (fun wid s' => PInv s' /\ ext s s' /\ cnt s' = S (cnt s) /\
                    accessed s' = accessed s /\ wid = length (windows s) /\
                    creations s' = S (creations s) /\ microtasks s' = microtasks s)
     (fun _ => False) s.
Proof.
  intros Hinv. unfold wp, new_BrowserWindow, bind, gets, modify, emit, ret; simpl.
  set (s' := set_log _ _).
  assert (Hx : ext s s') by ext_solve.
  split; [|split; [done|split; [|split; [done|split; [done|split; [|done]]]]]].
  - pinv_step s Hinv Hx; auto.
    + exact (pinv_released _ Hinv).
    + intros e [Hold|Hnew]%elem_of_app Hpost; [by left|].
      apply list_elem_of_singleton in Hnew as ->. done.
  - unfold cnt, pending_bodies, creations; simpl. rewrite length_app. simpl. lia.
  - unfold creations; simpl. rewrite length_app. simpl. lia.
Qed.

Lemma listen_ipcReady_spec s q :
  PInv s -> owned s q -> barrier_open s ->
  wp (modify (fun s => set_onceIpcReady (onceIpcReady s ++ [q]) s))
     (fun _ s' => keeps s s') (fun _ => False) s.
Proof.
  intros Hinv Hown Hopen. unfold wp, modify.
  set (s' := set_onceIpcReady _ _).
  assert (Hx : ext s s') by ext_solve.
  split; [|done|done|done|qsolve].
  pinv_step s Hinv Hx; auto.
  - intros t [Hold|Hnew]%elem_of_app; [by left|right].
    apply list_elem_of_singleton in Hnew as ->. done.
  - exact (pinv_released _ Hinv).
Qed.

Lemma clear_onceIpcReady_spec s :
  PInv s ->
  wp (modify (set_onceIpcReady [])) (fun _ s' => keeps s s') (fun _ => False) s.
Proof.
  intros Hinv. unfold wp, modify.
  set (s' := set_onceIpcReady _ _).
  assert (Hx : ext s s') by ext_solve.
  split; [|done|done|done|qsolve].
  pinv_step s Hinv Hx; auto.
  - intros t Ht. by apply elem_of_nil in Ht.
  - exact (pinv_released _ Hinv).
Qed.

Lemma clear_onceInitDone_spec s :
  PInv s ->
  wp (modify (set_onceInitDone [])) (fun _ s' => keeps s s') (fun _ => False) s.
Proof.
  intros Hinv. unfold wp, modify.
  set (s' := set_onceInitDone _ _).
  assert (Hx : ext s s') by ext_solve.
  split; [|done|done|done|qsolve].
  pinv_step s Hinv Hx; auto.
  - intros t Ht. by apply elem_of_nil in Ht.
  - exact (pinv_released _ Hinv).
Qed.
(** ** The methods keep the invariant *)

(** Window bookkeeping does not touch the promise heap. *)
Ltac framed_tac :=
  repeat first
    [ apply framed_ret | apply framed_gets | apply framed_throw
    | apply framed_update_window
    | apply framed_emit; by simpl
    | apply framed_modify; intros ?; split; simpl;
        first [done | by (exists []; rewrite app_nil_r)]
    | apply framed_try_catch; [|intros ?]
    | apply framed_bind; [|intros ?]
    | match goal with
      | |- framed (match ?x with _ => _ end) => destruct x
      | |- framed (if ?x then _ else _) => destruct x
      end ].

Lemma framed_webContents_isDestroyed wid : framed (webContents_isDestroyed wid).
Proof. unfold webContents_isDestroyed. framed_tac. Qed.

Lemma framed_isVisible wid : framed (isVisible wid).
Proof. unfold isVisible. framed_tac. Qed.

Lemma framed_hide wid : framed (hide wid).
Proof. unfold hide. framed_tac. Qed.

Lemma framed_resume c : framed (resume c).
Proof. unfold resume. framed_tac. Qed.

Lemma framed_toggle_resumed c : framed (toggle_resumed c).
Proof.
  unfold toggle_resumed. apply framed_bind; [apply framed_resume|intros _].
  apply framed_bind; [apply framed_gets|intros [wid|]]; [|apply framed_ret].
  apply framed_bind; [apply framed_isVisible|intros v].
  apply framed_bind; [|intros _; apply framed_ret].
  destruct v; unfold closeDevTools, hide, show, openDevTools; framed_tac.
Qed.

Lemma framed_whenIpcReady_signalled c : framed (whenIpcReady_signalled c).
Proof.
  unfold whenIpcReady_signalled.
  apply framed_bind; [apply framed_resume|intros _]. apply framed_ret.
Qed.

Lemma framed_windowCloseListener_body : framed windowCloseListener_body.
Proof.
  unfold windowCloseListener_body, trace.
  apply framed_bind; [apply framed_emit; by simpl|intros _].
  apply framed_bind; [apply framed_gets|intros [wid|]]; [|apply framed_ret].
  apply framed_bind; [apply framed_isVisible|intros []];
    [apply framed_hide|apply framed_ret].
Qed.

Lemma framed_run_closeListeners ls : framed (run_closeListeners ls).
Proof.
  induction ls as [|[] ls IH]; simpl; [apply framed_ret|].
  apply framed_bind; [apply framed_windowCloseListener_body|by intros _].
Qed.

Lemma framed_emit_close wid : framed (emit_close wid).
Proof.
  unfold emit_close. apply framed_bind; [apply framed_gets|intros [bw|]];
    [|apply framed_ret].
  destruct (bw_closeListeners bw);
    [apply framed_update_window|apply framed_run_closeListeners].
Qed.

Lemma framed_onWillShutdown_timeout wid throws : framed (onWillShutdown_timeout wid throws).
Proof.
  unfold onWillShutdown_timeout, BrowserWindow_close.
  apply framed_bind; [|intros _; framed_tac].
  apply framed_try_catch; [|intros _; apply framed_ret].
  apply framed_bind; [apply framed_emit; by simpl|intros _].
  destruct throws; [apply framed_throw|apply framed_emit_close].
Qed.

Lemma framed_onWillShutdown : framed onWillShutdown.
Proof.
  unfold onWillShutdown.
  apply framed_bind; [apply framed_gets|intros [wid|]]; [|apply framed_ret].
  apply framed_bind; [apply framed_webContents_isDestroyed|intros d].
  apply framed_bind; [destruct d; unfold webContents_send; framed_tac|intros _].
  apply framed_bind; [apply framed_gets|intros l].
  apply framed_bind; [|intros _; unfold setTimeout; framed_tac].
  destruct l; [unfold removeListener_close; framed_tac|apply framed_ret].
Qed.

Lemma framed_registerWindowListeners : framed registerWindowListeners.
Proof. unfold registerWindowListeners, on_close. framed_tac. Qed.

Lemma framed_loadURL wid config : framed (loadURL wid config).
Proof. unfold loadURL. framed_tac. Qed.
Lemma keeps_owned s s' p : keeps s s' -> owned s p -> owned s' p.
Proof. intros [_ Hx _ _ _]. by apply owned_ext. Qed.

Lemma keeps_gate s s' : keeps s s' -> gate_passed s -> gate_passed s'.
Proof. intros [_ Hx _ _ _]. by apply gate_passed_ext. Qed.

Lemma keeps_initDone s s' : keeps s s' -> initDone_observed s -> initDone_observed s'.
Proof. intros [_ Hx _ _ _]. by apply initDone_ext. Qed.

Lemma keeps_open s s' : keeps s s' -> barrier_open s -> barrier_open s'.
Proof. intros [_ Hx _ _ _]. by apply barrier_open_ext. Qed.

Lemma keeps_whenReady s s' t : keeps s s' -> _whenReady s = Some t -> _whenReady s' = Some t.
Proof. intros [_ Hx _ _ _]. by apply whenReady_ext. Qed.

Ltac kp :=
  eauto 6 using keeps_owned, keeps_gate, keeps_initDone, keeps_open,
                keeps_whenReady, keeps_trans, keeps_inv.

(** Sequencing under [keeps]: [s0] is where the method started, [s] where
    the call [m] starts. *)
Lemma wp_keeps_bind {A B} (m : M A) (k : A -> M B) s0 s
    (R : A -> State -> Prop) (Q : B -> State -> Prop) :
  keeps s0 s ->
  wp m (fun a s1 => keeps s s1 /\ R a s1) (keeps s) s ->
  (forall a s1, keeps s s1 -> keeps s0 s1 -> R a s1 -> wp (k a) Q (keeps s0) s1) ->
  wp (bind m k) Q (keeps s0) s.
Proof.
  intros H0 Hm Hk. apply wp_bind. eapply wp_mono; [exact Hm| |]; simpl.
  - intros a s1 [H1 HR]. apply Hk; [done| |done]. by eapply keeps_trans.
  - intros s1 H1. by eapply keeps_trans.
Qed.

Lemma wp_keeps_seq {A B} (m : M A) (k : A -> M B) s0 s (Q : B -> State -> Prop) :
  keeps s0 s ->
  wp m (fun _ s1 => keeps s s1) (keeps s) s ->
  (forall a s1, keeps s s1 -> keeps s0 s1 -> wp (k a) Q (keeps s0) s1) ->
  wp (bind m k) Q (keeps s0) s.
Proof.
  intros H0 Hm Hk. apply wp_bind. eapply wp_mono; [exact Hm| |]; simpl.
  - intros a s1 H1. apply Hk; [done|]. by eapply keeps_trans.
  - intros s1 H1. by eapply keeps_trans.
Qed.

(** The last call of a method. *)
Lemma wp_keeps_last {A} (m : M A) s0 s :
  keeps s0 s ->
  wp m (fun _ s1 => keeps s s1) (keeps s) s ->
  wp m (fun _ s1 => keeps s0 s1) (keeps s0) s.
Proof.
  intros H0 Hm. eapply wp_mono; [exact Hm| |]; simpl; intros; by eapply keeps_trans.
Qed.

(** A call that cannot throw, weakened to any exceptional postcondition. *)
Lemma wp_total {A} (m : M A) (Q : A -> State -> Prop) (E : State -> Prop) s :
  wp m Q (fun _ => False) s -> wp m Q E s.
Proof. intros H. eapply wp_mono; [exact H|done|done]. Qed.

Lemma spawn_spec s env :
  PInv s -> wp (spawn env) (fun _ s' => keeps s s' /\ barrier_open s') (keeps s) s.
Proof.
  intros Hinv. unfold spawn.
  eapply wp_keeps_seq; [by apply keeps_refl| |].
  - apply framed_keeps; [|done]. apply framed_modify. intros s0. split; simpl; try done.
    exists []. by rewrite app_nil_r.
  - intros _ s1 H1 _. apply wp_total.
    eapply wp_mono; [apply open_whenSpawnedBarrier_spec, H1| |done].
    simpl. intros _ s2 [H2 Ho]. split; [kp|done].
Qed.

Lemma connect_spec s :
  PInv s -> wp connect (fun p s' => keeps s s' /\ owned s' p) (keeps s) s.
Proof.
  intros Hinv. unfold connect.
  eapply wp_keeps_bind; [by apply keeps_refl|apply wp_total, newPromise_spec, Hinv|].
  intros p s1 H1 _ [Hp _].
  eapply wp_keeps_bind; [done|apply wp_total, whenIpcReady_spec, H1|].
  intros q s2 H2 H02 [Hq _].
  eapply wp_keeps_seq; [done| |].
  - apply wp_total, await_spec; [kp|]. left. split; [done|]. simpl. kp.
  - intros _ s3 H3 H03. apply wp_ret. split; [done|]. kp.
Qed.

Lemma toggle_spec s :
  PInv s -> wp toggle (fun p s' => keeps s s' /\ owned s' p) (keeps s) s.
Proof.
  intros Hinv. unfold toggle.
  eapply wp_keeps_bind; [by apply keeps_refl|apply wp_total, newPromise_spec, Hinv|].
  intros p s1 H1 _ [Hp _].
  eapply wp_keeps_bind; [done|apply wp_total, whenIpcReady_spec, H1|].
  intros q s2 H2 H02 [Hq _].
  eapply wp_keeps_seq; [done| |].
  - apply wp_total, await_spec; [kp|]. left. split; [done|]. simpl. kp.
  - intros _ s3 H3 H03. apply wp_ret. split; [done|]. kp.
Qed.

Lemma onCreateSharedProcessMessageChannel_spec s nonce :
  PInv s ->
  wp (onCreateSharedProcessMessageChannel nonce) (fun _ s' => keeps s s') (keeps s) s.
Proof.
  intros Hinv. unfold onCreateSharedProcessMessageChannel.
  eapply wp_keeps_bind; [by apply keeps_refl|apply wp_total, trace_spec, Hinv|].
  intros _ s1 H1 _ _.
  eapply wp_keeps_bind; [done|apply wp_total, whenReady_spec, H1|].
  intros p s2 H2 H02 Hp.
  apply wp_keeps_last; [done|]. apply wp_total, await_spec; [kp|by right].
Qed.

Lemma channel_ready_spec s nonce c :
  PInv s -> initDone_observed s ->
  wp (channel_ready nonce c) (fun _ s' => keeps s s') (keeps s) s.
Proof.
  intros Hinv Hd. unfold channel_ready. destruct c as [v|e]; [|by apply wp_ret, keeps_refl].
  eapply wp_keeps_bind; [by apply keeps_refl|apply connect_spec, Hinv|].
  intros p s1 H1 _ Hp.
  apply wp_keeps_last; [done|]. apply wp_total, await_spec; [kp|].
  left. split; [done|]. simpl. kp.
Qed.

Lemma channel_port_spec s nonce c :
  PInv s -> initDone_observed s -> gate_passed s ->
  wp (channel_port nonce c) (fun _ s' => keeps s s') (keeps s) s.
Proof.
  intros Hinv Hd Hg. unfold channel_port.
  destruct c as [[| |port|]|e]; try by apply wp_ret, keeps_refl.
  by apply wp_total, emit_post_spec.
Qed.

Lemma fire_ipcReady_spec s ps :
  PInv s -> barrier_open s -> Forall (owned s) ps ->
  wp (fire_once ipcReadyMsg ps) (fun _ s' => keeps s s') (keeps s) s.
Proof.
  revert s. induction ps as [|p ps IH]; intros s Hinv Ho Hps; simpl.
  { by apply wp_ret, keeps_refl. }
  apply Forall_cons in Hps as [Hp Hps].
  eapply wp_keeps_bind; [by apply keeps_refl|apply wp_total, trace_spec, Hinv|].
  intros [] s1 H1 _ Hmsg. simpl in Hmsg.
  assert (Hg : gate_passed s1) by (split; [kp|done]).
  eapply wp_keeps_seq; [done| |].
  - apply wp_total, settle_spec; [kp|]. left. split; [kp|done].
  - intros _ s2 H2 H02. apply wp_keeps_last; [done|]. apply IH; [kp|kp|].
    eapply Forall_impl; [exact Hps|]. intros t Ht. kp.
Qed.

Lemma fire_initDone_spec s ps :
  PInv s -> Forall (fun t => _whenReady s = Some t) ps ->
  wp (fire_once overallReadyMsg ps) (fun _ s' => keeps s s') (keeps s) s.
Proof.
  revert s. induction ps as [|p ps IH]; intros s Hinv Hps; simpl.
  { by apply wp_ret, keeps_refl. }
  apply Forall_cons in Hps as [Hp Hps].
  eapply wp_keeps_bind; [by apply keeps_refl|apply wp_total, trace_spec, Hinv|].
  intros [] s1 H1 _ Hmsg. simpl in Hmsg.
  eapply wp_keeps_seq; [done| |].
  - apply wp_total, settle_spec; [kp|]. right. split; [kp|done].
  - intros _ s2 H2 H02. apply wp_keeps_last; [done|]. apply IH; [kp|].
    eapply Forall_impl; [exact Hps|]. intros t Ht. kp.
Qed.

Lemma on_ipcReady_spec s :
  PInv s -> wp on_ipcReady (fun _ s' => keeps s s') (keeps s) s.
Proof.
  intros Hinv. unfold on_ipcReady. apply wp_bind, wp_gets.
  eapply wp_keeps_seq; [by apply keeps_refl|by apply wp_total, clear_onceIpcReady_spec|].
  intros _ s1 H1 _.
  destruct (onceIpcReady s) as [|p ps] eqn:Hps.
  { by apply wp_ret. }
  assert (Ho : barrier_open s) by (apply (pinv_listening _ Hinv); by rewrite Hps).
  pose proof (pinv_onceIpcReady _ Hinv) as Hown. rewrite Hps in Hown.
  apply wp_keeps_last; [done|]. apply fire_ipcReady_spec; [kp|kp|].
  eapply Forall_impl; [exact Hown|]. intros t Ht. kp.
Qed.

Lemma on_initDone_spec s :
  PInv s -> wp on_initDone (fun _ s' => keeps s s') (keeps s) s.
Proof.
  intros Hinv. unfold on_initDone. apply wp_bind, wp_gets.
  pose proof (pinv_onceInitDone _ Hinv) as Hps.
  eapply wp_keeps_seq; [by apply keeps_refl|by apply wp_total, clear_onceInitDone_spec|].
  intros _ s1 H1 _.
  apply wp_keeps_last; [done|]. apply fire_initDone_spec; [kp|].
  eapply Forall_impl; [exact Hps|]. intros t Ht. kp.
Qed.

Lemma wp_conj {A} (m : M A) (Q1 Q2 : A -> State -> Prop) (E1 E2 : State -> Prop) s :
  wp m Q1 E1 s -> wp m Q2 E2 s ->
  wp m (fun a s' => Q1 a s' /\ Q2 a s') (fun s' => E1 s' /\ E2 s') s.
Proof. unfold wp. by destruct (m s) as [[a|e] s']. Qed.

(** *** Channels being established *)

Lemma add_channel_spec s t port :
  PInv s -> owned s t -> gate_passed s ->
  wp (modify (fun s => set_channels (channels s ++ [(t, port)]) s))
     (fun _ s' => keeps s s') (fun _ => False) s.
Proof.
  intros Hinv Ht Hg. unfold wp, modify.
  set (s' := set_channels _ _).
  assert (Hx : ext s s') by ext_solve.
  split; [|done|done|done|qsolve].
  pinv_step s Hinv Hx; auto.
  - exact (pinv_released _ Hinv).
  - intros c [Hold|Hnew]%elem_of_app; [by left|right].
    by apply list_elem_of_singleton in Hnew as ->.
Qed.

Lemma drop_channel_spec s i :
  PInv s ->
  wp (modify (set_channels (delete i (channels s)))) (fun _ s' => keeps s s')
     (fun _ => False) s.
Proof.
  intros Hinv. unfold wp, modify.
  set (s' := set_channels _ _).
  assert (Hx : ext s s') by ext_solve.
  split; [|done|done|done|qsolve].
  pinv_step s Hinv Hx; auto.
  - exact (pinv_released _ Hinv).
  - intros c Hc. left. by apply list_elem_of_delete_inv in Hc.
Qed.

Lemma connectMessagePort_spec s wid :
  PInv s -> gate_passed s ->
  wp (connectMessagePort wid) (fun t s' => keeps s s' /\ owned s' t) (keeps s) s.
Proof.
  intros Hinv Hg. unfold connectMessagePort. apply wp_bind, wp_gets.
  eapply wp_keeps_seq; [by apply keeps_refl| |].
  { unfold wp, modify. apply pframe_keeps; [|done]. split; simpl; try done.
    - exists []. by rewrite app_nil_r.
    - lia. }
  intros _ s1 H1 _.
  eapply wp_keeps_seq; [done| |].
  { apply framed_keeps; [|kp]. unfold webContents_send. by apply framed_emit. }
  intros _ s2 H2 H02.
  eapply wp_keeps_bind; [done|apply wp_total, newPromise_spec; kp|].
  intros t s3 H3 H03 [Ht _].
  eapply wp_keeps_seq; [done|apply wp_total, add_channel_spec; kp|].
  intros _ s4 H4 H04. apply wp_ret. split; [done|]. kp.
Qed.

(** The transport's report settles the promise of the channel. *)
Lemma on_channelEstablished_spec s i :
  PInv s -> wp (on_channelEstablished i) (fun _ s' => keeps s s') (keeps s) s.
Proof.
  intros Hinv. unfold on_channelEstablished. apply wp_bind, wp_gets.
  destruct (channels s !! i) as [[t port]|] eqn:Hi; [|by apply wp_ret, keeps_refl].
  pose proof (pinv_channels _ Hinv) as Hc. rewrite Forall_forall in Hc.
  destruct (Hc (t, port)) as [Ht Hg]; [by eapply list_elem_of_lookup_2|].
  eapply wp_keeps_seq; [by apply keeps_refl|by apply wp_total, drop_channel_spec|].
  intros _ s1 H1 _. apply wp_keeps_last; [done|].
  apply wp_total, settle_spec; [kp|]. left. split; kp.
Qed.

(** *** Resumed [async] calls *)

Lemma enqueue_thenable_spec s p t :
  PInv s -> owned s p -> owned s t -> gate_passed s ->
  wp (enqueue [(K_resolveThenable p t, Normal VUndefined)])
     (fun _ s' => keeps s s') (fun _ => False) s.
Proof.
  intros Hinv Hp Ht Hg. unfold wp, enqueue, modify.
  set (s' := set_microtasks _ _).
  assert (Hx : ext s s') by ext_solve.
  split; [|done| |done|qsolve].
  - pinv_step s Hinv Hx; auto.
    + exact (pinv_released _ Hinv).
    + intros j [Hold|Hnew]%elem_of_app; [by left|right].
      by apply list_elem_of_singleton in Hnew as ->.
  - unfold cnt, pending_bodies, creations, accessed. simpl.
    rewrite map_app, count_spawned_app. simpl. destruct (_whenIpcReady s); lia.
Qed.

Lemma resolve_spec s p v :
  PInv s -> owned s p -> gate_passed s -> value_ok s (Some v) ->
  wp (resolve p v) (fun _ s' => keeps s s') (fun _ => False) s.
Proof.
  intros Hinv Hp Hg Hv. destruct v as [|b|port|t]; simpl;
    try (apply settle_spec; [done|by left]).
  apply enqueue_thenable_spec; auto.
Qed.

(** A resumed [async] call: its body keeps the invariant, and so does
    resolving or rejecting its promise with the outcome. *)
Lemma async_segment_keeps s p body :
  PInv s -> owned s p -> gate_passed s ->
  wp body (fun r s' => keeps s s' /\ value_ok s' r) (keeps s) s ->
  wp (async_segment p body) (fun _ s' => keeps s s') (keeps s) s.
Proof.
  intros Hinv Hown Hg Hb. unfold wp, async_segment. unfold wp in Hb.
  destruct (body s) as [[[v|]|e] s1].
  - destruct Hb as [Hb Hv].
    pose proof (resolve_spec s1 p v (keeps_inv _ _ Hb)) as Hs.
    unfold wp in Hs. destruct (resolve p v s1) as [[[]|e] s2].
    + eapply keeps_trans; [done|]. apply Hs; kp.
    + exfalso. apply Hs; kp.
  - by destruct Hb.
  - pose proof (settle_spec s1 p (Throw e) (keeps_inv _ _ Hb)) as Hs.
    unfold wp in Hs. destruct (settle p (Throw e) s1) as [[[]|e'] s2].
    + eapply keeps_trans; [done|]. apply Hs. left. split; kp.
    + exfalso. apply Hs. left. split; kp.
Qed.

(** A resumed [async] call whose body stays clear of the promise heap and
    returns no promise. *)
Lemma async_segment_spec s p body :
  framed body -> wp body (fun r _ => value_ok s r) (fun _ => True) s ->
  PInv s -> owned s p -> gate_passed s ->
  wp (async_segment p body) (fun _ s' => keeps s s') (keeps s) s.
Proof.
  intros Hb Hv Hinv Hown Hg. apply async_segment_keeps; [done|done|done|].
  eapply wp_mono; [exact (wp_conj _ _ _ _ _ _ (framed_keeps _ s Hb Hinv) Hv)| |]; simpl.
  - intros r s1 [H1 H2]. split; [done|]. intros t Ht. kp.
  - by intros s1 [H1 _].
Qed.

Lemma whenIpcReady_signalled_no_promise c s :
  wp (whenIpcReady_signalled c) (fun r _ => value_ok s r) (fun _ => True) s.
Proof. unfold wp, whenIpcReady_signalled, resume, bind, ret, throw. by destruct c. Qed.

Lemma toggle_resumed_no_promise c s :
  wp (toggle_resumed c) (fun r _ => value_ok s r) (fun _ => True) s.
Proof.
  unfold wp, toggle_resumed, resume, isVisible, closeDevTools, hide, show, openDevTools,
    update_window, emit, bind, ret, gets, modify, throw.
  destruct c; [|done]. destruct (window s) as [wid|]; [|done]. simpl.
  by destruct (match windows s !! wid with Some b => bw_visible b | None => false end).
Qed.

Lemma connect_resumed_spec s c :
  PInv s -> gate_passed s ->
  wp (connect_resumed c) (fun r s' => keeps s s' /\ value_ok s' r) (keeps s) s.
Proof.
  intros Hinv Hg. unfold connect_resumed.
  apply wp_bind. destruct c as [v|e]; simpl; [apply wp_ret|by apply wp_throw, keeps_refl].
  apply wp_bind, wp_gets. destruct (window s) as [wid|]; [|by apply wp_throw, keeps_refl].
  apply wp_bind. unfold webContents_isDestroyed. apply wp_gets.
  destruct (match windows s !! wid with Some b => bw_destroyed b | None => true end);
    [by apply wp_throw, keeps_refl|].
  apply wp_bind. eapply wp_mono; [by apply connectMessagePort_spec| |done]. simpl.
  intros t s1 [H1 Ht]. apply wp_ret. split; [done|]. by intros t' [= <-].
Qed.
Lemma framed0_framed {A} (m : M A) : framed0 m -> framed m.
Proof. intros H s. eapply wp_mono; [apply H|done|done]. Qed.

Lemma framed0_ret {A} (a : A) : framed0 (ret a).
Proof. intros s. apply pframe_refl. Qed.

Lemma framed0_gets {A} (f : State -> A) : framed0 (gets f).
Proof. intros s. apply pframe_refl. Qed.

Lemma framed0_modify f : (forall s, pframe s (f s)) -> framed0 (modify f).
Proof. intros H s. apply H. Qed.

Lemma framed0_bind {A B} (m : M A) (k : A -> M B) :
  framed0 m -> (forall a, framed0 (k a)) -> framed0 (bind m k).
Proof.
  intros Hm Hk s. apply wp_bind. eapply wp_mono; [apply Hm| |done].
  intros a s' Hf. eapply wp_mono; [apply Hk| |done]; simpl.
  intros b s'' H. exact (pframe_trans _ _ _ Hf H).
Qed.

Lemma framed0_emit e : silent e -> framed0 (emit e).
Proof.
  intros He. apply framed0_modify. intros s. split; try done.
  exists [e]. split; [done|]. by constructor.
Qed.

Lemma framed0_update_window wid f : framed0 (update_window wid f).
Proof.
  apply framed0_modify. intros s. split; try done.
  - exists []. by rewrite app_nil_r.
  - simpl. by rewrite length_alter.
Qed.

Ltac framed0_tac :=
  repeat first
    [ apply framed0_ret | apply framed0_gets
    | apply framed0_update_window
    | apply framed0_emit; by simpl
    | apply framed0_modify; intros ?; split; simpl;
        first [done | by (exists []; rewrite app_nil_r)]
    | apply framed0_bind; [|intros ?]
    | match goal with
      | |- framed0 (match ?x with _ => _ end) => destruct x
      | |- framed0 (if ?x then _ else _) => destruct x
      end ].

Lemma framed0_registerWindowListeners : framed0 registerWindowListeners.
Proof. unfold registerWindowListeners, on_close. framed0_tac. Qed.

Lemma framed0_loadURL wid config : framed0 (loadURL wid config).
Proof. unfold loadURL. framed0_tac. Qed.

Lemma framed0_keeps {A} (m : M A) s :
  framed0 m -> PInv s -> wp m (fun _ => keeps s) (fun _ => False) s.
Proof.
  intros Hm Hinv. eapply wp_mono; [apply Hm| |done].
  simpl; intros; by apply pframe_keeps.
Qed.

(** [createWindow] is the one call that adds a window. *)
Lemma createWindow_spec s :
  PInv s ->
  wp createWindow
     (fun _ s' => PInv s' /\ ext s s' /\
                  cnt s' + accessed s = S (cnt s) + accessed s' /\
                  creations s' = S (creations s) /\
                  exists new, microtasks s' = microtasks s ++ new)
     (fun _ => False) s.
Proof.
  intros Hinv. unfold createWindow. apply wp_bind, wp_gets.
  apply wp_bind. eapply wp_mono; [by apply new_BrowserWindow_spec| |done].
  simpl. intros wid s1 (H1 & Hx1 & Hc1 & Ha1 & -> & Hw1 & Hq1).
  eapply wp_mono; [apply (framed0_keeps _ s1)| |done]; [|done|].
  - apply framed0_bind; [framed0_tac|intros _].
    apply framed0_bind; [framed0_tac|intros config]. apply framed0_loadURL.
  - simpl. intros _ s2 [H2 Hx2 Hb2 Hw2 (new & Hq2)].
    split; [done|]. split; [by eapply ext_trans|]. split; [lia|].
    split; [congruence|]. exists new. congruence.
Qed.

(** The body of [whenIpcReady] once the barrier has let it through: it
    creates the window, listens for ipc-ready and stops at its [await]. *)
Lemma whenIpcReady_spawned_spec s p v :
  PInv s -> owned s p -> barrier_open s ->
  wp (whenIpcReady_spawned p (Normal v))
     (fun r s' => r = None /\ PInv s' /\ ext s s' /\
                  cnt s' + accessed s = S (cnt s) + accessed s' /\
                  creations s' = S (creations s) /\
                  exists new, microtasks s' = microtasks s ++ new)
     (fun _ => False) s.
Proof.
  intros Hinv Hp Ho. unfold whenIpcReady_spawned, resume.
  apply wp_bind, wp_ret.
  apply wp_bind. eapply wp_mono; [by apply createWindow_spec| |done].
  simpl. intros _ s1 (H1 & Hx1 & Hb1 & Hw1 & n1 & Hq1).
  apply wp_bind. eapply wp_mono; [apply (framed0_keeps _ s1)| |done];
    [apply framed0_registerWindowListeners|done|].
  simpl. intros _ s2 H2.
  apply wp_bind. eapply wp_mono; [apply newPromise_spec; kp| |done].
  simpl. intros q s3 (H3 & Hq & _).
  assert (Hx3 : ext s s3).
  { eapply ext_trans; [exact Hx1|]. eapply ext_trans; apply keeps_ext; eassumption. }
  apply wp_bind. eapply wp_mono; [apply (listen_ipcReady_spec s3 q); [kp|done|]| |done].
  { by apply (barrier_open_ext s). }
  simpl. intros _ s4 H4.
  apply wp_bind. eapply wp_mono;
    [apply (await_spec s4 q (K_whenIpcReady_signalled p)); [kp|]| |done].
  { left. split; [kp|]. simpl. eapply keeps_owned; [exact H4|]. by apply (owned_ext s). }
  simpl. intros _ s5 H5. apply wp_ret. split; [done|]. split; [kp|].
  pose proof (keeps_trans _ _ _ (keeps_trans _ _ _ (keeps_trans _ _ _ H2 H3) H4) H5)
    as [_ Hx15 Hb15 Hw15 (n5 & Hq15)].
  split; [exact (ext_trans _ _ _ Hx1 Hx15)|]. split; [lia|]. split; [congruence|].
  exists (n1 ++ n5). by rewrite Hq15, Hq1, app_assoc.
Qed.

Lemma count_spawned_job (j : Job) (q : list Job) :
  count_spawned (map fst (j :: q)) =
  (if is_spawned j.1 then 1 else 0) + count_spawned (map fst q).
Proof. done. Qed.

(** Taking the first microtask off the queue. *)
Lemma pop_spec s j q :
  PInv s -> microtasks s = j :: q ->
  PInv (set_microtasks q s) /\ ext s (set_microtasks q s) /\ job_ok (set_microtasks q s) j /\
  cnt (set_microtasks q s) + (if is_spawned j.1 then 1 else 0) = cnt s /\
  accessed (set_microtasks q s) = accessed s.
Proof.
  intros Hinv Hq. set (s' := set_microtasks q s).
  assert (Hx : ext s s') by ext_solve.
  pose proof (pinv_microtasks _ Hinv) as Hm. rewrite Hq in Hm.
  apply Forall_cons in Hm as [Hj Hm].
  split; [|split; [done|split; [by apply (job_ok_ext s)|split; [|done]]]].
  - pinv_step s Hinv Hx; auto.
    + exact (pinv_released _ Hinv).
    + intros j' Hj'. left. rewrite Hq. by right.
  - unfold cnt, pending_bodies, creations. simpl. rewrite Hq, count_spawned_job. lia.
Qed.

(** A segment that stops at an [await] settles nothing. *)
Lemma async_segment_suspended p (body : M (option Value)) (Q : State -> Prop) s :
  wp body (fun r s' => r = None /\ Q s') (fun _ => False) s ->
  wp (async_segment p body) (fun _ => Q) (fun _ => False) s.
Proof.
  unfold wp, async_segment. destruct (body s) as [[[v|]|e] s1]; [|tauto|done].
  by intros [? _].
Qed.

Lemma run_job_spawned_spec s p v :
  PInv s -> owned s p -> barrier_open s ->
  wp (run_job (K_whenIpcReady_spawned p, Normal v))
     (fun _ s' => PInv s' /\ ext s s' /\
                  cnt s' + accessed s = S (cnt s) + accessed s' /\
                  creations s' = S (creations s) /\
                  exists new, microtasks s' = microtasks s ++ new)
     (fun _ => False) s.
Proof.
  intros Hinv Hp Ho. apply async_segment_suspended.
  by apply whenIpcReady_spawned_spec.
Qed.

Lemma run_job_other_spec s j :
  PInv s -> job_ok s j -> is_spawned j.1 = false ->
  wp (run_job j) (fun _ => keeps s) (keeps s) s.
Proof.
  intros Hinv Hj Hns. destruct j as [k c]. unfold job_ok in Hj.
  destruct k as [p|p|p|p|nonce|nonce|p t|p]; try done; unfold run_job; cbn [fst] in Hj.
  - destruct Hj as [Hp Hg].
    apply async_segment_spec;
      auto using framed_whenIpcReady_signalled, whenIpcReady_signalled_no_promise.
  - destruct Hj as [Hp Hg].
    apply async_segment_keeps; auto using connect_resumed_spec.
  - destruct Hj as [Hp Hg].
    apply async_segment_spec; auto using framed_toggle_resumed, toggle_resumed_no_promise.
  - by apply channel_ready_spec.
  - destruct Hj as [Hd Hg]. by apply channel_port_spec.
  - destruct Hj as (Hp & Ht & Hg). apply wp_total, await_spec; [done|]. by left.
  - destruct Hj as [Hp Hg]. apply wp_total, settle_spec; [done|]. by left.
Qed.
Lemma init_Inv mid env sv : Inv (init mid env sv).
Proof.
  split; [|done]. split; simpl; try done; try (intros; by constructor).
  intros e He. by apply elem_of_nil in He.
Qed.

Lemma accessed_le s : accessed s <= 1.
Proof. unfold accessed. destruct (_whenIpcReady s); lia. Qed.

Lemma step_microtask_cons s j q :
  microtasks s = j :: q -> step E_microtask s = exec (run_job j) (set_microtasks q s).
Proof. intros Hq. simpl. by rewrite Hq. Qed.

(** Running the first microtask: the rest of the queue keeps its order, and
    a body of [whenIpcReady] creates the window. *)
Lemma microtask_step s j q :
  Inv s -> microtasks s = j :: q ->
  Inv (step E_microtask s) /\ ext s (step E_microtask s) /\
  creations s <= creations (step E_microtask s) /\
  (exists new, microtasks (step E_microtask s) = q ++ new) /\
  (is_spawned j.1 = true -> creations (step E_microtask s) = 1).
Proof.
  intros [Hinv Hc] Hq. rewrite (step_microtask_cons s j q Hq).
  destruct (pop_spec s j q Hinv Hq) as (H0 & Hx0 & Hj & Hc0 & Ha0).
  assert (Hw0 : creations (set_microtasks q s) = creations s) by done.
  assert (Hq0 : microtasks (set_microtasks q s) = q) by done.
  pose proof (accessed_le s) as Hle.
  revert H0 Hx0 Hj Hc0 Ha0 Hw0 Hq0. generalize (set_microtasks q s). intros s0.
  intros H0 Hx0 Hj Hc0 Ha0 Hw0 Hq0.
  destruct (is_spawned j.1) eqn:Hsp.
  - destruct j as [[p| | | | | | |] c]; try done.
    destruct Hj as (Hp & Ho & v & Hv). simpl in Hv. subst c.
    pose proof (run_job_spawned_spec _ p v H0 Hp Ho) as Hr.
    apply wp_total with
      (E := fun s' => PInv s' /\ ext s0 s' /\
              cnt s' + accessed s0 = S (cnt s0) + accessed s' /\
              creations s' = S (creations s0) /\
              exists new, microtasks s' = microtasks s0 ++ new) in Hr.
    apply wp_exec in Hr. revert Hr.
    generalize (exec (run_job (K_whenIpcReady_spawned p, Normal v)) s0). intros s1.
    intros (H1 & Hx1 & Hb1 & Hw1 & Hq1). rewrite Hq0 in Hq1.
    assert (H0w : creations s = 0).
    { unfold cnt in Hc, Hc0. lia. }
    split; [split; [done|lia]|]. split; [by eapply ext_trans|].
    split; [lia|]. split; [done|]. intros _. lia.
  - pose proof (run_job_other_spec _ j H0 Hj Hsp) as Hr.
    apply wp_exec in Hr. revert Hr. generalize (exec (run_job j) s0). intros s1.
    intros [H1 Hx1 Hb1 Hw1 Hq1]. rewrite Hq0 in Hq1.
    split; [split; [done|lia]|]. split; [by eapply ext_trans|].
    split; [lia|]. split; [done|]. done.
Qed.

(** Every event keeps the invariant, extends the state and closes no
    window object. *)
Lemma step_Inv ev s :
  Inv s ->
  Inv (step ev s) /\ ext s (step ev s) /\ creations s <= creations (step ev s).
Proof.
  intros [Hinv Hc].
  assert (Hk : forall {A} (m : M A),
    wp m (fun _ => keeps s) (keeps s) s ->
    Inv (exec m s) /\ ext s (exec m s) /\ creations s <= creations (exec m s)).
  { intros A m Hm. apply wp_exec in Hm. revert Hm. generalize (exec m s).
    intros s1 [H1 Hx Hb Hw _].
    split; [split; [done|lia]|]. split; [done|lia]. }
  destruct ev as [env| | | |nonce|i| | | | |throws|wid|wid].
  - apply Hk. eapply wp_mono; [by apply spawn_spec| |done]. simpl; tauto.
  - apply Hk. eapply wp_mono; [by apply connect_spec| |done]. simpl; tauto.
  - apply Hk. eapply wp_mono; [by apply toggle_spec| |done]. simpl; tauto.
  - apply Hk. eapply wp_mono; [by apply wp_total, whenReady_spec| |done]. simpl; tauto.
  - apply Hk. by apply onCreateSharedProcessMessageChannel_spec.
  - apply Hk. by apply on_channelEstablished_spec.
  - apply Hk. by apply on_ipcReady_spec.
  - apply Hk. by apply on_initDone_spec.
  - apply Hk. apply framed_keeps; [apply framed_onWillShutdown|done].
  - destruct (microtasks s) as [|j q] eqn:Hq.
    { simpl. rewrite Hq. split; [by split|]. split; [apply ext_refl|done]. }
    destruct (microtask_step s j q (Build_Inv _ Hinv Hc) Hq) as (H1 & H2 & H3 & _).
    done.
  - simpl. destruct (timers s) as [|[wid] ts] eqn:Ht.
    { split; [by split|]. split; [apply ext_refl|done]. }
    assert (Hf : pframe s (set_timers ts s)).
    { split; try done. exists []. by rewrite app_nil_r. }
    apply pframe_keeps in Hf; [|done].
    pose proof (framed_keeps _ _ (framed_onWillShutdown_timeout wid throws) (keeps_inv _ _ Hf)) as Hm.
    apply wp_exec in Hm. pose proof (keeps_trans _ _ _ Hf Hm) as Hfm. revert Hfm.
    generalize (exec (onWillShutdown_timeout wid throws) (set_timers ts s)).
    intros s1 [H1 Hx Hb Hw _].
    split; [split; [done|lia]|]. split; [done|lia].
  - apply Hk. apply framed_keeps; [apply framed_emit_close|done].
  - apply Hk. apply framed_keeps; [apply framed_update_window|done].
Qed.

Lemma reachable_Inv s : reachable s -> Inv s.
Proof.
  apply reachable_ind; [apply init_Inv|].
  intros ev s' _ H. by apply step_Inv.
Qed.

Lemma run_Inv evs s :
  Inv s -> Inv (run evs s) /\ ext s (run evs s) /\ creations s <= creations (run evs s).
Proof.
  revert s. induction evs as [|ev evs IH]; intros s Hs; simpl.
  { split; [done|]. split; [apply ext_refl|done]. }
  destruct (step_Inv ev s Hs) as (H1 & Hx1 & Hw1).
  destruct (IH _ H1) as (H2 & Hx2 & Hw2).
  split; [done|]. split; [by eapply ext_trans|lia].
Qed.

(** ** At most one window *)

Lemma creations_le s : Inv s -> creations s <= 1.
Proof. intros [_ Hc]. pose proof (accessed_le s). unfold cnt in Hc. lia. Qed.

Lemma creations_stay evs s : Inv s -> creations s = 1 -> creations (run evs s) = 1.
Proof.
  intros Hs H1. destruct (run_Inv evs s Hs) as (H2 & _ & Hle).
  pose proof (creations_le _ H2). lia.
Qed.

Lemma count_spawned_pos (l : list Job) :
  0 < count_spawned (map fst l) ->
  exists n j, l !! n = Some j /\ is_spawned j.1 = true.
Proof.
  induction l as [|j l IH]; simpl; [lia|].
  destruct (is_spawned j.1) eqn:Hj.
  - intros _. by exists 0, j.
  - intros H. destruct IH as (n & j' & Hn & Hj'); [lia|]. by exists (S n), j'.
Qed.

(** A body of [whenIpcReady] at position [n] of the queue has created the
    window after [n + 1] microtasks. *)
Lemma spawned_runs n s j :
  Inv s -> microtasks s !! n = Some j -> is_spawned j.1 = true ->
  creations (run (repeat E_microtask (S n)) s) = 1.
Proof.
  revert s. induction n as [|n IH]; intros s Hs Hn Hj.
  - destruct (microtasks s) as [|j' q] eqn:Hq; [done|]. injection Hn as ->.
    destruct (microtask_step s j q Hs Hq) as (_ & _ & _ & _ & H).
    exact (H Hj).
  - destruct (microtasks s) as [|j' q] eqn:Hq; [done|].
    destruct (microtask_step s j' q Hs Hq) as (H1 & _ & _ & (new & Hnew) & _).
    change (run (repeat E_microtask (S (S n))) s)
      with (run (repeat E_microtask (S n)) (step E_microtask s)).
    apply IH; [done| |done]. rewrite Hnew. by apply lookup_app_l_Some.
Qed.

(** Once the barrier is open, a started [whenIpcReady] has created its
    window as soon as the microtasks now queued have run. *)
Lemma created_after_queue s :
  Inv s -> barrier_open s -> _whenIpcReady s <> None ->
  creations (run (repeat E_microtask (length (microtasks s))) s) = 1.
Proof.
  intros Hs Ho Ha. pose proof Hs as [Hinv Hc].
  unfold cnt, pending_bodies in Hc. rewrite (pinv_released _ Hinv Ho) in Hc.
  unfold accessed in Hc. destruct (_whenIpcReady s) as [p|]; [|done]. simpl in Hc.
  destruct (decide (creations s = 1)) as [H1|H1]; [by apply creations_stay|].
  destruct (count_spawned_pos (microtasks s)) as (n & j & Hn & Hj); [lia|].
  pose proof (lookup_lt_Some _ _ _ Hn) as Hlt.
  replace (length (microtasks s)) with (S n + (length (microtasks s) - S n)) by lia.
  rewrite repeat_app, run_app. apply creations_stay.
  - by apply run_Inv.
  - by eapply spawned_runs.
Qed.
(** ** Calls that leave the window alone *)

Lemma wframe_refl s : wframe s s.
Proof. split; auto. exists []. by rewrite app_nil_r. Qed.

Lemma wframe_trans s1 s2 s3 : wframe s1 s2 -> wframe s2 s3 -> wframe s1 s3.
Proof.
  intros [? ? ? ? Hw1 Hc1 (l1 & Hl1 & Hp1)] [? ? ? ? Hw2 Hc2 (l2 & Hl2 & Hp2)].
  split; try congruence.
  exists (l1 ++ l2). split; [by rewrite Hl2, Hl1, app_assoc|].
    by apply Forall_app.
Qed.

Lemma veto_registrations_app l1 l2 :
  veto_registrations (l1 ++ l2) = veto_registrations l1 + veto_registrations l2.
Proof.
  induction l1 as [|e l1 IH]; simpl; [done|].
  destruct e; try done. rewrite IH. lia.
Qed.

Lemma veto_registrations_quiet l : Forall quiet l -> veto_registrations l = 0.
Proof.
  induction 1 as [|e l He _ IH]; simpl; [done|].
  destruct e; try done. simpl in He.
  apply String.eqb_neq in He. by rewrite He.
Qed.

Lemma quiet_not_close l w : Forall quiet l -> EClose w ∉ l.
Proof. intros Hl Hw. rewrite Forall_forall in Hl. exact (Hl _ Hw). Qed.

Lemma wframe_WInv s s' : wframe s s' -> WInv s -> WInv s'.
Proof.
  intros [Hw Hl Ht Hn Hws _ (l & Hlog & Hq)] [V1 V2 V3 V4 V7 V8 V9].
  split.
  - intros w. rewrite Hw, Hl. intros Hwin.
    destruct (V1 w Hwin) as (bw & Hbw & Hcl).
    specialize (Hws w). rewrite Hbw in Hws. simpl in Hws.
    apply fmap_Some in Hws as (bw' & Hbw' & Heq).
    exists bw'. split; [done|congruence].
  - intros w. rewrite Hw, Hlog. intros Hwin [Hold|Hnew]%elem_of_app.
    + by apply (V2 w).
    + by apply (quiet_not_close l w).
  - intros w. rewrite Hlog, Hn. intros [Hold|Hnew]%elem_of_app; [auto|].
    by apply (quiet_not_close l w) in Hnew.
  - intros w. rewrite Ht, Hn, Hlog. intros Hin.
    destruct (V4 w Hin). split; [done|]. apply elem_of_app. by left.
  - intros w. rewrite Hw, Hl, Hlog. intros Hwin Hnone.
    apply elem_of_app. left. by apply V7.
  - intros i w. rewrite Hlog. intros [Hold|[Hle Hnew]]%lookup_app_Some.
    + destruct (V8 i w Hold) as (j & Hj & Hrem). exists j. split; [done|].
      by apply lookup_app_l_Some.
    + exfalso. apply (quiet_not_close l w); [done|].
      by eapply list_elem_of_lookup_2.
  - rewrite Hlog, veto_registrations_app, (veto_registrations_quiet l Hq).
    unfold creations. rewrite Hn. unfold creations in V9. lia.
Qed.

Lemma wframed_ret {A} (a : A) : wframed (ret a).
Proof. intros s. apply wframe_refl. Qed.

Lemma wframed_gets {A} (f : State -> A) : wframed (gets f).
Proof. intros s. apply wframe_refl. Qed.

Lemma wframed_throw {A} msg : wframed (@throw A msg).
Proof. intros s. apply wframe_refl. Qed.

Lemma wframed_bind {A B} (m : M A) (k : A -> M B) :
  wframed m -> (forall a, wframed (k a)) -> wframed (bind m k).
Proof.
  intros Hm Hk s. apply wp_bind. eapply wp_mono; [apply Hm| |done].
  intros a s' Hf. eapply wp_mono; [apply Hk| |]; simpl.
  - intros b s'' H. exact (wframe_trans _ _ _ Hf H).
  - intros s'' H. exact (wframe_trans _ _ _ Hf H).
Qed.

Lemma wframed_modify f : (forall s, wframe s (f s)) -> wframed (modify f).
Proof. intros H s. apply H. Qed.

Lemma wframed_emit e : quiet e -> wframed (emit e).
Proof.
  intros He. apply wframed_modify. intros s. split; try done.
  exists [e]. split; [done|]. by constructor.
Qed.

Lemma wframed_update_window wid f :
  (forall b, bw_closeListeners (f b) = bw_closeListeners b) ->
  (forall b, bw_query (f b) = bw_query b) ->
  wframed (update_window wid f).
Proof.
  intros Hf Hc. apply wframed_modify. intros s. split; try done; simpl.
  - by rewrite length_alter.
  - intros w. destruct (decide (w = wid)) as [->|Hne].
    + rewrite list_lookup_alter_eq. destruct (windows s !! wid); simpl; [|done].
      by rewrite Hf.
    + by rewrite list_lookup_alter_ne.
  - intros w. destruct (decide (w = wid)) as [->|Hne].
    + rewrite list_lookup_alter_eq. destruct (windows s !! wid); simpl; [|done].
      by rewrite Hc.
    + by rewrite list_lookup_alter_ne.
  - exists []. by rewrite app_nil_r.
Qed.

Ltac wframed_tac :=
  repeat first
    [ apply wframed_ret | apply wframed_gets | apply wframed_throw
    | apply wframed_update_window; done
    | apply wframed_emit; done
    | apply wframed_modify; intros ?; split; simpl;
        first [done | by (exists []; rewrite app_nil_r)]
    | apply wframed_bind; [|intros ?]
    | match goal with
      | |- wframed (match ?x with _ => _ end) => destruct x
      | |- wframed (if ?x then _ else _) => destruct x
      end ].

Lemma wframed_newPromise : wframed newPromise.
Proof.
  intros s. unfold wp, newPromise. split; try done. exists []. by rewrite app_nil_r.
Qed.

Lemma wframed_settle p c : wframed (settle p c).
Proof.
  intros s. unfold wp, settle.
  destruct (promises s !! p) as [[ks|c']|]; try apply wframe_refl.
  split; try done. exists []. by rewrite app_nil_r.
Qed.

Lemma wframed_await p k : wframed (await p k).
Proof.
  intros s. unfold wp, await.
  destruct (promises s !! p) as [[ks|c']|]; try apply wframe_refl;
    split; try done; exists []; by rewrite app_nil_r.
Qed.

Lemma wframed_await_whenSpawnedBarrier k : wframed (await_whenSpawnedBarrier k).
Proof.
  intros s. unfold wp, await_whenSpawnedBarrier, Barrier.wait, enqueue, modify.
  destruct (Barrier.isOpen (whenSpawnedBarrier s)); simpl;
    (split; try done; simpl; exists []; by rewrite app_nil_r).
Qed.

Lemma wframed_open_whenSpawnedBarrier : wframed open_whenSpawnedBarrier.
Proof.
  intros s. unfold wp, open_whenSpawnedBarrier, Barrier.open, enqueue, modify. simpl.
  split; try done; simpl; exists []; by rewrite app_nil_r.
Qed.

Lemma wframed_whenIpcReady : wframed whenIpcReady.
Proof.
  unfold whenIpcReady. apply wframed_bind; [apply wframed_gets|intros [p|]];
    [apply wframed_ret|].
  apply wframed_bind; [apply wframed_newPromise|intros p].
  apply wframed_bind; [apply wframed_await_whenSpawnedBarrier|intros _].
  wframed_tac.
Qed.

Lemma wframed_whenReady : wframed whenReady.
Proof.
  unfold whenReady. apply wframed_bind; [apply wframed_gets|intros [p|]];
    [apply wframed_ret|].
  apply wframed_bind; [apply wframed_newPromise|intros p]. wframed_tac.
Qed.

Lemma wframed_spawn env : wframed (spawn env).
Proof.
  unfold spawn. apply wframed_bind; [wframed_tac|intros _].
  apply wframed_open_whenSpawnedBarrier.
Qed.

Lemma wframed_connect : wframed connect.
Proof.
  unfold connect. apply wframed_bind; [apply wframed_newPromise|intros p].
  apply wframed_bind; [apply wframed_whenIpcReady|intros q].
  apply wframed_bind; [apply wframed_await|intros _]. apply wframed_ret.
Qed.

Lemma wframed_toggle : wframed toggle.
Proof.
  unfold toggle. apply wframed_bind; [apply wframed_newPromise|intros p].
  apply wframed_bind; [apply wframed_whenIpcReady|intros q].
  apply wframed_bind; [apply wframed_await|intros _]. apply wframed_ret.
Qed.

Lemma wframed_onCreateSharedProcessMessageChannel nonce :
  wframed (onCreateSharedProcessMessageChannel nonce).
Proof.
  unfold onCreateSharedProcessMessageChannel, trace.
  apply wframed_bind; [by apply wframed_emit|intros _].
  apply wframed_bind; [apply wframed_whenReady|intros p]. apply wframed_await.
Qed.

Lemma wframed_fire_once msg ps : wframed (fire_once msg ps).
Proof.
  induction ps as [|p ps IH]; simpl; [apply wframed_ret|].
  apply wframed_bind; [by apply wframed_emit|intros _].
  apply wframed_bind; [apply wframed_settle|by intros _].
Qed.

Lemma wframed_on_ipcReady : wframed on_ipcReady.
Proof.
  unfold on_ipcReady. apply wframed_bind; [apply wframed_gets|intros ps].
  apply wframed_bind; [wframed_tac|intros _]. apply wframed_fire_once.
Qed.

Lemma wframed_on_initDone : wframed on_initDone.
Proof.
  unfold on_initDone. apply wframed_bind; [apply wframed_gets|intros ps].
  apply wframed_bind; [wframed_tac|intros _]. apply wframed_fire_once.
Qed.

Lemma wframed_resume c : wframed (resume c).
Proof. unfold resume. wframed_tac. Qed.

Lemma wframed_connectMessagePort wid : wframed (connectMessagePort wid).
Proof.
  unfold connectMessagePort, webContents_send.
  apply wframed_bind; [apply wframed_gets|intros port].
  apply wframed_bind; [wframed_tac|intros _].
  apply wframed_bind; [wframed_tac|intros _].
  apply wframed_bind; [apply wframed_newPromise|intros t]. wframed_tac.
Qed.

Lemma wframed_on_channelEstablished i : wframed (on_channelEstablished i).
Proof.
  unfold on_channelEstablished. apply wframed_bind; [apply wframed_gets|intros cs].
  destruct (cs !! i) as [[t port]|]; [|apply wframed_ret].
  apply wframed_bind; [wframed_tac|intros _]. apply wframed_settle.
Qed.

Lemma wframed_connect_resumed c : wframed (connect_resumed c).
Proof.
  unfold connect_resumed. apply wframed_bind; [apply wframed_resume|intros _].
  apply wframed_bind; [apply wframed_gets|intros [wid|]]; [|apply wframed_throw].
  unfold webContents_isDestroyed.
  apply wframed_bind; [apply wframed_gets|intros []]; [apply wframed_throw|].
  apply wframed_bind; [apply wframed_connectMessagePort|intros t]. apply wframed_ret.
Qed.

Lemma wframed_toggle_resumed c : wframed (toggle_resumed c).
Proof.
  unfold toggle_resumed. apply wframed_bind; [apply wframed_resume|intros _].
  apply wframed_bind; [apply wframed_gets|intros [wid|]]; [|apply wframed_ret].
  unfold isVisible, closeDevTools, hide, show, openDevTools. wframed_tac.
Qed.

Lemma wframed_whenIpcReady_signalled c : wframed (whenIpcReady_signalled c).
Proof.
  unfold whenIpcReady_signalled.
  apply wframed_bind; [apply wframed_resume|intros _]. apply wframed_ret.
Qed.

Lemma wframed_resolve p v : wframed (resolve p v).
Proof.
  destruct v; simpl; try apply wframed_settle. unfold enqueue. wframed_tac.
Qed.

Lemma wframed_async_segment p body : wframed body -> wframed (async_segment p body).
Proof.
  intros Hb s. specialize (Hb s). unfold wp in *. unfold async_segment.
  destruct (body s) as [[[v|]|e] s1]; [|done|].
  - pose proof (wframed_resolve p v s1) as Hs. unfold wp in Hs.
    destruct (resolve p v s1) as [[[]|e] s2]; by eapply wframe_trans.
  - pose proof (wframed_settle p (Throw e) s1) as Hs. unfold wp in Hs.
    destruct (settle p (Throw e) s1) as [[[]|e'] s2]; by eapply wframe_trans.
Qed.

Lemma wframed_channel_ready nonce c : wframed (channel_ready nonce c).
Proof.
  unfold channel_ready. destruct c; [|apply wframed_ret].
  apply wframed_bind; [apply wframed_connect|intros p]. apply wframed_await.
Qed.

Lemma wframed_channel_port nonce c : wframed (channel_port nonce c).
Proof. unfold channel_port. destruct c as [[]|]; wframed_tac. Qed.

Lemma wframed_windowCloseListener_body : wframed windowCloseListener_body.
Proof. unfold windowCloseListener_body, trace, isVisible, hide. wframed_tac. Qed.

Lemma wframed_run_closeListeners ls : wframed (run_closeListeners ls).
Proof.
  induction ls as [|[] ls IH]; simpl; [apply wframed_ret|].
  apply wframed_bind; [apply wframed_windowCloseListener_body|by intros _].
Qed.

Lemma wframed_emit_close wid : wframed (emit_close wid).
Proof.
  unfold emit_close. apply wframed_bind; [apply wframed_gets|intros [bw|]];
    [|apply wframed_ret].
  destruct (bw_closeListeners bw);
    [by apply wframed_update_window|apply wframed_run_closeListeners].
Qed.

Lemma wframed_run_job j : is_spawned j.1 = false -> wframed (run_job j).
Proof.
  destruct j as [[p|p|p|p|nonce|nonce|p t|p] c]; simpl; intros Hj; try done.
  - apply wframed_async_segment, wframed_whenIpcReady_signalled.
  - apply wframed_async_segment, wframed_connect_resumed.
  - apply wframed_async_segment, wframed_toggle_resumed.
  - apply wframed_channel_ready.
  - apply wframed_channel_port.
  - apply wframed_await.
  - apply wframed_settle.
Qed.
(** ** The three places that touch the window *)

Lemma alter_snoc {A} (f : A -> A) (l : list A) (x : A) :
  alter f (length l) (l ++ [x]) = l ++ [f x].
Proof.
  replace (length l) with (length l + 0) by lia.
  by rewrite (alter_app_r f l [x] 0).
Qed.

Lemma createWindow_registered s (Q : unit -> State -> Prop) (E : State -> Prop) :
  (forall s', window_created s s' -> Q tt s') ->
  wp (createWindow;; registerWindowListeners) Q E s.
Proof.
  intros HQ. unfold wp, createWindow, registerWindowListeners, bind, gets,
    new_BrowserWindow, loadURL, on_close, update_window, modify, emit, ret.
  simpl. apply HQ. split; simpl; try done.
  - rewrite alter_snoc. rewrite alter_snoc. done.
  - by rewrite <- !app_assoc.
Qed.

Lemma wp_bind_assoc {A B C} (m : M A) (m2 : A -> M B) (k : B -> M C)
    (Q : C -> State -> Prop) E s :
  wp (bind (bind m m2) k) Q E s -> wp (bind m (fun a => bind (m2 a) k)) Q E s.
Proof.
  unfold wp, bind. destruct (m s) as [[a|e] s1]; [|done].
  by destruct (m2 a s1) as [[b|e] s2].
Qed.

Lemma async_segment_window p (body : M (option Value)) (R : State -> Prop) s :
  (forall s1 s2, R s1 -> wframe s1 s2 -> R s2) ->
  wp body (fun _ => R) R s -> wp (async_segment p body) (fun _ => R) R s.
Proof.
  intros HR. unfold wp, async_segment.
  destruct (body s) as [[[v|]|e] s1]; [|done|]; intros H1.
  - pose proof (wframed_resolve p v s1) as Hs. unfold wp in Hs.
    destruct (resolve p v s1) as [[[]|e] s2]; by eapply HR.
  - pose proof (wframed_settle p (Throw e) s1) as Hs. unfold wp in Hs.
    destruct (settle p (Throw e) s1) as [[[]|e2] s2]; by eapply HR.
Qed.

(** The body of [whenIpcReady] resumed after the barrier, seen from the
    window: a window is created and its close listener registered; the rest
    leaves the window alone. *)
Lemma run_job_spawned_window s p c :
  wp (run_job (K_whenIpcReady_spawned p, c))
     (fun _ s' => wframe s s' \/ exists s1, window_created s s1 /\ wframe s1 s')
     (fun s' => wframe s s' \/ exists s1, window_created s s1 /\ wframe s1 s') s.
Proof.
  apply async_segment_window.
  { intros s1 s2 [H1|(s0 & H0 & H1)] H2; [left|right; exists s0; split; [done|]];
      by eapply wframe_trans. }
  destruct c as [v|e]; [|left; apply wframe_refl].
  set (rest := q <- newPromise;;
               modify (fun s => set_onceIpcReady (onceIpcReady s ++ [q]) s);;
               await q (K_whenIpcReady_signalled p);; ret (@None Value)).
  assert (Hrest : wframed rest).
  { unfold rest. apply wframed_bind; [apply wframed_newPromise|intros q].
    apply wframed_bind; [wframed_tac|intros _].
    apply wframed_bind; [apply wframed_await|intros _]. apply wframed_ret. }
  unfold whenIpcReady_spawned, resume. apply wp_bind, wp_ret.
  apply (wp_bind_assoc createWindow (fun _ => registerWindowListeners) (fun _ => rest)).
  apply wp_bind. apply createWindow_registered. intros s1 H1.
  eapply wp_mono; [apply Hrest| |]; simpl; intros; right; by exists s1.
Qed.

Lemma onWillShutdown_timeout_spec s w throws :
  wp (onWillShutdown_timeout w throws)
     (fun _ s' => exists s2, wframe (set_log (log s ++ [EClose w]) s) s2 /\
                             s' = set_window None s2)
     (fun _ => False) s.
Proof.
  unfold onWillShutdown_timeout, BrowserWindow_close.
  apply wp_bind, wp_try_catch, wp_bind, wp_modify.
  destruct throws.
  - apply wp_throw. intros e. apply wp_ret, wp_modify.
    eexists. split; [apply wframe_refl|done].
  - eapply wp_mono; [apply wframed_emit_close| |]; simpl.
    + intros _ s2 H2. apply wp_modify. by exists s2.
    + intros s2 H2 e. apply wp_ret, wp_modify. by exists s2.
Qed.

Lemma wp_returns {A} (m : M A) (Q : A -> State -> Prop) s :
  wp m Q (fun _ => False) s -> exists a s', m s = (Ok a, s') /\ Q a s'.
Proof. unfold wp. destruct (m s) as [[a|e] s']; [|done]. by exists a, s'. Qed.

Lemma onWillShutdown_live s w bw :
  window s = Some w -> windows s !! w = Some bw ->
  wp onWillShutdown (fun _ s' => shutdown_issued s s' w bw) (fun _ => False) s.
Proof.
  intros Hw Hbw. unfold onWillShutdown.
  apply wp_bind, wp_gets. rewrite Hw.
  apply wp_bind. unfold webContents_isDestroyed. apply wp_gets. rewrite Hbw.
  unfold webContents_send, removeListener_close, setTimeout, update_window, emit.
  destruct (bw_destroyed bw) eqn:Hd.
  - apply wp_bind, wp_ret, wp_bind, wp_gets.
    destruct (windowCloseListener s) as [l|] eqn:Hl.
    + apply wp_bind, wp_bind, wp_bind, wp_modify, wp_modify, wp_modify.
      apply wp_bind, wp_modify, wp_modify.
      split; simpl; rewrite ?Hl, ?Hd; simpl; rewrite <- ?app_assoc; try done.
      apply list_eq. intros i. destruct (decide (i = w)) as [->|Hne].
      * rewrite list_lookup_alter_eq, list_lookup_insert_eq, Hbw; [done|].
        by apply lookup_lt_Some in Hbw.
      * by rewrite list_lookup_alter_ne, list_lookup_insert_ne.
    + apply wp_bind, wp_ret, wp_bind, wp_modify, wp_modify.
      split; simpl; rewrite ?Hl, ?Hd; simpl; rewrite <- ?app_assoc; done.
  - apply wp_bind, wp_modify, wp_bind, wp_gets. simpl.
    destruct (windowCloseListener s) as [l|] eqn:Hl.
    + apply wp_bind, wp_bind, wp_bind, wp_modify, wp_modify, wp_modify.
      apply wp_bind, wp_modify, wp_modify.
      split; simpl; rewrite ?Hl, ?Hd; simpl; rewrite <- ?app_assoc; try done.
      apply list_eq. intros i. destruct (decide (i = w)) as [->|Hne].
      * rewrite list_lookup_alter_eq, list_lookup_insert_eq, Hbw; [done|].
        by apply lookup_lt_Some in Hbw.
      * by rewrite list_lookup_alter_ne, list_lookup_insert_ne.
    + apply wp_bind, wp_ret, wp_bind, wp_modify, wp_modify.
      split; simpl; rewrite ?Hl, ?Hd; simpl; rewrite <- ?app_assoc; try done.
Qed.

(** ** The window invariant holds in every reachable state *)

Lemma close_after_removal_app l l' :
  close_after_removal l -> Forall (fun e => ~ is_close e) l' ->
  close_after_removal (l ++ l').
Proof.
  intros Hl Hl' i w [Hold|[Hle Hnew]]%lookup_app_Some.
  - destruct (Hl i w Hold) as (j & Hj & Hrem). exists j. split; [done|].
    by apply lookup_app_l_Some.
  - exfalso. rewrite Forall_forall in Hl'.
    apply (Hl' (EClose w)); [by eapply list_elem_of_lookup_2|done].
Qed.

Lemma close_after_removal_snoc l w :
  close_after_removal l -> ERemoveListener w "close" ∈ l ->
  close_after_removal (l ++ [EClose w]).
Proof.
  intros Hl Hw i w' [Hold|[Hle Hnew]]%lookup_app_Some.
  - destruct (Hl i w' Hold) as (j & Hj & Hrem). exists j. split; [done|].
    by apply lookup_app_l_Some.
  - apply list_lookup_singleton_Some in Hnew as [_ [= <-]].
    apply list_elem_of_lookup in Hw as (j & Hj).
    exists j. split; [apply lookup_lt_Some in Hj; lia|by apply lookup_app_l_Some].
Qed.

Lemma not_close_elem l w : Forall (fun e => ~ is_close e) l -> EClose w ∉ l.
Proof. intros Hl Hw. rewrite Forall_forall in Hl. by apply (Hl _ Hw). Qed.

Lemma window_created_WInv s s1 : WInv s -> window_created s s1 -> WInv s1.
Proof.
  intros [V1 V2 V3 V4 V7 V8 V9] [Hw Hl Ht Hws Hlog Hu].
  assert (Hnc : Forall (fun e => ¬ is_close e)
    [ENewBrowserWindow (length (windows s));
     ELoadURL (length (windows s))
       (JSON_stringify (configuration s (length (windows s))));
     EOn (length (windows s)) "close";
     EOn (length (windows s)) "render-process-gone";
     EOn (length (windows s)) "unresponsive";
     EOn (length (windows s)) "did-fail-load"]).
  { repeat constructor; simpl; tauto. }
  split.
  - intros w. rewrite Hw, Hl, Hws. intros [= <-].
    exists (fresh_window s). split; [|done].
    rewrite lookup_app_r by done. by rewrite Nat.sub_diag.
  - intros w. rewrite Hw, Hlog. intros [= <-] [Hold|Hnew]%elem_of_app.
    + apply V3 in Hold. lia.
    + by apply not_close_elem in Hnew.
  - intros w. rewrite Hlog, Hws, length_app. intros [Hold|Hnew]%elem_of_app.
    + apply V3 in Hold. lia.
    + by apply not_close_elem in Hnew.
  - intros w. rewrite Ht, Hws, length_app, Hlog. intros Hin.
    destruct (V4 w Hin). split; [lia|]. apply elem_of_app. by left.
  - intros w. by rewrite Hl.
  - rewrite Hlog. by apply close_after_removal_app.
  - rewrite Hlog, veto_registrations_app. unfold creations in *.
    rewrite Hws, length_app. simpl. lia.
Qed.

Lemma shutdown_issued_WInv s s' w bw :
  WInv s -> window s = Some w -> windows s !! w = Some bw ->
  shutdown_issued s s' w bw -> WInv s'.
Proof.
  intros [V1 V2 V3 V4 V7 V8 V9] Hwin Hbw [Hw Hl Ht Hws Hlog].
  destruct (V1 w Hwin) as (bw0 & Hbw0 & Hcl). rewrite Hbw in Hbw0. injection Hbw0 as <-.
  pose proof (lookup_lt_Some _ _ _ Hbw) as Hlt.
  set (added := (if bw_destroyed bw then [] else [ESend w exitChannel]) ++
                match windowCloseListener s with
                | Some _ => [ERemoveListener w "close"]
                | None => []
                end ++ [ESetTimeout 0]) in *.
  assert (Hnc : Forall (fun e => ¬ is_close e) added).
  { unfold added. destruct (bw_destroyed bw), (windowCloseListener s);
      repeat constructor; simpl; tauto. }
  assert (Hq : Forall quiet added).
  { unfold added. destruct (bw_destroyed bw), (windowCloseListener s);
      repeat constructor; simpl; tauto. }
  assert (Hlen : length (windows s') = length (windows s)).
  { rewrite Hws. destruct (windowCloseListener s); [by rewrite length_insert|done]. }
  assert (Hrem : ERemoveListener w "close" ∈ log s').
  { rewrite Hlog. apply elem_of_app. destruct (windowCloseListener s) eqn:Hlis.
    - right. unfold added. apply elem_of_app. right. by left.
    - left. by apply V7. }
  split.
  - intros w'. rewrite Hw, Hl. intros [= <-]. rewrite Hws.
    destruct (windowCloseListener s) as [[]|] eqn:Hlis.
    + eexists. split; [by apply list_lookup_insert_eq|]. simpl.
      rewrite Hcl. done.
    + exists bw. by split.
  - intros w'. rewrite Hw, Hlog. intros [= <-] [Hold|Hnew]%elem_of_app.
    + by apply (V2 w).
    + by apply not_close_elem in Hnew.
  - intros w'. rewrite Hlog, Hlen. intros [Hold|Hnew]%elem_of_app; [auto|].
    by apply not_close_elem in Hnew.
  - intros w'. rewrite Ht, Hlen. intros [Hold|Hnew]%elem_of_app.
    + destruct (V4 w' Hold). split; [done|]. rewrite Hlog. apply elem_of_app. by left.
    + apply list_elem_of_singleton in Hnew as [= ->]. by split.
  - intros w'. rewrite Hw. by intros [= <-] _.
  - rewrite Hlog. by apply close_after_removal_app.
  - rewrite Hlog, veto_registrations_app, (veto_registrations_quiet added Hq).
    unfold creations in *. rewrite Hlen. lia.
Qed.

Lemma timer_fired_WInv s w ts s2 :
  WInv s -> timers s = T_closeWindow w :: ts ->
  wframe (set_log (log (set_timers ts s) ++ [EClose w]) (set_timers ts s)) s2 ->
  WInv (set_window None s2).
Proof.
  intros [V1 V2 V3 V4 V7 V8 V9] Ht Hf.
  apply (wframe_WInv
    (set_window None (set_log (log (set_timers ts s) ++ [EClose w]) (set_timers ts s)))).
  { destruct Hf as [? ? ? ? ? ? ?]. by split. }
  destruct (V4 w) as [Hlt Hrem]; [rewrite Ht; by left|].
  split; simpl; try done.
  - intros w' [Hold|Hnew]%elem_of_app; [auto|].
    by apply list_elem_of_singleton in Hnew as [= ->].
  - intros w' Hin. destruct (V4 w') as [? ?]; [rewrite Ht; by right|].
    split; [done|]. apply elem_of_app. by left.
  - by apply close_after_removal_snoc.
  - by rewrite veto_registrations_app, Nat.add_0_r.
Qed.

Lemma init_WInv mid env sv : WInv (init mid env sv).
Proof.
  split; simpl; try done.
  - intros w Hw. by apply elem_of_nil in Hw.
  - intros w Hw. by apply elem_of_nil in Hw.
Qed.

Lemma step_WInv ev s : WInv s -> WInv (step ev s).
Proof.
  intros Hinv.
  assert (Hk : forall {A} (m : M A), wframed m -> WInv (exec m s)).
  { intros A m Hm. specialize (Hm s). apply wp_exec in Hm.
    by apply (wframe_WInv s). }
  destruct ev as [env| | | |nonce|i| | | | |throws|wid|wid].
  - apply Hk, wframed_spawn.
  - apply Hk, wframed_connect.
  - apply Hk, wframed_toggle.
  - apply Hk, wframed_whenReady.
  - apply Hk, wframed_onCreateSharedProcessMessageChannel.
  - apply Hk, wframed_on_channelEstablished.
  - apply Hk, wframed_on_ipcReady.
  - apply Hk, wframed_on_initDone.
  - destruct (window s) as [w|] eqn:Hw.
    + destruct (winv_window _ Hinv w Hw) as (bw & Hbw & _).
      destruct (wp_returns _ _ _ (onWillShutdown_live s w bw Hw Hbw)) as ([] & s' & Heq & Hs').
      change (step E_willShutdown s) with (exec onWillShutdown s).
      unfold exec. rewrite Heq. by apply (shutdown_issued_WInv s s' w bw).
    + change (step E_willShutdown s) with (exec onWillShutdown s).
      unfold exec, onWillShutdown, bind, gets. by rewrite Hw.
  - destruct (microtasks s) as [|j q] eqn:Hq.
    { simpl. by rewrite Hq. }
    rewrite (step_microtask_cons s j q Hq).
    assert (H0 : WInv (set_microtasks q s)).
    { apply (wframe_WInv s); [|done]. split; try done. exists []. by rewrite app_nil_r. }
    revert H0. generalize (set_microtasks q s). intros s0 H0.
    destruct (is_spawned j.1) eqn:Hj.
    + destruct j as [[p| | | | | | |] c]; try done.
      pose proof (run_job_spawned_window s0 p c) as Hr. apply wp_exec in Hr.
      revert Hr. generalize (exec (run_job (K_whenIpcReady_spawned p, c)) s0).
      intros s1 [H1|(s' & H1 & H2)].
      * by apply (wframe_WInv s0).
      * apply (wframe_WInv s'); [done|]. by apply (window_created_WInv s0).
    + pose proof (wframed_run_job j Hj s0) as Hr. apply wp_exec in Hr.
      by apply (wframe_WInv s0).
  - simpl. destruct (timers s) as [|[w] ts] eqn:Ht; [done|].
    pose proof (onWillShutdown_timeout_spec (set_timers ts s) w throws) as Hr.
    apply wp_returns in Hr as ([] & s' & Heq & s2 & Hf & ->).
    unfold exec. rewrite Heq. simpl. by apply (timer_fired_WInv s w ts).
  - apply Hk, wframed_emit_close.
  - apply Hk. by apply wframed_update_window.
Qed.

Lemma reachable_WInv s : reachable s -> WInv s.
Proof.
  apply reachable_ind; [apply init_WInv|].
  intros ev s' _ H. by apply step_WInv.
Qed.
(** ** Calls that always return *)

Lemma total_ret {A} (a : A) : total (ret a).
Proof. intros s. by exists a, s. Qed.

Lemma total_gets {A} (f : State -> A) : total (gets f).
Proof. intros s. by exists (f s), s. Qed.

Lemma total_modify f : total (modify f).
Proof. intros s. by exists tt, (f s). Qed.

Lemma total_bind {A B} (m : M A) (k : A -> M B) :
  total m -> (forall a, total (k a)) -> total (bind m k).
Proof.
  intros Hm Hk s. destruct (Hm s) as (a & s1 & H1).
  destruct (Hk a s1) as (b & s2 & H2). exists b, s2.
  unfold bind. by rewrite H1.
Qed.

Lemma total_try_catch {A} (m : M A) (h : string -> M A) :
  (forall e, total (h e)) -> total (try_catch m h).
Proof.
  intros Hh s. unfold try_catch. destruct (m s) as [[a|e] s1].
  - by exists a, s1.
  - apply Hh.
Qed.

Lemma total_newPromise : total newPromise.
Proof. intros s. by eexists _, _. Qed.

Lemma total_await p k : total (await p k).
Proof.
  intros s. unfold await. destruct (promises s !! p) as [[ks|c]|]; by eexists _, _.
Qed.

Lemma total_await_whenSpawnedBarrier k : total (await_whenSpawnedBarrier k).
Proof.
  intros s. unfold await_whenSpawnedBarrier, Barrier.wait.
  destruct (Barrier.isOpen (whenSpawnedBarrier s)); by eexists _, _.
Qed.

Ltac total_tac :=
  repeat first
    [ apply total_ret | apply total_gets | apply total_modify
    | apply total_newPromise | apply total_await
    | apply total_await_whenSpawnedBarrier
    | apply total_try_catch; intros ?
    | apply total_bind; [|intros ?]
    | match goal with
      | |- total (match ?x with _ => _ end) => destruct x
      | |- total (if ?x then _ else _) => destruct x
      end ].

Lemma total_whenIpcReady : total whenIpcReady.
Proof. unfold whenIpcReady. total_tac. Qed.

Lemma total_connect : total connect.
Proof. unfold connect. total_tac. Qed.


Lemma total_onWillShutdown_timeout w throws : total (onWillShutdown_timeout w throws).
Proof. unfold onWillShutdown_timeout. total_tac. Qed.

(** ** The listener's promise and the ports in circulation *)

Lemma free_lext s s' t : lext s s' -> free s t -> free s' t.
Proof.
  intros Hx [Hlt Hnot]. split; [pose proof (lext_promises _ _ Hx); lia|].
  intros Hin. destruct (lext_listening _ _ Hx _ Hin) as [?|?]; [done|lia].
Qed.

Lemma cont_ok_lext s s' k : lext s s' -> cont_ok s k -> cont_ok s' k.
Proof. intros Hx Hk t Ht. eapply free_lext; eauto. Qed.

Lemma port_ok_lext s s' c : lext s s' -> port_ok s c -> port_ok s' c.
Proof.
  intros Hx. pose proof (lext_nextPort _ _ Hx).
  destruct c as [[| |n|]|]; simpl; auto. lia.
Qed.

Lemma lext_refl s : lext s s.
Proof. split; eauto. Qed.

Lemma lext_trans s1 s2 s3 : lext s1 s2 -> lext s2 s3 -> lext s1 s3.
Proof.
  intros [A1 A2 A3 A4 A5 A6 A7 A8] [B1 B2 B3 B4 B5 B6 B7 B8].
  split; auto; [lia| | |lia].
  - intros ip Hip. destruct (B2 ip Hip) as [H|H]; [auto|right; lia].
  - intros p ks k Hp Hk. destruct (A6 p ks k Hp Hk) as [(ks' & Hp' & Hk')|[c Hc]].
    + eauto.
    + right. exists c. auto.
Qed.

Lemma lkeeps_port s s' c : lkeeps s s' -> port_ok s c -> port_ok s' c.
Proof. intros [_ Hx]. by apply port_ok_lext. Qed.

Lemma lkeeps_refl s : LInv s -> lkeeps s s.
Proof. intros H. split; [done|apply lext_refl]. Qed.

Lemma lkeeps_trans s1 s2 s3 : lkeeps s1 s2 -> lkeeps s2 s3 -> lkeeps s1 s3.
Proof. intros [_ A] [B C]. split; [done|by eapply lext_trans]. Qed.

Lemma lkeeps_free s s' t : lkeeps s s' -> free s t -> free s' t.
Proof. intros [_ Hx]. by apply free_lext. Qed.

Lemma lkeeps_memo s s' q : lkeeps s s' -> _whenIpcReady s = Some q -> _whenIpcReady s' = Some q.
Proof. intros [_ Hx]. apply Hx. Qed.

Lemma lkeeps_Ready s s' : Ready s -> lkeeps s s' -> Ready s'.
Proof.
  intros [_ Ha] [Hinv Hx]. split; [done|]. intros Ho.
  destruct (Ha (lext_log _ _ Hx Ho)) as (q & Hq & Hr).
  exists q. split; [by apply Hx|by apply Hx].
Qed.

Lemma resolving_mono s s' q :
  (forall c, promises s !! q = Some (Settled c) -> exists c', promises s' !! q = Some (Settled c')) ->
  (forall j, j ∈ microtasks s -> j ∈ microtasks s') ->
  resolving s q -> resolving s' q.
Proof.
  intros Hp Hm [[c Hc]|[c Hc]]; [left|right].
  - destruct (Hp c Hc) as [c' Hc']. by exists c'.
  - exists c. by apply Hm.
Qed.

(** A state that differs from [s] in ways the invariant can absorb. *)
Lemma LInv_step s s' :
  LInv s -> lext s s' ->
  (forall k c, (k, c) ∈ microtasks s' ->
     (k, c) ∈ microtasks s \/
     (cont_ok s' k /\ port_ok s' c /\
      forall q, k = K_whenIpcReady_spawned q -> _whenIpcReady s' = Some q)) ->
  (forall p ks k, promises s' !! p = Some (Pending ks) -> k ∈ ks ->
     (exists ks0, promises s !! p = Some (Pending ks0) /\ k ∈ ks0) \/
     (is_spawned k = false /\ cont_ok s' k)) ->
  (forall k, k ∈ Barrier.waiters (whenSpawnedBarrier s') ->
     k ∈ Barrier.waiters (whenSpawnedBarrier s) \/
     exists q, k = K_whenIpcReady_spawned q /\ _whenIpcReady s' = Some q) ->
  (forall q, _whenIpcReady s' = Some q -> _whenIpcReady s = Some q \/ free s' q) ->
  (forall t, _whenReady s' = Some t -> _whenReady s = Some t \/ free s' t) ->
  (forall ip, ip ∈ onceIpcReady s' ->
     (ip ∈ onceIpcReady s /\
      forall ks k, promises s !! ip = Some (Pending ks) -> k ∈ ks ->
        exists ks', promises s' !! ip = Some (Pending ks') /\ k ∈ ks') \/
     (ip < length (promises s') /\
      exists q ks, _whenIpcReady s' = Some q /\
        promises s' !! ip = Some (Pending ks) /\ K_whenIpcReady_signalled q ∈ ks)) ->
  (forall t, t ∈ onceInitDone s' -> t ∈ onceInitDone s \/ free s' t) ->
  (forall p c, promises s' !! p = Some (Settled c) ->
     promises s !! p = Some (Settled c) \/ port_ok s' c) ->
  (forall nonce n, EPostMessage nonce n ∈ log s' ->
     EPostMessage nonce n ∈ log s \/ n < nextPort s') ->
  (forall t n, (t, n) ∈ channels s' ->
     (t, n) ∈ channels s \/ (free s' t /\ n < nextPort s')) ->
  LInv s'.
Proof.
  intros [W1 W2 W3 W4 W5 W6 W7 W8 W9 W10 W11 W12] Hx Hj Hr Hw Hm Ht Hl Hd Hpt Hlog Hch.
  split.
  - intros k c Hk. destruct (Hj k c Hk) as [Hold|[Hnew _]]; [|done].
    apply (cont_ok_lext s); [done|]. by eapply W1.
  - intros p ks k Hp Hk. destruct (Hr p ks k Hp Hk) as [(ks0 & Hp0 & Hk0)|Hnew]; [|done].
    destruct (W2 p ks0 k Hp0 Hk0) as [Hs Hc]. split; [done|by apply (cont_ok_lext s)].
  - intros k Hk. destruct (Hw k Hk) as [Hold|Hnew]; [|done].
    destruct (W3 k Hold) as (q & -> & Hq). exists q. split; [done|by apply Hx].
  - intros q Hq. destruct (Hm q Hq) as [Hold|Hnew]; [|done].
    apply (free_lext s); [done|by apply W4].
  - intros t Ht'. destruct (Ht t Ht') as [Hold|Hnew]; [|done].
    apply (free_lext s); [done|by apply W5].
  - intros q c Hq. destruct (Hj _ c Hq) as [Hold|(_ & _ & Hnew)]; [|by apply Hnew].
    apply Hx. by eapply W6.
  - intros ip Hip. destruct (Hl ip Hip) as [[Hold Hsame]|Hnew]; [|done].
    destruct (W7 ip Hold) as (Hlt & q & ks & Hq & Hp & Hk).
    split; [pose proof (lext_promises _ _ Hx); lia|].
    destruct (Hsame ks _ Hp Hk) as (ks' & Hp' & Hk').
    exists q, ks'. split; [by apply Hx|done].
  - intros t Ht'. destruct (Hd t Ht') as [Hold|Hnew]; [|done].
    apply (free_lext s); [done|by apply W8].
  - intros p c Hc. destruct (Hpt p c Hc) as [Hold|Hnew]; [|done].
    apply (port_ok_lext s); [done|by eapply W9].
  - intros k c Hk. destruct (Hj k c Hk) as [Hold|(_ & Hnew & _)]; [|done].
    apply (port_ok_lext s); [done|by eapply W10].
  - intros nonce n Hn. destruct (Hlog nonce n Hn) as [Hold|Hnew]; [|done].
    pose proof (lext_nextPort _ _ Hx). pose proof (W11 _ _ Hold). lia.
  - intros t n Hc. destruct (Hch t n Hc) as [Hold|Hnew]; [|done].
    destruct (W12 t n Hold) as [Hf Hn]. pose proof (lext_nextPort _ _ Hx).
    split; [by apply (free_lext s)|lia].
Qed.

(** The two usual ways in which reactions and queued jobs are kept. *)
Ltac conserve :=
  first
    [ by (intros ? ? ? ? ?; left; eexists;
          split; [first [eassumption | by apply lookup_app_l_Some]|done])
    | by (intros ? ?; first [assumption | apply elem_of_app; by left]) ].

Ltac linv_step s Hinv Hx :=
  apply (LInv_step s); [exact Hinv | exact Hx | simpl .. | simpl; try (by auto)].

(** Appending a pending promise adds no settled one. *)
Ltac settled_old :=
  let H := fresh in
  intros ? ? [H|[_ H]]%lookup_app_Some; [by left|];
  by apply list_lookup_singleton_Some in H as [_ [=]].

(** A listener's promise keeps its reactions when nothing touches it. *)
Ltac same_listening :=
  let ip := fresh "ip" in let Hip := fresh "Hip" in
  intros ip Hip; left; split; [exact Hip|]; intros ks k Hp Hk; exists ks; by split.

(** *** The primitives *)

Lemma pframe_lkeeps s s' : pframe s s' -> LInv s -> lkeeps s s'.
Proof.
  intros [Hr Hi Hb Hp Ho1 Ho2 Hm (l & Hl & Hs) _ Hnp Hch] Hinv.
  assert (Hx : lext s s').
  { split.
    - by rewrite Hp.
    - intros ip. rewrite Ho1. auto.
    - intros q. by rewrite Hi.
    - intros q. unfold resolving, settled. by rewrite Hp, Hm.
    - unfold ipcReady_observed. rewrite Hl. intros [H|H]%elem_of_app; [done|].
      rewrite Forall_forall in Hs. by destruct (Hs _ H eq_refl).
    - intros p ks k. rewrite Hp. eauto.
    - intros j. by rewrite Hm.
    - done. }
  split; [|done].
  apply (LInv_step s); [done|done|..].
  - intros k c. rewrite Hm. auto.
  - intros p ks k. rewrite Hp. eauto.
  - intros k. rewrite Hb. auto.
  - intros q. rewrite Hi. auto.
  - intros t. rewrite Hr. auto.
  - intros ip. rewrite Ho1. intros Hip. left. split; [done|].
    intros ks k. rewrite Hp. eauto.
  - intros t. rewrite Ho2. auto.
  - intros p c. rewrite Hp. auto.
  - intros nonce n. rewrite Hl. intros [H|H]%elem_of_app; [by left|].
    rewrite Forall_forall in Hs. by destruct (Hs _ H).
  - intros t n. rewrite Hch. auto.
Qed.

Lemma framed_lkeeps {A} (m : M A) s :
  framed m -> LInv s -> wp m (fun _ => lkeeps s) (lkeeps s) s.
Proof.
  intros Hm Hinv. eapply wp_mono; [apply Hm| |];
    simpl; intros; by apply pframe_lkeeps.
Qed.

Lemma l_newPromise s :
  LInv s ->
  wp newPromise (fun p s' => lkeeps s s' /\ free s' p /\ p = length (promises s))
     (fun _ => False) s.
Proof.
  intros Hinv. unfold wp, newPromise. set (s' := set_promises _ s).
  assert (Hx : lext s s').
  { split; simpl; auto; try conserve.
    - rewrite length_app. lia.
    - intros q. apply resolving_mono; simpl; [|done].
      intros c Hc. exists c. by apply lookup_app_l_Some. }
  split; [split; [|done]|split; [|done]].
  - linv_step s Hinv Hx; auto.
    + intros p ks k [Hold|[_ Hnew]]%lookup_app_Some Hk; [left; eauto|].
      apply list_lookup_singleton_Some in Hnew as [_ [= <-]].
      by apply elem_of_nil in Hk.
    + intros ip Hip. left. split; [done|]. intros ks k Hp Hk.
      exists ks. split; [|done]. by apply lookup_app_l_Some.
    + settled_old.
  - split; simpl; [rewrite length_app; simpl; lia|].
    intros Hin. apply (linv_listening _ Hinv) in Hin as [Hlt _]. lia.
Qed.

Lemma l_settle s p c :
  LInv s -> free s p -> port_ok s c ->
  wp (settle p c)
     (fun _ s' => lkeeps s s' /\ settled s' p /\
        forall ks k, promises s !! p = Some (Pending ks) -> k ∈ ks ->
                     (k, c) ∈ microtasks s')
     (fun _ => False) s.
Proof.
  intros Hinv [Hlt Hnot] Hc. unfold wp, settle.
  destruct (promises s !! p) as [[ks|c']|] eqn:Hp.
  - set (s' := set_microtasks _ _).
    assert (Hx : lext s s').
    { split; simpl; auto; try conserve.
      - by rewrite length_insert.
      - intros q. apply resolving_mono; simpl.
        + intros c0 Hc0. destruct (decide (q = p)) as [->|Hne]; [congruence|].
          exists c0. by rewrite list_lookup_insert_ne.
        + intros j Hj. apply elem_of_app. by left.
      - intros p' ks' k Hp' Hk. destruct (decide (p' = p)) as [->|Hne].
        + right. exists c. apply elem_of_app. right.
          apply list_elem_of_fmap. exists k. split; [done|congruence].
        + left. exists ks'. by rewrite list_lookup_insert_ne. }
    split; [split; [|done]|].
    + linv_step s Hinv Hx; auto.
      * intros k c0 [Hold|Hnew]%elem_of_app; [by left|right].
        apply list_elem_of_fmap in Hnew as (k0 & [= -> ->] & Hk).
        destruct (linv_reactions _ Hinv _ _ _ Hp Hk) as [Hs Hko].
        split; [by apply (cont_ok_lext s)|]. split; [done|]. by intros q ->.
      * intros p' ks' k Hp' Hk. left. destruct (decide (p' = p)) as [->|Hne].
        -- by rewrite list_lookup_insert_eq in Hp'.
        -- rewrite list_lookup_insert_ne in Hp' by done. eauto.
      * intros ip Hip. left. split; [done|]. intros ks' k Hp' Hk.
        exists ks'. split; [|done].
        rewrite list_lookup_insert_ne; [done|]. by intros ->.
      * intros p' c' Hp'. destruct (decide (p' = p)) as [->|Hne].
        -- rewrite list_lookup_insert_eq in Hp' by done. right.
           injection Hp' as <-. exact Hc.
        -- left. by rewrite list_lookup_insert_ne in Hp'.
    + split; [exists c; simpl; by rewrite list_lookup_insert_eq|].
      intros ks0 k [= <-] Hk. simpl. apply elem_of_app. right.
      apply list_elem_of_fmap. by exists k.
  - split; [by apply lkeeps_refl|]. split; [by exists c'|]. intros ks k [=].
  - apply lookup_ge_None in Hp. lia.
Qed.

(** [then] on any promise, a listener's one included: what waited on it
    still does. *)
Lemma l_then s p k :
  LInv s -> is_spawned k = false -> cont_ok s k ->
  wp (await p k) (fun _ s' => lkeeps s s') (fun _ => False) s.
Proof.
  intros Hinv Hs Hk. unfold wp, await.
  destruct (promises s !! p) as [[ks|c]|] eqn:Hp; [| |by apply lkeeps_refl].
  - pose proof (lookup_lt_Some _ _ _ Hp) as Hlt.
    set (s' := set_promises _ _).
    assert (Hkeep : forall p' ks' k',
              promises s !! p' = Some (Pending ks') -> k' ∈ ks' ->
              exists ks'', promises s' !! p' = Some (Pending ks'') /\ k' ∈ ks'').
    { intros p' ks' k' Hp' Hk'. simpl. destruct (decide (p' = p)) as [->|Hne].
      + exists (ks ++ [k]). rewrite list_lookup_insert_eq by done.
        split; [done|]. apply elem_of_app. left. congruence.
      + exists ks'. by rewrite list_lookup_insert_ne. }
    assert (Hx : lext s s').
    { split; simpl; auto; try conserve.
      - by rewrite length_insert.
      - intros q. apply resolving_mono; simpl; [|done].
        intros c0 Hc0. destruct (decide (q = p)) as [->|Hne]; [congruence|].
        exists c0. by rewrite list_lookup_insert_ne.
      - intros p' ks' k' Hp' Hk'. left. by apply (Hkeep p' ks'). }
    split; [|done].
    linv_step s Hinv Hx; auto.
    + intros p' ks' k' Hp' Hk'. destruct (decide (p' = p)) as [->|Hne].
      * rewrite list_lookup_insert_eq in Hp' by done. injection Hp' as <-.
        apply elem_of_app in Hk' as [Hold|Hnew]; [left; eauto|right].
        apply list_elem_of_singleton in Hnew as ->.
        split; [done|by apply (cont_ok_lext s)].
      * rewrite list_lookup_insert_ne in Hp' by done. left; eauto.
    + intros ip Hip. left. split; [done|]. intros ks' k' Hp' Hk'.
      by apply (Hkeep ip ks').
    + intros p' c' Hp'. left. destruct (decide (p' = p)) as [->|Hne].
      * by rewrite list_lookup_insert_eq in Hp'.
      * by rewrite list_lookup_insert_ne in Hp'.
  - set (s' := set_microtasks _ _).
    assert (Hx : lext s s').
    { split; simpl; auto; try conserve.
      intros q. apply resolving_mono; simpl; [eauto|].
      intros j Hj. apply elem_of_app. by left. }
    split; [|done].
    linv_step s Hinv Hx; eauto; try same_listening.
    intros k' c' [Hold|Hnew]%elem_of_app; [by left|right].
    apply list_elem_of_singleton in Hnew as [= -> ->].
    split; [by apply (cont_ok_lext s)|]. split; [|by intros q ->].
    by apply (linv_ports _ Hinv p).
Qed.

Lemma l_await s p k :
  LInv s -> free s p -> is_spawned k = false -> cont_ok s k ->
  wp (await p k) (fun _ s' => lkeeps s s') (fun _ => False) s.
Proof. intros Hinv _. by apply l_then. Qed.

(** *** Sequencing *)

Lemma wp_lkeeps_bind {A B} (m : M A) (k : A -> M B) s0 s
    (R : A -> State -> Prop) (Q : B -> State -> Prop) :
  lkeeps s0 s ->
  wp m (fun a s1 => lkeeps s s1 /\ R a s1) (lkeeps s) s ->
  (forall a s1, lkeeps s s1 -> lkeeps s0 s1 -> R a s1 -> wp (k a) Q (lkeeps s0) s1) ->
  wp (bind m k) Q (lkeeps s0) s.
Proof.
  intros H0 Hm Hk. apply wp_bind. eapply wp_mono; [exact Hm| |]; simpl.
  - intros a s1 [H1 HR]. apply Hk; [done| |done]. by eapply lkeeps_trans.
  - intros s1 H1. by eapply lkeeps_trans.
Qed.

Lemma wp_lkeeps_seq {A B} (m : M A) (k : A -> M B) s0 s (Q : B -> State -> Prop) :
  lkeeps s0 s ->
  wp m (fun _ s1 => lkeeps s s1) (lkeeps s) s ->
  (forall a s1, lkeeps s s1 -> lkeeps s0 s1 -> wp (k a) Q (lkeeps s0) s1) ->
  wp (bind m k) Q (lkeeps s0) s.
Proof.
  intros H0 Hm Hk. apply wp_bind. eapply wp_mono; [exact Hm| |]; simpl.
  - intros a s1 H1. apply Hk; [done|]. by eapply lkeeps_trans.
  - intros s1 H1. by eapply lkeeps_trans.
Qed.

Lemma wp_lkeeps_last {A} (m : M A) s0 s :
  lkeeps s0 s ->
  wp m (fun _ s1 => lkeeps s s1) (lkeeps s) s ->
  wp m (fun _ s1 => lkeeps s0 s1) (lkeeps s0) s.
Proof.
  intros H0 Hm. eapply wp_mono; [exact Hm| |]; simpl; intros; by eapply lkeeps_trans.
Qed.

Ltac lk := eauto 6 using lkeeps_free, lkeeps_memo, lkeeps_trans, lk_inv, lkeeps_refl.

(** *** The calls of the coordinator *)

Lemma observed_app s s' l :
  log s' = log s ++ l -> ETrace ipcReadyMsg ∉ l ->
  ipcReady_observed s' -> ipcReady_observed s.
Proof.
  unfold ipcReady_observed. intros -> Hl [H|H]%elem_of_app; done.
Qed.

Lemma l_emit s e :
  e <> ETrace ipcReadyMsg ->
  (forall nonce n, e = EPostMessage nonce n -> n < nextPort s) -> LInv s ->
  wp (emit e) (fun _ => lkeeps s) (fun _ => False) s.
Proof.
  intros He Hport Hinv. unfold wp, emit, modify. set (s' := set_log _ _).
  assert (Hx : lext s s').
  { split; simpl; auto; try conserve. apply (observed_app _ _ [e]); [done|].
    intros H. apply list_elem_of_singleton in H. congruence. }
  split; [|done]. linv_step s Hinv Hx; eauto; try same_listening.
  intros nonce n [H|H]%elem_of_app; [by left|right].
  apply list_elem_of_singleton in H. by apply (Hport nonce).
Qed.

Lemma l_whenIpcReady s :
  LInv s ->
  wp whenIpcReady (fun q s' => lkeeps s s' /\ _whenIpcReady s' = Some q)
     (fun _ => False) s.
Proof.
  intros Hinv. unfold wp, whenIpcReady, bind, gets.
  destruct (_whenIpcReady s) as [p|] eqn:Hi; simpl.
  { split; [by apply lkeeps_refl|done]. }
  unfold await_whenSpawnedBarrier, Barrier.wait, enqueue, modify. simpl.
  destruct (Barrier.isOpen (whenSpawnedBarrier s)) eqn:Ho; simpl.
  - set (s' := set__whenIpcReady _ _).
    assert (Hx : lext s s').
    { split; simpl; auto; try conserve.
      - rewrite length_app. lia.
      - intros q. congruence.
      - intros q. apply resolving_mono; simpl.
        + intros c Hc. exists c. by apply lookup_app_l_Some.
        + intros j Hj. apply elem_of_app. by left. }
    assert (Hf : free s' (length (promises s))).
    { split; simpl; [rewrite length_app; simpl; lia|].
      intros Hin. apply (linv_listening _ Hinv) in Hin as [Hlt _]. lia. }
    split; [split; [|done]|done].
    linv_step s Hinv Hx; auto.
    + intros k c [Hold|Hnew]%elem_of_app; [by left|right].
      apply list_elem_of_singleton in Hnew as [= -> ->].
      split; [by intros t [= <-]|]. split; [done|by intros q [= <-]].
    + intros p ks k [Hold|[_ Hnew]]%lookup_app_Some Hk; [left; eauto|].
      apply list_lookup_singleton_Some in Hnew as [_ [= <-]].
      by apply elem_of_nil in Hk.
    + intros q [= <-]. by right.
    + intros ip Hip. left. split; [done|]. intros ks k Hp Hk.
      exists ks. split; [|done]. by apply lookup_app_l_Some.
    + settled_old.
  - set (s' := set__whenIpcReady _ _).
    assert (Hx : lext s s').
    { split; simpl; auto; try conserve.
      - rewrite length_app. lia.
      - intros q. congruence.
      - intros q. apply resolving_mono; simpl.
        + intros c Hc. exists c. by apply lookup_app_l_Some.
        + intros j Hj. apply elem_of_app. by left. }
    assert (Hf : free s' (length (promises s))).
    { split; simpl; [rewrite length_app; simpl; lia|].
      intros Hin. apply (linv_listening _ Hinv) in Hin as [Hlt _]. lia. }
    split; [split; [|done]|done].
    linv_step s Hinv Hx; auto.
    + intros k c. rewrite app_nil_r. auto.
    + intros p ks k [Hold|[_ Hnew]]%lookup_app_Some Hk; [left; eauto|].
      apply list_lookup_singleton_Some in Hnew as [_ [= <-]].
      by apply elem_of_nil in Hk.
    + intros k [Hold|Hnew]%elem_of_app; [by left|right].
      apply list_elem_of_singleton in Hnew as ->. by eexists.
    + intros q [= <-]. by right.
    + intros ip Hip. left. split; [done|]. intros ks k Hp Hk.
      exists ks. split; [|done]. by apply lookup_app_l_Some.
    + settled_old.
Qed.

Lemma l_whenReady s :
  LInv s ->
  wp whenReady (fun t s' => lkeeps s s' /\ free s' t) (fun _ => False) s.
Proof.
  intros Hinv. unfold wp, whenReady, bind, gets.
  destruct (_whenReady s) as [p|] eqn:Hr; simpl.
  { split; [by apply lkeeps_refl|by apply (linv_whenReady _ Hinv)]. }
  set (s' := set__whenReady _ _).
  assert (Hx : lext s s').
  { split; simpl; auto; try conserve.
    - rewrite length_app. lia.
    - intros q. apply resolving_mono; simpl; [|done].
      intros c Hc. exists c. by apply lookup_app_l_Some. }
  assert (Hf : free s' (length (promises s))).
  { split; simpl; [rewrite length_app; simpl; lia|].
    intros Hin. apply (linv_listening _ Hinv) in Hin as [Hlt _]. lia. }
  split; [split; [|done]|done].
  linv_step s Hinv Hx; auto.
  - intros p ks k [Hold|[_ Hnew]]%lookup_app_Some Hk; [left; eauto|].
    apply list_lookup_singleton_Some in Hnew as [_ [= <-]].
    by apply elem_of_nil in Hk.
  - intros t [= <-]. by right.
  - intros ip Hip. left. split; [done|]. intros ks k Hp Hk.
    exists ks. split; [|done]. by apply lookup_app_l_Some.
  - intros t [Hold|Hnew]%elem_of_app; [by left|right].
    by apply list_elem_of_singleton in Hnew as ->.
  - settled_old.
Qed.

Lemma l_open_whenSpawnedBarrier s :
  LInv s -> wp open_whenSpawnedBarrier (fun _ => lkeeps s) (fun _ => False) s.
Proof.
  intros Hinv. unfold wp, open_whenSpawnedBarrier, Barrier.open, enqueue, modify.
  set (s' := set_microtasks _ _).
  assert (Hx : lext s s').
  { split; simpl; auto; try conserve.
    intros q. apply resolving_mono; simpl; [eauto|].
    intros j Hj. apply elem_of_app. by left. }
  split; [|done].
  linv_step s Hinv Hx; eauto; try same_listening.
  - intros k c [Hold|Hnew]%elem_of_app; [by left|right].
    apply list_elem_of_fmap in Hnew as (k0 & [= -> ->] & Hk).
    destruct (linv_waiters _ Hinv _ Hk) as (q & -> & Hq).
    split; [|split; [done|by intros ? [= <-]]].
    intros t [= <-]. apply (free_lext s); [done|]. by apply Hinv.
  - intros k Hk. by apply elem_of_nil in Hk.
Qed.

Lemma l_spawn s env :
  LInv s -> wp (spawn env) (fun _ => lkeeps s) (lkeeps s) s.
Proof.
  intros Hinv. unfold spawn.
  eapply wp_lkeeps_seq; [by apply lkeeps_refl| |].
  - apply framed_lkeeps; [|done]. apply framed_modify. intros s0. split; simpl; try done.
    exists []. by rewrite app_nil_r.
  - intros _ s1 H1 _. apply wp_lkeeps_last; [done|].
    apply wp_total, l_open_whenSpawnedBarrier. lk.
Qed.

Lemma l_connect s :
  LInv s -> wp connect (fun p s' => lkeeps s s' /\ free s' p) (lkeeps s) s.
Proof.
  intros Hinv. unfold connect.
  eapply wp_lkeeps_bind; [by apply lkeeps_refl|apply wp_total, l_newPromise, Hinv|].
  intros p s1 H1 _ [Hp _].
  eapply wp_lkeeps_bind; [done|apply wp_total, l_whenIpcReady; lk|].
  intros q s2 H2 H02 Hq.
  eapply wp_lkeeps_seq; [done| |].
  - apply wp_total, l_await; [lk| |done|].
    + apply (linv_memo s2); [lk|done].
    + intros t [= <-]. lk.
  - intros _ s3 H3 H03. apply wp_ret. split; [done|]. lk.
Qed.

Lemma l_toggle s :
  LInv s -> wp toggle (fun p s' => lkeeps s s' /\ free s' p) (lkeeps s) s.
Proof.
  intros Hinv. unfold toggle.
  eapply wp_lkeeps_bind; [by apply lkeeps_refl|apply wp_total, l_newPromise, Hinv|].
  intros p s1 H1 _ [Hp _].
  eapply wp_lkeeps_bind; [done|apply wp_total, l_whenIpcReady; lk|].
  intros q s2 H2 H02 Hq.
  eapply wp_lkeeps_seq; [done| |].
  - apply wp_total, l_await; [lk| |done|].
    + apply (linv_memo s2); [lk|done].
    + intros t [= <-]. lk.
  - intros _ s3 H3 H03. apply wp_ret. split; [done|]. lk.
Qed.

Lemma l_onCreateSharedProcessMessageChannel s nonce :
  LInv s ->
  wp (onCreateSharedProcessMessageChannel nonce) (fun _ => lkeeps s) (lkeeps s) s.
Proof.
  intros Hinv. unfold onCreateSharedProcessMessageChannel, trace.
  eapply wp_lkeeps_seq; [by apply lkeeps_refl|by apply wp_total, l_emit|].
  intros _ s1 H1 _.
  eapply wp_lkeeps_bind; [done|apply wp_total, l_whenReady; lk|].
  intros p s2 H2 H02 Hp.
  apply wp_lkeeps_last; [done|]. apply wp_total, l_await; [lk|done|done|].
  by intros t.
Qed.

Lemma l_channel_ready s nonce c :
  LInv s -> wp (channel_ready nonce c) (fun _ => lkeeps s) (lkeeps s) s.
Proof.
  intros Hinv. unfold channel_ready.
  destruct c as [v|e]; [|by apply wp_ret, lkeeps_refl].
  eapply wp_lkeeps_bind; [by apply lkeeps_refl|apply l_connect, Hinv|].
  intros p s1 H1 _ Hp.
  apply wp_lkeeps_last; [done|]. apply wp_total, l_await; [lk|done|done|].
  by intros t.
Qed.

Lemma l_channel_port s nonce c :
  LInv s -> port_ok s c ->
  wp (channel_port nonce c) (fun _ => lkeeps s) (lkeeps s) s.
Proof.
  intros Hinv Hc. unfold channel_port.
  destruct c as [[| |port|]|e]; try by apply wp_ret, lkeeps_refl.
  apply wp_total, l_emit; [done| |done]. by intros ? ? [= _ <-].
Qed.

Lemma l_createWindow s :
  LInv s -> wp createWindow (fun _ => lkeeps s) (fun _ => False) s.
Proof.
  intros Hinv.
  unfold wp, createWindow, new_BrowserWindow, loadURL, update_window, emit, bind,
    gets, modify, ret. simpl.
  set (s' := set_log _ _).
  assert (Hx : lext s s').
  { split; simpl; auto; try conserve.
    eapply (observed_app _ _ [_; _]).
    - simpl. by rewrite <- app_assoc.
    - intros [H|[H|H]%elem_of_cons]%elem_of_cons; [done|done|].
      by apply elem_of_nil in H. }
  split; [|done]. linv_step s Hinv Hx; eauto; try same_listening.
  intros nonce n [[H|H]%elem_of_app|H]%elem_of_app; [by left| |];
    by apply list_elem_of_singleton in H.
Qed.

(** The body of [whenIpcReady] registers its listener and waits on the
    listener's promise. *)
Lemma l_listen s q :
  LInv s -> _whenIpcReady s = Some q ->
  wp (ip <- newPromise;;
      modify (fun s => set_onceIpcReady (onceIpcReady s ++ [ip]) s);;
      await ip (K_whenIpcReady_signalled q);;
      ret None)
     (fun r s' => lkeeps s s' /\ r = @None Value) (fun _ => False) s.
Proof.
  intros Hinv Hq.
  assert (Hl : (promises s ++ [Pending []]) !! length (promises s) = Some (Pending [])).
  { rewrite lookup_app_r by lia. by rewrite Nat.sub_diag. }
  unfold wp, bind, newPromise, modify, await, ret. simpl. rewrite Hl. simpl.
  set (s' := set_promises _ _).
  pose proof (linv_memo _ Hinv _ Hq) as [Hqlt Hqn].
  assert (Hx : lext s s').
  { split; simpl; auto; try conserve.
    - rewrite length_insert, length_app. lia.
    - intros ip [Hold|Hnew]%elem_of_app; [by left|right].
      apply list_elem_of_singleton in Hnew as ->. done.
    - intros q0. apply resolving_mono; simpl; [|done].
      intros c Hc. exists c. pose proof (lookup_lt_Some _ _ _ Hc).
      rewrite list_lookup_insert_ne by lia. by apply lookup_app_l_Some.
    - intros p ks k Hp Hk. left. exists ks. split; [|done].
      pose proof (lookup_lt_Some _ _ _ Hp).
      rewrite list_lookup_insert_ne by lia. by apply lookup_app_l_Some. }
  assert (Hf : free s' q).
  { split; simpl; [rewrite length_insert, length_app; lia|].
    intros [Hold|Hnew]%elem_of_app; [done|].
    apply list_elem_of_singleton in Hnew. lia. }
  split; [split; [|done]|done].
  linv_step s Hinv Hx; auto.
  - intros p ks k Hp Hk. destruct (decide (p = length (promises s))) as [->|Hne].
    + right. rewrite list_lookup_insert_eq in Hp by (rewrite length_app; simpl; lia).
      injection Hp as <-. apply list_elem_of_singleton in Hk as ->.
      split; [done|]. by intros t [= <-].
    + left. rewrite list_lookup_insert_ne in Hp by done.
      apply lookup_app_Some in Hp as [Hold|[Hle Hnew]]; [eauto|].
      apply list_lookup_singleton_Some in Hnew as [Hz _]. lia.
  - intros ip [Hold|Hnew]%elem_of_app.
    + left. split; [done|]. intros ks k Hp Hk. exists ks. split; [|done].
      pose proof (lookup_lt_Some _ _ _ Hp).
      rewrite list_lookup_insert_ne by lia. by apply lookup_app_l_Some.
    + right. apply list_elem_of_singleton in Hnew as ->.
      split; [rewrite length_insert, length_app; simpl; lia|].
      exists q, [K_whenIpcReady_signalled q]. split; [done|]. split.
      * by rewrite list_lookup_insert_eq by (rewrite length_app; simpl; lia).
      * by apply list_elem_of_singleton.
  - intros p c Hp. left. destruct (decide (p = length (promises s))) as [->|Hne].
    + by rewrite list_lookup_insert_eq in Hp by (rewrite length_app; simpl; lia).
    + rewrite list_lookup_insert_ne in Hp by done.
      apply lookup_app_Some in Hp as [Hold|[_ Hnew]]; [done|].
      by apply list_lookup_singleton_Some in Hnew as [_ [=]].
Qed.

Lemma l_whenIpcReady_spawned s q c :
  LInv s -> _whenIpcReady s = Some q ->
  wp (whenIpcReady_spawned q c) (fun r s' => lkeeps s s' /\ r = None) (lkeeps s) s.
Proof.
  intros Hinv Hq. unfold whenIpcReady_spawned.
  eapply wp_lkeeps_seq; [by apply lkeeps_refl| |].
  { apply framed_lkeeps; [apply framed_resume|done]. }
  intros _ s1 H1 _.
  eapply wp_lkeeps_seq; [done|apply wp_total, l_createWindow; lk|].
  intros _ s2 H2 H02.
  eapply wp_lkeeps_seq; [done| |].
  { apply framed_lkeeps; [apply framed_registerWindowListeners|lk]. }
  intros _ s3 H3 H03.
  eapply wp_mono; [apply (l_listen s3 q); lk| |done].
  simpl. intros r s4 [H4 Hr]. split; [lk|done].
Qed.

Lemma l_enqueue_thenable s p t :
  LInv s -> free s p ->
  wp (enqueue [(K_resolveThenable p t, Normal VUndefined)]) (fun _ => lkeeps s)
     (fun _ => False) s.
Proof.
  intros Hinv Hp. unfold wp, enqueue, modify. set (s' := set_microtasks _ _).
  assert (Hx : lext s s').
  { split; simpl; auto; try conserve.
    intros q. apply resolving_mono; simpl; [eauto|].
    intros j Hj. apply elem_of_app. by left. }
  split; [|done].
  linv_step s Hinv Hx; eauto; try same_listening.
  intros k' c' [Hold|Hnew]%elem_of_app; [by left|right].
  apply list_elem_of_singleton in Hnew as [= -> ->].
  split; [by intros t' [= <-]|]. by split.
Qed.

Lemma l_resolve s p v :
  LInv s -> free s p -> port_ok s (Normal v) ->
  wp (resolve p v) (fun _ => lkeeps s) (fun _ => False) s.
Proof.
  intros Hinv Hp Hv.
  destruct v as [|b|port|t]; simpl; try by apply l_enqueue_thenable.
  all: eapply wp_mono; [by apply l_settle| |done]; simpl; tauto.
Qed.

(** One segment of an [async] function whose promise is free. *)
Lemma l_async_segment s p (body : M (option Value)) :
  LInv s -> free s p ->
  wp body (fun r s' => lkeeps s s' /\ forall v, r = Some v -> port_ok s' (Normal v))
     (lkeeps s) s ->
  wp (async_segment p body) (fun _ => lkeeps s) (fun _ => False) s.
Proof.
  intros Hinv Hp. unfold wp, async_segment.
  destruct (body s) as [[[v|]|e] s1]; [intros [H1 Hv]|by intros [? _]|intros H1].
  - pose proof (l_resolve s1 p v (lk_inv _ _ H1) (lkeeps_free _ _ _ H1 Hp)
                  (Hv v eq_refl)) as H.
    unfold wp in H. destruct (resolve p v s1) as [[[]|] s2]; [|done].
    by eapply lkeeps_trans.
  - pose proof (l_settle s1 p (Throw e) (lk_inv _ _ H1) (lkeeps_free _ _ _ H1 Hp) I) as H.
    unfold wp in H. destruct (settle p (Throw e) s1) as [[[]|] s2]; [|done].
    destruct H as [H2 _]. by eapply lkeeps_trans.
Qed.

(** A channel on its way: its promise is free and its port allocated. *)
Lemma l_add_channel s t port :
  LInv s -> free s t -> port < nextPort s ->
  wp (modify (fun s => set_channels (channels s ++ [(t, port)]) s)) (fun _ => lkeeps s)
     (fun _ => False) s.
Proof.
  intros Hinv Ht Hport. unfold wp, modify. set (s' := set_channels _ _).
  assert (Hx : lext s s') by (split; simpl; auto; conserve).
  split; [|done].
  linv_step s Hinv Hx; eauto; try same_listening.
  intros t' n [Hold|Hnew]%elem_of_app; [by left|right].
  by apply list_elem_of_singleton in Hnew as [= -> ->].
Qed.

Lemma l_drop_channel s i :
  LInv s ->
  wp (modify (set_channels (delete i (channels s)))) (fun _ => lkeeps s)
     (fun _ => False) s.
Proof.
  intros Hinv. unfold wp, modify. set (s' := set_channels _ _).
  assert (Hx : lext s s') by (split; simpl; auto; conserve).
  split; [|done].
  linv_step s Hinv Hx; eauto; try same_listening.
  intros t n Hc. left. by apply list_elem_of_delete_inv in Hc.
Qed.

Lemma l_connectMessagePort s wid :
  LInv s -> wp (connectMessagePort wid) (fun _ => lkeeps s) (lkeeps s) s.
Proof.
  intros Hinv. unfold connectMessagePort. apply wp_bind, wp_gets.
  eapply (wp_lkeeps_bind _ _ _ _ (fun _ s1 => nextPort s < nextPort s1));
    [by apply lkeeps_refl| |].
  { unfold wp, modify. split; [|simpl; lia].
    apply pframe_lkeeps; [|done]. split; simpl; try done.
    - exists []. by rewrite app_nil_r.
    - lia. }
  intros _ s1 H1 _ Hn1.
  eapply wp_lkeeps_seq; [done| |].
  { unfold webContents_send. apply wp_total, l_emit; [done|done|lk]. }
  intros _ s2 H2 H02.
  eapply wp_lkeeps_bind; [done|apply wp_total, l_newPromise; lk|].
  intros t s3 H3 H03 [Ht _].
  eapply wp_lkeeps_seq; [done| |].
  { apply wp_total, l_add_channel; [lk|done|].
    pose proof (lext_nextPort _ _ (lk_ext _ _ H2)).
    pose proof (lext_nextPort _ _ (lk_ext _ _ H3)). lia. }
  intros _ s4 H4 H04. by apply wp_ret.
Qed.

(** [connect()] hands over the promise of the channel being established. *)
Lemma l_connect_resumed c s :
  LInv s ->
  wp (connect_resumed c)
     (fun r s' => lkeeps s s' /\ forall v, r = Some v -> port_ok s' (Normal v))
     (lkeeps s) s.
Proof.
  intros Hinv. unfold connect_resumed.
  destruct c as [v|e]; [|by apply lkeeps_refl].
  apply wp_bind, wp_ret. apply wp_bind, wp_gets.
  destruct (window s) as [wid|]; [|by apply lkeeps_refl].
  apply wp_bind. unfold webContents_isDestroyed. apply wp_gets.
  destruct (match windows s !! wid with Some b => bw_destroyed b | None => true end);
    [by apply lkeeps_refl|].
  apply wp_bind. eapply wp_mono; [by apply l_connectMessagePort| |done].
  simpl. intros t s' H. split; [done|]. by intros v' [= <-].
Qed.

(** A channel is established: the promise of its port is fulfilled. *)
Lemma l_on_channelEstablished s i :
  LInv s -> wp (on_channelEstablished i) (fun _ => lkeeps s) (lkeeps s) s.
Proof.
  intros Hinv. unfold on_channelEstablished. apply wp_bind, wp_gets.
  destruct (channels s !! i) as [[t port]|] eqn:Hi; [|by apply wp_ret, lkeeps_refl].
  apply list_elem_of_lookup_2 in Hi. apply (linv_channels _ Hinv) in Hi as [Ht Hport].
  eapply wp_lkeeps_seq; [by apply lkeeps_refl|by apply wp_total, l_drop_channel|].
  intros _ s1 H1 _. apply wp_lkeeps_last; [done|].
  apply wp_total. eapply wp_mono; [apply l_settle| |done].
  - lk.
  - lk.
  - simpl. pose proof (lext_nextPort _ _ (lk_ext _ _ H1)). lia.
  - simpl. tauto.
Qed.

Lemma wp_then_ret {A B} (m : M A) (b : B) (Q : B -> Prop) s :
  Q b -> wp (bind m (fun _ => ret b)) (fun r _ => Q r) (fun _ => True) s.
Proof. intros Hb. unfold wp, bind, ret. by destruct (m s) as [[a|e] s']. Qed.

Lemma toggle_resumed_value c s :
  wp (toggle_resumed c) (fun r _ => r = Some VUndefined) (fun _ => True) s.
Proof.
  unfold toggle_resumed. destruct c as [v|e]; [|done].
  apply wp_bind, wp_ret. apply wp_bind, wp_gets.
  destruct (window s) as [wid|]; [|done].
  apply wp_bind. unfold isVisible. apply wp_gets. by apply wp_then_ret.
Qed.

(** The last segment of [whenIpcReady] settles its promise and queues what
    waited on it. *)
Lemma l_whenIpcReady_signalled s q c :
  LInv s -> free s q ->
  wp (async_segment q (whenIpcReady_signalled c))
     (fun _ s' => lkeeps s s' /\ settled s' q /\
        forall ks k, promises s !! q = Some (Pending ks) -> k ∈ ks ->
                     exists c', (k, c') ∈ microtasks s')
     (fun _ => False) s.
Proof.
  intros Hinv Hq. unfold wp, async_segment, whenIpcReady_signalled, resume.
  destruct c as [v|e]; unfold bind, ret, throw.
  - pose proof (l_settle s q (Normal VUndefined) Hinv Hq I) as H.
    unfold wp in H. change (resolve q VUndefined s) with (settle q (Normal VUndefined) s).
    destruct (settle q (Normal VUndefined) s) as [[[]|] s2]; [|done].
    destruct H as (H1 & H2 & H3). eauto.
  - pose proof (l_settle s q (Throw e) Hinv Hq I) as H.
    unfold wp in H. destruct (settle q (Throw e) s) as [[[]|] s2]; [|done].
    destruct H as (H1 & H2 & H3). eauto.
Qed.

Lemma l_run_job s k c :
  LInv s -> cont_ok s k -> port_ok s c ->
  (forall q, k = K_whenIpcReady_spawned q -> _whenIpcReady s = Some q) ->
  wp (run_job (k, c)) (fun _ => lkeeps s) (lkeeps s) s.
Proof.
  intros Hinv Hk Hc Hq.
  destruct k as [p|p|p|p|nonce|nonce|p t|p]; unfold run_job.
  - apply wp_total, l_async_segment; [done|by apply Hk|].
    eapply wp_mono; [apply l_whenIpcReady_spawned; auto| |done].
    simpl. intros r s' [H ->]. by split.
  - eapply wp_mono; [apply l_whenIpcReady_signalled; [done|by apply Hk]| |done].
    simpl. tauto.
  - apply wp_total, l_async_segment; [done|by apply Hk|].
    by apply l_connect_resumed.
  - apply wp_total, l_async_segment; [done|by apply Hk|].
    eapply wp_mono;
      [exact (wp_conj _ _ _ _ _ _ (framed_toggle_resumed c s) (toggle_resumed_value c s))
      | |]; simpl.
    + intros r s' [H ->]. split; [by apply pframe_lkeeps|]. by intros v [= <-].
    + intros s' [H _]. by apply pframe_lkeeps.
  - by apply l_channel_ready.
  - by apply l_channel_port.
  - apply wp_total, l_then; [done|done|]. intros t' [= <-]. by apply Hk.
  - apply wp_total. eapply wp_mono; [apply l_settle; [done|by apply Hk|done]| |done].
    simpl. tauto.
Qed.

(** *** The worker's signals *)

Lemma LInv_trace s msg : LInv s -> LInv (set_log (log s ++ [ETrace msg]) s).
Proof.
  intros [W1 W2 W3 W4 W5 W6 W7 W8 W9 W10 W11 W12]. split; try done.
  simpl. intros nonce n [H|H]%elem_of_app; [by eapply W11|].
  by apply list_elem_of_singleton in H.
Qed.

(** Firing the init-done listeners. *)
Lemma l_fire_initDone ps : forall s0 s,
  lkeeps s0 s -> (forall t, t ∈ ps -> free s t) ->
  wp (fire_once overallReadyMsg ps) (fun _ => lkeeps s0) (lkeeps s0) s.
Proof.
  induction ps as [|t ps IH]; intros s0 s H0 Hps; simpl.
  { by apply wp_ret. }
  unfold trace.
  eapply wp_lkeeps_seq; [done|apply wp_total, l_emit; [done|done|lk]|].
  intros _ s1 H1 H01.
  eapply wp_lkeeps_seq; [done| |].
  { apply wp_total. eapply wp_mono; [apply l_settle; [lk| |done]| |done].
    - eapply lkeeps_free; [exact H1|]. apply Hps. by left.
    - simpl. tauto. }
  intros _ s2 H2 H02. apply IH; [done|].
  intros t' Ht'. eapply lkeeps_free; [exact H2|].
  eapply lkeeps_free; [exact H1|]. apply Hps. by right.
Qed.

Lemma l_on_initDone s :
  LInv s -> wp on_initDone (fun _ => lkeeps s) (lkeeps s) s.
Proof.
  intros Hinv. unfold on_initDone. apply wp_bind, wp_gets.
  apply wp_bind. unfold wp at 1, modify.
  set (s' := set_onceInitDone [] s).
  assert (Hx : lext s s') by (split; simpl; auto; conserve).
  assert (H1 : lkeeps s s').
  { split; [|done]. linv_step s Hinv Hx; eauto; try same_listening.
    intros t Ht. by apply elem_of_nil in Ht. }
  apply l_fire_initDone; [done|].
  intros t Ht. eapply lkeeps_free; [exact H1|]. by apply (linv_initDone _ Hinv).
Qed.

(** Firing ipc-ready listeners once the memoized promise is on its way. *)
Lemma l_fire_resolving msg ps : forall s q,
  LInv s -> (forall ip, ip ∈ ps -> free s ip) ->
  _whenIpcReady s = Some q -> resolving s q ->
  wp (fire_once msg ps)
     (fun _ s' => LInv s' /\ _whenIpcReady s' = Some q /\ resolving s' q)
     (fun _ => False) s.
Proof.
  induction ps as [|ip ps IH]; intros s q Hinv Hps Hq Hr; simpl.
  { by apply wp_ret. }
  unfold trace, emit. apply wp_bind. unfold wp at 1, modify.
  set (s1 := set_log _ s).
  assert (H1 : LInv s1) by by apply LInv_trace.
  assert (Hf1 : forall t, free s t -> free s1 t) by done.
  apply wp_bind. eapply wp_mono; [apply (l_settle s1 ip); [done| |done]| |done].
  { apply Hf1, Hps. by left. }
  simpl. intros _ s2 ([H2 Hx2] & _ & _).
  apply IH; [done| | |].
  - intros t Ht. apply (free_lext s1); [done|]. apply Hf1, Hps. by right.
  - by apply Hx2.
  - by apply Hx2.
Qed.

Lemma l_on_ipcReady s : Ready s -> Ready (exec on_ipcReady s).
Proof.
  intros [Hinv Ha].
  set (s0 := set_onceIpcReady [] s).
  assert (Hx : lext s s0).
  { split; simpl; auto; try conserve. intros ip Hip. by apply elem_of_nil in Hip. }
  assert (H0 : LInv s0).
  { linv_step s Hinv Hx; eauto. intros ip Hip. by apply elem_of_nil in Hip. }
  assert (Hf : forall t, t < length (promises s) -> free s0 t).
  { intros t Ht. split; [done|]. simpl. intros Hin. by apply elem_of_nil in Hin. }
  destruct (onceIpcReady s) as [|ip ps] eqn:Hps.
  { unfold exec, on_ipcReady, bind, gets, modify. rewrite Hps. simpl.
    fold s0. split; [done|]. intros Ho.
    destruct (Ha Ho) as (q & Hq & Hr). exists q. split; [done|by apply Hx]. }
  destruct (linv_listening _ Hinv ip) as (Hlt & q & ks & Hq & Hp & Hk).
  { rewrite Hps. by left. }
  assert (Hw : wp on_ipcReady
    (fun _ s' => LInv s' /\ _whenIpcReady s' = Some q /\ resolving s' q)
    (fun _ => False) s).
  { unfold on_ipcReady. apply wp_bind, wp_gets. rewrite Hps.
    apply wp_bind. unfold wp at 1, modify. fold s0. simpl.
    unfold trace, emit. apply wp_bind. unfold wp at 1, modify.
    set (s1 := set_log _ s0).
    assert (H1 : LInv s1) by by apply LInv_trace.
    apply wp_bind. eapply wp_mono; [apply (l_settle s1 ip); [done|by apply Hf|done]| |done].
    simpl. intros _ s2 ([H2 Hx2] & _ & Hjobs).
    apply l_fire_resolving; [done| | |].
    - intros t Ht. apply (free_lext s1); [done|]. apply Hf.
      apply (linv_listening _ Hinv). rewrite Hps. by right.
    - by apply Hx2.
    - right. exists (Normal VUndefined). by apply (Hjobs ks). }
  apply wp_total with
    (E := fun s' => LInv s' /\ _whenIpcReady s' = Some q /\ resolving s' q) in Hw.
  apply wp_exec in Hw. destruct Hw as (H1 & H2 & H3).
  split; [done|]. intros _. by exists q.
Qed.

(** *** Every event keeps the listener's invariant *)

(** Running a job: besides keeping the invariant, the last segment of
    [whenIpcReady] settles the memoized promise and queues its reactions. *)
Lemma l_run_job_settles s k c :
  LInv s -> cont_ok s k -> port_ok s c ->
  (forall q, k = K_whenIpcReady_spawned q -> _whenIpcReady s = Some q) ->
  lkeeps s (exec (run_job (k, c)) s) /\
  forall q, k = K_whenIpcReady_signalled q ->
    settled (exec (run_job (k, c)) s) q /\
    forall ks k', promises s !! q = Some (Pending ks) -> k' ∈ ks ->
      exists c', (k', c') ∈ microtasks (exec (run_job (k, c)) s).
Proof.
  intros Hinv Hk Hc Hsp.
  destruct (match k with K_whenIpcReady_signalled _ => true | _ => false end) eqn:Hsig.
  - destruct k as [|p| | | | | |]; try done.
    pose proof (l_whenIpcReady_signalled s p c Hinv (Hk p eq_refl)) as Hw.
    apply wp_total with
      (E := fun s' => lkeeps s s' /\ settled s' p /\
         forall ks k, promises s !! p = Some (Pending ks) -> k ∈ ks ->
                      exists c', (k, c') ∈ microtasks s') in Hw.
    apply wp_exec in Hw. destruct Hw as (H1 & H2 & H3).
    split; [done|]. by intros q [= <-].
  - pose proof (l_run_job s k c Hinv Hk Hc Hsp) as Hw. apply wp_exec in Hw.
    split; [done|]. intros q ->. done.
Qed.

Lemma l_pop s k c rest :
  LInv s -> microtasks s = (k, c) :: rest ->
  LInv (set_microtasks rest s) /\ cont_ok (set_microtasks rest s) k /\
  port_ok (set_microtasks rest s) c /\
  (forall q, k = K_whenIpcReady_spawned q ->
     _whenIpcReady (set_microtasks rest s) = Some q).
Proof.
  intros Hinv Hq. split; [|split; [|split]].
  - destruct Hinv as [W1 W2 W3 W4 W5 W6 W7 W8 W9 W10 W11]. split; simpl; try done.
    + intros k' c' H. apply (W1 k' c'). rewrite Hq. by right.
    + intros q c' H. apply (W6 q c'). rewrite Hq. by right.
    + intros k' c' H. apply (W10 k' c'). rewrite Hq. by right.
  - apply (linv_jobs _ Hinv k c). rewrite Hq. by left.
  - apply (linv_job_ports _ Hinv k c). rewrite Hq. by left.
  - intros q ->. apply (linv_spawned _ Hinv q c). rewrite Hq. by left.
Qed.

Lemma l_microtask s j rest :
  Ready s -> microtasks s = j :: rest -> Ready (step E_microtask s).
Proof.
  intros [Hinv Ha] Hq. rewrite (step_microtask_cons s j rest Hq).
  destruct j as [k c].
  destruct (l_pop s k c rest Hinv Hq) as (H0 & Hk & Hc & Hsp).
  assert (Hrest : forall q, resolving s q ->
            resolving (set_microtasks rest s) q \/ k = K_whenIpcReady_signalled q).
  { intros q [Hs|[c' Hc']]; [left; by left|]. rewrite Hq in Hc'.
    apply elem_of_cons in Hc' as [[= <- <-]|Hin]; [by right|].
    left. right. by exists c'. }
  destruct (l_run_job_settles _ k c H0 Hk Hc Hsp) as [[H1 Hx1] Hset].
  revert H1 Hx1 Hset. generalize (exec (run_job (k, c)) (set_microtasks rest s)).
  intros s1 H1 Hx1 Hset. split; [done|]. intros Ho.
  destruct (Ha (lext_log _ _ Hx1 Ho)) as (q & Hmq & Hr).
  exists q. split; [by apply Hx1|].
  destruct (Hrest q Hr) as [Hr0| ->]; [by apply Hx1|]. left. by apply Hset.
Qed.

Lemma init_Ready mid env sv : Ready (init mid env sv).
Proof.
  split.
  - split; simpl; try done; intros; by match goal with
      | H : _ ∈ [] |- _ => apply elem_of_nil in H end.
  - intros H. by apply elem_of_nil in H.
Qed.

Lemma step_Ready ev s : Ready s -> Ready (step ev s).
Proof.
  intros Hr. pose proof Hr as [Hinv Ha].
  assert (Hk : forall {A} (m : M A),
    wp m (fun _ => lkeeps s) (lkeeps s) s -> Ready (exec m s)).
  { intros A m Hm. apply wp_exec in Hm. by apply (lkeeps_Ready s). }
  destruct ev as [env| | | |nonce|i| | | | |throws|wid|wid].
  - apply Hk. by apply l_spawn.
  - apply Hk. eapply wp_mono; [by apply l_connect| |done]. simpl; tauto.
  - apply Hk. eapply wp_mono; [by apply l_toggle| |done]. simpl; tauto.
  - apply Hk. eapply wp_mono; [by apply wp_total, l_whenReady| |done]. simpl; tauto.
  - apply Hk. by apply l_onCreateSharedProcessMessageChannel.
  - apply Hk. by apply l_on_channelEstablished.
  - by apply l_on_ipcReady.
  - apply Hk. by apply l_on_initDone.
  - apply Hk. apply framed_lkeeps; [apply framed_onWillShutdown|done].
  - destruct (microtasks s) as [|j q] eqn:Hq.
    { simpl. by rewrite Hq. }
    by apply (l_microtask s j q).
  - simpl. destruct (timers s) as [|[wid] ts] eqn:Ht; [done|].
    assert (Hf : pframe s (set_timers ts s)).
    { split; try done. exists []. by rewrite app_nil_r. }
    apply pframe_lkeeps in Hf; [|done].
    pose proof (framed_lkeeps _ _ (framed_onWillShutdown_timeout wid throws)
                  (lk_inv _ _ Hf)) as Hm.
    apply wp_exec in Hm. apply (lkeeps_Ready s); [done|]. by eapply lkeeps_trans.
  - apply Hk. apply framed_lkeeps; [apply framed_emit_close|done].
  - apply Hk. apply framed_lkeeps; [apply framed_update_window|done].
Qed.

Lemma reachable_Ready s : reachable s -> Ready s.
Proof.
  apply reachable_ind; [apply init_Ready|].
  intros ev s' _ H. by apply step_Ready.
Qed.

(** Once the worker's ipc-ready signal has been observed and the microtask
    queue has drained, the promise memoized by [whenIpcReady] is settled. *)
Lemma ipcReady_settles s :
  reachable s -> ipcReady_observed s -> microtasks s = [] ->
  exists q, _whenIpcReady s = Some q /\ settled s q.
Proof.
  intros Hs Ho Hq. destruct (reachable_Ready s Hs) as [_ Ha].
  destruct (Ha Ho) as (q & Hm & [Hr|[c Hc]]); [by exists q|].
  rewrite Hq in Hc. by apply elem_of_nil in Hc.
Qed.


(** * The specification, statement by statement *)

(** ** C1: the window is created once *)

Lemma whenIpcReady_total_spec s :
  PInv s ->
  exists q s', whenIpcReady s = (Ok q, s') /\ keeps s s' /\ _whenIpcReady s' = Some q.
Proof.
  intros Hinv. destruct (wp_returns _ _ _ (whenIpcReady_spec s Hinv)) as (q & s' & Heq & H).
  exists q, s'. tauto.
Qed.

(** C1.  In every state the coordinator can reach, [createWindow] has run at
    most once and the close listener has been registered at most once.  Once
    [whenIpcReady] has been accessed, every further access, whoever makes it
    and whatever happens in between, returns the promise memoized by the
    first one and changes nothing; a first access memoizes its promise and
    creates no window by itself.  When the barrier is open and the milestone
    has been accessed, the window has been created exactly once as soon as
    the microtasks queued at that moment have run. *)
Theorem C1_window_created_once (s : State) :
  reachable s ->
  creations s <= 1 /\
  veto_registrations (log s) <= 1 /\
  (forall p, _whenIpcReady s = Some p ->
     whenIpcReady s = (Ok p, s) /\
     forall evs, _whenIpcReady (run evs s) = Some p /\ creations (run evs s) <= 1) /\
  (exists p s', whenIpcReady s = (Ok p, s') /\ _whenIpcReady s' = Some p /\
                creations s' = creations s) /\
  (barrier_open s -> _whenIpcReady s <> None ->
     creations (run (repeat E_microtask (length (microtasks s))) s) = 1).
Proof.
  intros Hs. pose proof (reachable_Inv s Hs) as Hinv.
  pose proof (reachable_WInv s Hs) as Hw.
  pose proof (creations_le s Hinv) as Hle.
  split; [done|]. split; [by rewrite (winv_registrations _ Hw)|].
  split; [|split].
  - intros p Hp. split.
    + unfold whenIpcReady, bind, gets. by rewrite Hp.
    + intros evs. destruct (run_Inv evs s Hinv) as (Hi & Hx & _).
      split; [by apply (ext_whenIpcReady _ _ Hx)|by apply creations_le].
  - destruct (whenIpcReady_total_spec s (inv_heap _ Hinv)) as (q & s' & Heq & Hk & Hq).
    exists q, s'. split; [done|]. split; [done|]. apply (keeps_creations _ _ Hk).
  - by apply created_after_queue.
Qed.

Lemma C1_window_created_once_witness :
  reachable demo_live /\
  creations demo_live <= 1 /\
  veto_registrations (log demo_live) <= 1 /\
  (forall p, _whenIpcReady demo_live = Some p ->
     whenIpcReady demo_live = (Ok p, demo_live) /\
     forall evs, _whenIpcReady (run evs demo_live) = Some p /\
                 creations (run evs demo_live) <= 1) /\
  (exists p s', whenIpcReady demo_live = (Ok p, s') /\ _whenIpcReady s' = Some p /\
                creations s' = creations demo_live) /\
  (barrier_open demo_live -> _whenIpcReady demo_live <> None ->
     creations (run (repeat E_microtask (length (microtasks demo_live))) demo_live) = 1).
Proof.
  assert (H : reachable demo_live).
  { exists "machine", ∅, demo_services,
      [E_connect; E_spawn ∅; E_microtask; E_ipcReady; E_microtask; E_microtask].
    reflexivity. }
  split; [exact H | exact (C1_window_created_once demo_live H)].
Defined.

(** ** C2: a channel waits for the barrier and for ipc-ready *)

Lemma connect_total_spec s :
  PInv s -> exists p s', connect s = (Ok p, s') /\ keeps s s' /\ owned s' p.
Proof.
  intros Hinv. destruct (total_connect s) as (p & s' & Heq).
  pose proof (connect_spec s Hinv) as H. unfold wp in H. rewrite Heq in H.
  exists p, s'. tauto.
Qed.

Lemma wp_newPromise (Q : nat -> State -> Prop) E s :
  Q (length (promises s)) (set_promises (promises s ++ [Pending []]) s) ->
  wp newPromise Q E s.
Proof. done. Qed.

Lemma wp_await_settled q k c (Q : unit -> State -> Prop) E s :
  promises s !! q = Some (Settled c) ->
  Q tt (set_microtasks (microtasks s ++ [(k, c)]) s) ->
  wp (await q k) Q E s.
Proof. intros Hq HQ. unfold wp, await. by rewrite Hq. Qed.

Lemma wp_whenIpcReady_memo q (Q : nat -> State -> Prop) E s :
  _whenIpcReady s = Some q -> Q q s -> wp whenIpcReady Q E s.
Proof.
  intros Hq HQ. unfold whenIpcReady. apply wp_bind, wp_gets. by rewrite Hq.
Qed.

(** With [whenIpcReady] already settled, [connect] queues its continuation
    directly: it waits on no promise, on no barrier and for no signal. *)
Lemma connect_settled s q c :
  _whenIpcReady s = Some q -> promises s !! q = Some (Settled c) ->
  exists s', connect s = (Ok (length (promises s)), s') /\
    microtasks s' = microtasks s ++ [(K_connect (length (promises s)), c)] /\
    promises s' = promises s ++ [Pending []] /\
    Barrier.waiters (whenSpawnedBarrier s') = Barrier.waiters (whenSpawnedBarrier s) /\
    onceIpcReady s' = onceIpcReady s.
Proof.
  intros Hq Hc.
  assert (H : wp connect (fun p s' => p = length (promises s) /\
    microtasks s' = microtasks s ++ [(K_connect (length (promises s)), c)] /\
    promises s' = promises s ++ [Pending []] /\
    Barrier.waiters (whenSpawnedBarrier s') = Barrier.waiters (whenSpawnedBarrier s) /\
    onceIpcReady s' = onceIpcReady s) (fun _ => False) s).
  { unfold connect. apply wp_bind, wp_newPromise.
    apply wp_bind, (wp_whenIpcReady_memo q); [done|].
    apply wp_bind, (wp_await_settled q _ c); [by apply lookup_app_l_Some|].
    by apply wp_ret. }
  apply wp_returns in H as (p & s' & Heq & -> & H). by exists s'.
Qed.

(** A microtask at position [n] of the queue is the next one to run after
    [n] microtasks. *)
Lemma job_reaches_head n : forall s j,
  Inv s -> microtasks s !! n = Some j ->
  exists rest, microtasks (run (repeat E_microtask n) s) = j :: rest.
Proof.
  induction n as [|n IH]; intros s j Hs Hn;
    (destruct (microtasks s) as [|j0 q] eqn:Hq; [done|]).
  - injection Hn as ->. by exists q.
  - destruct (microtask_step s j0 q Hs Hq) as (H1 & _ & _ & (new & Hnew) & _).
    change (run (repeat E_microtask (S n)) s)
      with (run (repeat E_microtask n) (step E_microtask s)).
    apply IH; [done|]. rewrite Hnew. by apply lookup_app_l_Some.
Qed.

Lemma wp_await_pending q k ks (Q : unit -> State -> Prop) E s :
  promises s !! q = Some (Pending ks) ->
  Q tt (set_promises (<[q := Pending (ks ++ [k])]> (promises s)) s) ->
  wp (await q k) Q E s.
Proof. intros Hq HQ. unfold wp, await. by rewrite Hq. Qed.

(** With [whenIpcReady] still pending, [connect] waits on it, on nothing
    else. *)
Lemma connect_pending s q ks :
  _whenIpcReady s = Some q -> promises s !! q = Some (Pending ks) ->
  exists s', connect s = (Ok (length (promises s)), s') /\
    microtasks s' = microtasks s /\
    promises s' = <[q := Pending (ks ++ [K_connect (length (promises s))])]>
                    (promises s ++ [Pending []]) /\
    Barrier.waiters (whenSpawnedBarrier s') = Barrier.waiters (whenSpawnedBarrier s) /\
    onceIpcReady s' = onceIpcReady s.
Proof.
  intros Hq Hc.
  assert (H : wp connect (fun p s' => p = length (promises s) /\
    microtasks s' = microtasks s /\
    promises s' = <[q := Pending (ks ++ [K_connect (length (promises s))])]>
                    (promises s ++ [Pending []]) /\
    Barrier.waiters (whenSpawnedBarrier s') = Barrier.waiters (whenSpawnedBarrier s) /\
    onceIpcReady s' = onceIpcReady s) (fun _ => False) s).
  { unfold connect. apply wp_bind, wp_newPromise.
    apply wp_bind, (wp_whenIpcReady_memo q); [done|].
    apply wp_bind, (wp_await_pending q _ ks); [by apply lookup_app_l_Some|].
    by apply wp_ret. }
  apply wp_returns in H as (p & s' & Heq & -> & H). by exists s'.
Qed.

(** One microtask: the queue loses its head and grows at its end; a
    reaction either stays on its pending promise or is queued; and the last
    segment of [whenIpcReady] queues the reactions of its promise. *)
Lemma microtask_progress s k c rest :
  Inv s -> LInv s -> microtasks s = (k, c) :: rest ->
  Inv (step E_microtask s) /\ LInv (step E_microtask s) /\
  length (promises s) <= length (promises (step E_microtask s)) /\
  (exists new, microtasks (step E_microtask s) = rest ++ new) /\
  (forall q ks k', promises s !! q = Some (Pending ks) -> k' ∈ ks ->
     (k = K_whenIpcReady_signalled q ->
        exists c', (k', c') ∈ microtasks (step E_microtask s)) /\
     ((exists ks', promises (step E_microtask s) !! q = Some (Pending ks') /\ k' ∈ ks') \/
      exists c', (k', c') ∈ microtasks (step E_microtask s))).
Proof.
  intros Hs Hl Hm.
  destruct (microtask_step s _ rest Hs Hm) as (H1 & Hx & _ & Hnew & _).
  destruct (l_pop s _ _ rest Hl Hm) as (H0 & Hk0 & Hc0 & Hsp).
  destruct (l_run_job_settles _ _ c H0 Hk0 Hc0 Hsp) as [[Hl1 Hx1] Hset].
  rewrite <- (step_microtask_cons s _ rest Hm) in Hl1, Hx1, Hset.
  split; [done|]. split; [done|]. split; [exact (ext_promises _ _ Hx)|].
  split; [done|]. intros q ks k' Hq Hk'. split.
  - intros ->. destruct (Hset q eq_refl) as [_ Hjobs]. by apply (Hjobs ks).
  - exact (lext_reactions _ _ Hx1 q ks k' Hq Hk').
Qed.

(** The last segment of [whenIpcReady] at position [n] of the queue, with
    [connect]'s continuation waiting on its promise: the queue alone brings
    the continuation of [connect] to its head. *)
Lemma signalled_job_runs n : forall s q p c ks,
  Inv s -> LInv s ->
  microtasks s !! n = Some (K_whenIpcReady_signalled q, c) ->
  promises s !! q = Some (Pending ks) -> K_connect p ∈ ks ->
  exists m c' rest, microtasks (run (repeat E_microtask m) s) = (K_connect p, c') :: rest.
Proof.
  assert (Hjob : forall s p c', Inv (step E_microtask s) ->
    (K_connect p, c') ∈ microtasks (step E_microtask s) ->
    exists m c'' rest,
      microtasks (run (repeat E_microtask m) s) = (K_connect p, c'') :: rest).
  { intros s p c' H1 [i Hi]%list_elem_of_lookup.
    destruct (job_reaches_head i _ _ H1 Hi) as [rest Hrest].
    by exists (S i), c', rest. }
  induction n as [|n IH]; intros s q p c ks Hs Hl Hn Hq Hk;
    (destruct (microtasks s) as [|[k0 c0] rest] eqn:Hm; [done|]).
  - injection Hn as -> ->.
    destruct (microtask_progress s _ _ rest Hs Hl Hm) as (H1 & _ & Hle & _ & Hr).
    destruct (Hr q ks _ Hq Hk) as [Hsig _]. destruct (Hsig eq_refl) as [c' Hc'].
    by apply (Hjob s p c').
  - simpl in Hn.
    destruct (microtask_progress s _ _ rest Hs Hl Hm) as (H1 & Hl1 & Hle & (new & Hnew) & Hr).
    destruct (Hr q ks _ Hq Hk) as [_ [(ks' & Hq' & Hk')|[c' Hc']]].
    + destruct (IH (step E_microtask s) q p c ks') as (m & c' & rest' & Hm'); try done.
      { rewrite Hnew. by apply lookup_app_l_Some. }
      by exists (S m), c', rest'.
    + by apply (Hjob s p c').
Qed.
(** C2.  A call of [connect()] returns a promise [p].  However the run goes
    on, [p] is not settled, neither with a channel nor with an error, before
    [spawn()] has opened the barrier and the worker's ipc-ready signal has
    been observed.  When the memoized [whenIpcReady] promise is already
    settled at the call, the call does not wait again: it registers no
    reaction, no barrier waiter and no ipc-ready listener, and its
    continuation is appended to the microtask queue directly, where it is the
    next to run once the microtasks queued before it have run.  When both the
    barrier opening and the ipc-ready signal have occurred at the call,
    [whenIpcReady] has been accessed, and its promise is settled as soon as
    the queue has drained; the call waits on no barrier and for no signal:
    running the microtask queue alone brings its continuation to the head of
    the queue, and on an empty queue the continuation is the one microtask
    queued by the call. *)
Theorem C2_connect_waits_for_gate (s : State) :
  reachable s ->
  exists p s1, connect s = (Ok p, s1) /\
    (forall evs, settled (run evs s1) p ->
       barrier_open (run evs s1) /\ ipcReady_observed (run evs s1)) /\
    (forall q c, _whenIpcReady s = Some q -> promises s !! q = Some (Settled c) ->
       microtasks s1 = microtasks s ++ [(K_connect p, c)] /\
       promises s1 = promises s ++ [Pending []] /\
       Barrier.waiters (whenSpawnedBarrier s1) = Barrier.waiters (whenSpawnedBarrier s) /\
       onceIpcReady s1 = onceIpcReady s /\
       exists rest,
         microtasks (run (repeat E_microtask (length (microtasks s))) s1)
         = (K_connect p, c) :: rest) /\
    (barrier_open s -> ipcReady_observed s ->
       (exists q, _whenIpcReady s = Some q /\ (microtasks s = [] -> settled s q)) /\
       Barrier.waiters (whenSpawnedBarrier s1) = Barrier.waiters (whenSpawnedBarrier s) /\
       onceIpcReady s1 = onceIpcReady s /\
       (exists n c rest,
          microtasks (run (repeat E_microtask n) s1) = (K_connect p, c) :: rest) /\
       (microtasks s = [] -> exists c, microtasks s1 = [(K_connect p, c)])).
Proof.
  intros Hs. pose proof (reachable_Inv s Hs) as [Hinv Hc].
  destruct (connect_total_spec s Hinv) as (p & s1 & Heq & Hk & Hown).
  assert (Hstep : s1 = step E_connect s).
  { simpl. unfold exec. by rewrite Heq. }
  assert (Hs1 : Inv s1).
  { rewrite Hstep. by apply step_Inv. }
  assert (H3 : forall q c, _whenIpcReady s = Some q ->
            promises s !! q = Some (Settled c) ->
       microtasks s1 = microtasks s ++ [(K_connect p, c)] /\
       promises s1 = promises s ++ [Pending []] /\
       Barrier.waiters (whenSpawnedBarrier s1) = Barrier.waiters (whenSpawnedBarrier s) /\
       onceIpcReady s1 = onceIpcReady s /\
       exists rest,
         microtasks (run (repeat E_microtask (length (microtasks s))) s1)
         = (K_connect p, c) :: rest).
  { intros q c Hq Hc'.
    destruct (connect_settled s q c Hq Hc') as (s' & Heq' & Hm & Hps & Hws & Hls).
    rewrite Heq in Heq'. injection Heq' as -> ->.
    repeat (split; [done|]).
    apply job_reaches_head; [done|].
    rewrite Hm. rewrite lookup_app_r by done. by rewrite Nat.sub_diag. }
  exists p, s1. split; [done|]. split; [|split; [done|]].
  - intros evs [c Hp]. destruct (run_Inv evs s1 Hs1) as ([Hi _] & Hx & _).
    destruct (owned_ext _ _ p Hx Hown) as [_ Hne].
    by destruct (pinv_promises _ Hi _ _ Hp) as [_ Hg%(fun H => H Hne)].
  - intros _ Ho. destruct (reachable_Ready s Hs) as [Hl Ha].
    destruct (Ha Ho) as (q & Hq & Hr).
    assert (Hdrained : microtasks s = [] -> settled s q).
    { intros Hm. destruct Hr as [Hr|[c Hc']]; [done|].
      rewrite Hm in Hc'. by apply elem_of_nil in Hc'. }
    split; [by exists q|].
    destruct (linv_memo _ Hl q Hq) as [Hlt _].
    destruct (lookup_lt_is_Some_2 _ _ Hlt) as [[ks|c] Hst].
    + destruct (connect_pending s q ks Hq Hst) as (s' & Heq' & Hm & Hps & Hws & Hls).
      rewrite Heq in Heq'. injection Heq' as -> ->.
      split; [done|]. split; [done|]. split.
      * destruct Hr as [[c Hc']|[c [i Hi]%list_elem_of_lookup]]; [congruence|].
        apply (signalled_job_runs i _ q _ c (ks ++ [K_connect (length (promises s))])).
        -- done.
        -- apply ready_inv. rewrite Hstep. by apply step_Ready.
        -- by rewrite Hm.
        -- rewrite Hps. apply list_lookup_insert_eq. rewrite length_app. lia.
        -- apply elem_of_app. right. by left.
      * intros Hm0. destruct (Hdrained Hm0) as [c Hc']. congruence.
    + destruct (H3 q c Hq Hst) as (Hm & _ & Hws & Hls & rest & Hrest).
      split; [done|]. split; [done|]. split; [by eauto|].
      intros Hm0. exists c. by rewrite Hm, Hm0.
Qed.

Lemma C2_connect_waits_for_gate_witness :
  reachable demo_connected /\ barrier_open demo_connected /\ ipcReady_observed demo_connected /\
  microtasks demo_connected = [] /\
  exists p s1, connect demo_connected = (Ok p, s1) /\
    (forall evs, settled (run evs s1) p ->
       barrier_open (run evs s1) /\ ipcReady_observed (run evs s1)) /\
    exists c, microtasks s1 = [(K_connect p, c)].
Proof.
  assert (H : reachable demo_connected).
  { exists "machine", ∅, demo_services,
      [E_connect; E_spawn ∅; E_microtask; E_ipcReady; E_microtask; E_microtask;
       E_microtask; E_channelEstablished 0; E_microtask].
    reflexivity. }
  assert (Hb : barrier_open demo_connected) by reflexivity.
  assert (Ho : ipcReady_observed demo_connected).
  { unfold ipcReady_observed. vm_compute. repeat first [by left | right]. }
  assert (Hm : microtasks demo_connected = []) by reflexivity.
  split; [exact H|]. split; [exact Hb|]. split; [exact Ho|]. split; [exact Hm|].
  destruct (C2_connect_waits_for_gate demo_connected H) as (p & s1 & Heq & H1 & _ & H3).
  exists p, s1. split; [exact Heq|]. split; [exact H1|].
  exact (proj2 (proj2 (proj2 (proj2 (H3 Hb Ho)))) Hm).
Defined.
(** ** C10: the channel handler waits for init-done *)

(** [whenReady] only allocates its promise and its listener. *)
Lemma whenReady_no_creation s :
  exists p s', whenReady s = (Ok p, s') /\
    whenSpawnedBarrier s' = whenSpawnedBarrier s /\
    _whenIpcReady s' = _whenIpcReady s /\
    window s' = window s /\ windows s' = windows s /\
    microtasks s' = microtasks s /\ log s' = log s.
Proof.
  unfold whenReady, bind, gets.
  destruct (_whenReady s) as [p|]; by eexists _, _.
Qed.

(** Before init-done the handler stops at [await this.whenReady()]. *)
Lemma handler_waits s nonce :
  PInv s -> ~ initDone_observed s ->
  wp (onCreateSharedProcessMessageChannel nonce)
     (fun _ s' => whenSpawnedBarrier s' = whenSpawnedBarrier s /\
                  _whenIpcReady s' = _whenIpcReady s /\
                  windows s' = windows s /\ microtasks s' = microtasks s /\
                  log s' = log s ++
                    [ETrace "SharedProcess: on vscode:createSharedProcessMessageChannel"])
     (fun _ => False) s.
Proof.
  intros Hinv Hd. unfold onCreateSharedProcessMessageChannel, trace, emit.
  apply wp_bind, wp_modify. unfold whenReady. apply wp_bind, wp_bind, wp_gets. simpl.
  destruct (_whenReady s) as [p|] eqn:Hr.
  - apply wp_ret. unfold wp, await. simpl.
    destruct (promises s !! p) as [[ks|c]|] eqn:Hp; simpl; try done.
    destruct (pinv_promises _ Hinv _ _ Hp) as [H1 _]. exfalso. apply Hd, H1, Hr.
  - apply wp_bind, wp_newPromise, wp_bind, wp_modify, wp_bind, wp_modify, wp_ret.
    unfold wp, await. simpl.
    rewrite lookup_app_r by done. by rewrite Nat.sub_diag.
Qed.

(** C10.  In every reachable state, a port has been posted back to a
    requester only if the init-done signal has been observed (and with it the
    open barrier and the ipc-ready signal that [connect()] waits for).  As
    long as init-done has not been observed, the handler of
    ['vscode:createSharedProcessMessageChannel'] stops at its
    [await this.whenReady()]: it does not reach [connect()], so it neither
    accesses [whenIpcReady] nor queues anything.  [whenReady()] itself always
    returns and leaves the barrier, the [whenIpcReady] memo, the window and
    the microtask queue as they were. *)
Theorem C10_channel_after_initDone (s : State) :
  reachable s ->
  (forall nonce port, EPostMessage nonce port ∈ log s ->
     initDone_observed s /\ barrier_open s /\ ipcReady_observed s) /\
  (forall nonce, ~ initDone_observed s ->
     let s' := step (E_createSharedProcessMessageChannel nonce) s in
     ~ initDone_observed s' /\
     _whenIpcReady s' = _whenIpcReady s /\ windows s' = windows s /\
     whenSpawnedBarrier s' = whenSpawnedBarrier s /\ microtasks s' = microtasks s) /\
  (exists p s', whenReady s = (Ok p, s') /\
     whenSpawnedBarrier s' = whenSpawnedBarrier s /\
     _whenIpcReady s' = _whenIpcReady s /\
     window s' = window s /\ windows s' = windows s /\
     microtasks s' = microtasks s /\ log s' = log s).
Proof.
  intros Hs. pose proof (reachable_Inv s Hs) as [Hinv Hc].
  split; [|split].
  - intros nonce port Hin.
    destruct (pinv_posted _ Hinv _ Hin I) as [Hd [Ho Hi]]. done.
  - intros nonce Hd. simpl.
    destruct (wp_returns _ _ _ (handler_waits s nonce Hinv Hd))
      as ([] & s' & Heq & Hb & Hi & Hw & Hm & Hlog).
    unfold exec. rewrite Heq. simpl. split; [|done].
    unfold initDone_observed. rewrite Hlog.
    intros [Hold|Hnew]%elem_of_app; [done|].
    by apply list_elem_of_singleton in Hnew.
  - apply whenReady_no_creation.
Qed.

Lemma C10_channel_after_initDone_witness :
  reachable demo_served /\
  EPostMessage "nonce-1" 1 ∈ log demo_served /\
  (forall nonce port, EPostMessage nonce port ∈ log demo_served ->
     initDone_observed demo_served /\ barrier_open demo_served /\
     ipcReady_observed demo_served).
Proof.
  assert (H : reachable demo_served).
  { exists "machine", ∅, demo_services,
      [E_createSharedProcessMessageChannel "nonce-1"; E_connect; E_spawn ∅;
       E_microtask; E_ipcReady; E_microtask; E_microtask; E_initDone;
       E_microtask; E_microtask; E_microtask; E_microtask;
       E_channelEstablished 1; E_microtask; E_microtask].
    reflexivity. }
  split; [exact H|]. split.
  - vm_compute. repeat first [by left | right].
  - exact (proj1 (C10_channel_after_initDone demo_served H)).
Defined.
(** ** C4: shutdown with a live window *)

Lemma onWillShutdown_timeout_returns w throws s :
  exists s', onWillShutdown_timeout w throws s = (Ok tt, s') /\
    window s' = None /\ EClose w ∈ log s' /\
    windowCloseListener s' = windowCloseListener s /\ timers s' = timers s.
Proof.
  destruct (wp_returns _ _ _ (onWillShutdown_timeout_spec s w throws))
    as ([] & s' & Heq & s2 & [Hw Hl Ht _ _ _ (l & Hlog & _)] & ->).
  exists (set_window None s2). split; [done|]. split; [done|]. simpl.
  split; [|done]. rewrite Hlog. simpl. apply elem_of_app. left.
  apply elem_of_app. right. by left.
Qed.

(** C4.  Let the coordinator be in a reachable state whose window [w] exists
    and is not destroyed.  [onWillShutdown] completes without an exception.
    It sends the exit signal, removes the close listener if it is still
    registered, and schedules the close; when it returns, the window has no
    close listener left, the removal is in the log, and no close call on [w]
    has been issued yet.  The close is issued only by the timer callback
    scheduled last; that callback completes without an exception whether or
    not [window.close()] throws, and clears the window handle in both cases.
    In every state reached afterwards, each close call in the log comes
    after the removal of the close listener of the same window. *)
Theorem C4_shutdown_removes_veto_first (s : State) (w : nat) (bw : BrowserWindow) :
  reachable s -> window s = Some w -> windows s !! w = Some bw ->
  bw_destroyed bw = false ->
  (exists s1, onWillShutdown s = (Ok tt, s1) /\
     log s1 = log s ++ [ESend w exitChannel] ++
              match windowCloseListener s with
              | Some _ => [ERemoveListener w "close"]
              | None => []
              end ++ [ESetTimeout 0] /\
     windowCloseListener s1 = None /\
     (exists bw1, windows s1 !! w = Some bw1 /\ bw_closeListeners bw1 = []) /\
     ERemoveListener w "close" ∈ log s1 /\
     (EClose w ∉ log s1) /\
     timers s1 = timers s ++ [T_closeWindow w] /\
     forall evs, close_after_removal (log (run evs s1))) /\
  (forall throws s2, exists s3,
     onWillShutdown_timeout w throws s2 = (Ok tt, s3) /\
     window s3 = None /\ EClose w ∈ log s3).
Proof.
  intros Hs Hw Hbw Hd. pose proof (reachable_WInv s Hs) as Hinv.
  split.
  - destruct (wp_returns _ _ _ (onWillShutdown_live s w bw Hw Hbw))
      as ([] & s1 & Heq & Hs1).
    assert (Hr1 : reachable s1).
    { replace s1 with (step E_willShutdown s); [by apply reachable_step|].
      simpl. unfold exec. by rewrite Heq. }
    pose proof (reachable_WInv s1 Hr1) as Hinv1.
    destruct Hs1 as [Hw1 Hl1 Ht1 Hws1 Hlog1]. rewrite Hd in Hlog1.
    exists s1. split; [done|]. split; [done|]. split; [done|].
    split; [|split; [|split; [|split]]].
    + destruct (winv_window _ Hinv1 w Hw1) as (bw1 & Hbw1 & Hcl).
      exists bw1. split; [done|]. by rewrite Hcl, Hl1.
    + by apply (winv_removed _ Hinv1).
    + by apply (winv_unclosed _ Hinv1).
    + done.
    + intros evs. apply winv_order, reachable_WInv. by apply reachable_run.
  - intros throws s2.
    destruct (onWillShutdown_timeout_returns w throws s2) as (s3 & Heq & H1 & H2 & _).
    by exists s3.
Qed.

(** The window exists and the worker has answered ipc-ready. *)
Lemma C4_shutdown_removes_veto_first_witness :
  reachable demo_live /\ window demo_live = Some 0 /\
  (exists s1, onWillShutdown demo_live = (Ok tt, s1) /\
     windowCloseListener s1 = None /\
     (exists bw1, windows s1 !! 0 = Some bw1 /\ bw_closeListeners bw1 = []) /\
     ERemoveListener 0 "close" ∈ log s1 /\ (EClose 0 ∉ log s1)).
Proof.
  assert (H : reachable demo_live).
  { exists "machine", ∅, demo_services,
      [E_connect; E_spawn ∅; E_microtask; E_ipcReady; E_microtask; E_microtask].
    reflexivity. }
  split; [exact H|]. split; [reflexivity|].
  destruct (C4_shutdown_removes_veto_first demo_live 0
              (bw_set_closeListeners [CloseVeto] (fresh_window demo_init)))
    as [(s1 & Heq & _ & Hl & Hb & Hr & Hc & _) _];
    [exact H|reflexivity|reflexivity|reflexivity|].
  exists s1. tauto.
Defined.

(** ** C5: two shutdown triggers *)




(** ** C6: no guard in [createWindow] *)

Lemma createWindow_returns s :
  exists s', createWindow s = (Ok tt, s') /\
    window s' = Some (length (windows s)) /\ creations s' = S (creations s).
Proof.
  unfold createWindow, bind, gets, new_BrowserWindow, loadURL, update_window,
    modify, emit, ret. simpl. eexists. split; [reflexivity|]. simpl.
  split; [done|]. unfold creations. simpl.
  by rewrite length_alter, length_app, Nat.add_1_r.
Qed.

(** Against C6 as stated: a second call of [createWindow] is not rejected.
    It returns normally, constructs a second window and overwrites the
    handle, so that the first window is no longer referenced. *)
Lemma C6_second_createWindow_is_not_rejected :
  let s1 := exec createWindow demo_init in
  window s1 = Some 0 /\
  fst (createWindow s1) = Ok tt /\
  window (exec createWindow s1) = Some 1 /\
  creations (exec createWindow s1) = 2.
Proof. repeat split; by vm_compute. Qed.

(** C6, amended.  In every reachable state [createWindow] has run at most
    once: its only caller is the body of [whenIpcReady], which is started
    once.  [createWindow] itself has no guard: called in any state it returns
    normally, constructs one more window and points the handle at it. *)
Theorem C6_createWindow_once_by_memoization (s : State) :
  (reachable s -> creations s <= 1) /\
  exists s', createWindow s = (Ok tt, s') /\
    window s' = Some (length (windows s)) /\ creations s' = S (creations s).
Proof.
  split; [|apply createWindow_returns].
  intros Hs. by apply creations_le, reachable_Inv.
Qed.

Lemma C6_createWindow_once_by_memoization_witness :
  reachable demo_live /\ creations demo_live <= 1.
Proof.
  assert (H : reachable demo_live).
  { exists "machine", ∅, demo_services,
      [E_connect; E_spawn ∅; E_microtask; E_ipcReady; E_microtask; E_microtask].
    reflexivity. }
  split; [exact H | exact (proj1 (C6_createWindow_once_by_memoization demo_live) H)].
Defined.
(** ** C7: the payload carries the merged environment *)

Lemma spawn_state env s :
  exec (spawn env) s =
  set_microtasks
    (microtasks s ++ map (fun k => (k, Normal (VBool true)))
                         (Barrier.waiters (whenSpawnedBarrier s)))
    (set_whenSpawnedBarrier (Barrier.mk true [])
       (set_userEnv (spread (userEnv s) env) s)).
Proof. reflexivity. Qed.

(** One or more [spawn] calls in a row: the overlays are merged in order,
    the barrier is open, and its waiters have been released once. *)
Lemma run_spawns ov ovs s :
  run (map E_spawn (ov :: ovs)) s =
  set_microtasks
    (microtasks s ++ map (fun k => (k, Normal (VBool true)))
                         (Barrier.waiters (whenSpawnedBarrier s)))
    (set_whenSpawnedBarrier (Barrier.mk true [])
       (set_userEnv (foldl spread (userEnv s) (ov :: ovs)) s)).
Proof.
  revert ov s. induction ovs as [|ov' ovs IH]; intros ov s.
  - apply spawn_state.
  - change (run (map E_spawn (ov :: ov' :: ovs)) s)
      with (run (map E_spawn (ov' :: ovs)) (exec (spawn ov) s)).
    rewrite IH, spawn_state. simpl. by rewrite app_nil_r.
Qed.

(** The merge key by key: an overlay's binding survives when no later
    overlay binds the key, and the baseline's when no overlay does. *)
Lemma spread_lookup_overlay (base : ProcessEnv) ovs i o k v :
  ovs !! i = Some o -> o !! k = Some v ->
  (forall j o', i < j -> ovs !! j = Some o' -> o' !! k = None) ->
  foldl spread base ovs !! k = Some v.
Proof.
  revert i. induction ovs as [|x ovs IH] using rev_ind; intros i Hi Hk Hlater; [done|].
  rewrite foldl_app. simpl. unfold spread at 1.
  apply lookup_app_Some in Hi as [Hi|[Hge Hi]].
  - pose proof (lookup_lt_Some _ _ _ Hi) as Hlt.
    rewrite lookup_union_r.
    + apply (IH i); [done|done|]. intros j o' Hj Ho'.
      apply (Hlater j); [done|]. by apply lookup_app_l_Some.
    + apply (Hlater (length ovs)); [done|].
      rewrite lookup_app_r by done. by rewrite Nat.sub_diag.
  - apply list_lookup_singleton_Some in Hi as [_ ->]. by apply lookup_union_Some_l.
Qed.

Lemma spread_lookup_base (base : ProcessEnv) ovs k :
  (forall o, o ∈ ovs -> o !! k = None) -> foldl spread base ovs !! k = base !! k.
Proof.
  induction ovs as [|x ovs IH] using rev_ind; intros Hnone; [done|].
  rewrite foldl_app. simpl. unfold spread at 1. rewrite lookup_union_r.
  - apply IH. intros o Ho. apply Hnone, elem_of_app. by left.
  - apply Hnone, elem_of_app. right. by left.
Qed.

(** The environment of the serialized configuration obeys the merge of the
    specification. *)
Lemma stringify_last_overlay_wins (base : ProcessEnv) ovs :
  last_overlay_wins base ovs (omap id (foldl spread base ovs)).
Proof.
  split.
  - intros i o k v Hi Hk Hlater. rewrite lookup_omap.
    by rewrite (spread_lookup_overlay base ovs i o k v).
  - intros k Hnone. rewrite lookup_omap. by rewrite spread_lookup_base.
Qed.

(** The body of [whenIpcReady] resumed normally: the window is created and
    the rest of the body leaves it alone. *)
Lemma run_job_spawned_created s p v :
  wp (run_job (K_whenIpcReady_spawned p, Normal v))
     (fun _ s' => exists s1, window_created s s1 /\ wframe s1 s')
     (fun s' => exists s1, window_created s s1 /\ wframe s1 s') s.
Proof.
  apply async_segment_window.
  { intros s1 s2 (s0 & H0 & H1) H2. exists s0. split; [done|]. by eapply wframe_trans. }
  set (rest := q <- newPromise;;
               modify (fun s => set_onceIpcReady (onceIpcReady s ++ [q]) s);;
               await q (K_whenIpcReady_signalled p);; ret (@None Value)).
  assert (Hrest : wframed rest).
  { unfold rest. apply wframed_bind; [apply wframed_newPromise|intros q].
    apply wframed_bind; [wframed_tac|intros _].
    apply wframed_bind; [apply wframed_await|intros _]. apply wframed_ret. }
  unfold whenIpcReady_spawned, resume. apply wp_bind, wp_ret.
  apply (wp_bind_assoc createWindow (fun _ => registerWindowListeners) (fun _ => rest)).
  apply wp_bind. apply createWindow_registered. intros s1 H1.
  eapply wp_mono; [apply Hrest| |]; simpl; intros; by exists s1.
Qed.

(** The payload is the serialized configuration built from the state in
    which the body of [whenIpcReady] is resumed. *)
Lemma creation_payload s p v q :
  microtasks s = (K_whenIpcReady_spawned p, Normal v) :: q ->
  payload (step E_microtask s) (length (windows s)) =
    Some (JSON_stringify (configuration s (length (windows s)))).
Proof.
  intros Hq. rewrite (step_microtask_cons s _ q Hq).
  pose proof (run_job_spawned_created (set_microtasks q s) p v) as Hr.
  apply wp_exec in Hr. revert Hr.
  generalize (exec (run_job (K_whenIpcReady_spawned p, Normal v)) (set_microtasks q s)).
  intros s' (s1 & Hc & Hf). simpl in Hc.
  pose proof (wf_config _ _ Hf (length (windows s))) as Hcfg.
  rewrite (wc_windows _ _ Hc) in Hcfg. simpl in Hcfg.
  rewrite lookup_app_r in Hcfg by done. rewrite Nat.sub_diag in Hcfg. simpl in Hcfg.
  unfold payload. destruct (windows s' !! length (windows s)) as [b|]; [|done].
  simpl in *. by injection Hcfg as ->.
Qed.

(** C7.  The payload is the query of the URL the window is loaded with: the
    serialized configuration, built from the environment stored at the moment
    the body of [whenIpcReady] is resumed after the barrier.  When one or
    more [spawn] calls are made before that body runs, whether the milestone
    was accessed before them or after them, the payload's environment is the
    merge of the baseline with all the overlays, the last overlay winning:
    a key has the value given by the last overlay that binds it, and a key
    that no overlay binds keeps the baseline's value (a variable bound to
    [undefined] is left out by the serialization).  After
    [spawn({FOO:"1"})] and [spawn({FOO:"2"})] the payload maps FOO to "2" and
    every other variable to what the baseline gives it.  The same holds from
    any state in which the body waits at the barrier and no microtask is
    queued, with the stored environment as the baseline.  A [spawn] never
    changes a payload that has been built. *)
Theorem C7_payload_merges_overlays (mid : string) (base : ProcessEnv) (sv : Services) :
  (forall ov ovs,
     exists q,
       payload (run (E_connect :: map E_spawn (ov :: ovs) ++ [E_microtask])
                    (init mid base sv)) 0 = Some q /\
       last_overlay_wins base (ov :: ovs) (q_userEnv q)) /\
  (forall ov ovs,
     exists q,
       payload (run (map E_spawn (ov :: ovs) ++ [E_connect; E_microtask])
                    (init mid base sv)) 0 = Some q /\
       last_overlay_wins base (ov :: ovs) (q_userEnv q)) /\
  (exists q,
     payload (run [E_connect; E_spawn {[ "FOO" := Some "1" ]};
                   E_spawn {[ "FOO" := Some "2" ]}; E_microtask]
                  (init mid base sv)) 0 = Some q /\
     q_userEnv q !! "FOO" = Some "2" /\
     forall k, k <> "FOO" -> q_userEnv q !! k = base !! k ≫= id) /\
  (forall s p ov ovs,
     microtasks s = [] ->
     Barrier.waiters (whenSpawnedBarrier s) = [K_whenIpcReady_spawned p] ->
     exists q,
       payload (run (map E_spawn (ov :: ovs) ++ [E_microtask]) s) (length (windows s))
         = Some q /\
       last_overlay_wins (userEnv s) (ov :: ovs) (q_userEnv q)) /\
  (forall s env w, payload (step (E_spawn env) s) w = payload s w).
Proof.
  assert (H1 : forall ov ovs, exists q,
     payload (run (E_connect :: map E_spawn (ov :: ovs) ++ [E_microtask])
                  (init mid base sv)) 0 = Some q /\
     last_overlay_wins base (ov :: ovs) (q_userEnv q)).
  { intros ov ovs.
    change (run (E_connect :: map E_spawn (ov :: ovs) ++ [E_microtask]) (init mid base sv))
      with (run (map E_spawn (ov :: ovs) ++ [E_microtask]) (step E_connect (init mid base sv))).
    rewrite run_snoc, run_spawns.
    match goal with |- context [step E_microtask ?s] => set (sN := s) end.
    exists (JSON_stringify (configuration sN 0)).
    split; [|apply stringify_last_overlay_wins].
    exact (creation_payload sN 1 (VBool true) [] eq_refl). }
  split; [exact H1|]. split; [|split; [|split]].
  - intros ov ovs. rewrite (run_app _ [E_connect; E_microtask]), run_spawns.
    match goal with |- context [run [E_connect; E_microtask] ?s] =>
      change (run [E_connect; E_microtask] s) with (step E_microtask (step E_connect s));
      set (sN := step E_connect s)
    end.
    exists (JSON_stringify (configuration sN 0)).
    split; [|apply stringify_last_overlay_wins].
    exact (creation_payload sN 1 (VBool true) [] eq_refl).
  - destruct (H1 {[ "FOO" := Some "1" ]} [ {[ "FOO" := Some "2" ]} ])
      as (q & Hq & Hlast & Hbase).
    exists q. split; [exact Hq|]. split.
    + apply (Hlast 1 {[ "FOO" := Some "2" ]}); [done|apply lookup_singleton_eq|].
      intros j o' Hj Ho'. by destruct j as [|[|j]]; [lia|lia|].
    + intros k Hk. apply Hbase. intros o Ho.
      apply elem_of_cons in Ho as [->|Ho%list_elem_of_singleton]; [|subst o];
        by apply lookup_singleton_ne.
  - intros s p ov ovs Hm Hw. rewrite run_snoc, run_spawns.
    match goal with |- context [step E_microtask ?s0] => set (sN := s0) end.
    exists (JSON_stringify (configuration sN (length (windows s)))).
    split; [|apply stringify_last_overlay_wins].
    apply (creation_payload sN p (VBool true) []).
    unfold sN. simpl. by rewrite Hm, Hw.
  - intros s env w. by rewrite (spawn_state env s : step (E_spawn env) s = _).
Qed.

Lemma C7_payload_merges_overlays_witness :
  exists q,
    payload (run [E_connect; E_spawn {[ "FOO" := Some "1"; "QUX" := Some "x" ]};
                  E_spawn {[ "FOO" := Some "2"; "TMP" := None ]}; E_microtask]
                 (init "machine"
                    {[ "FOO" := Some "0"; "BAR" := Some "keep"; "TMP" := Some "t" ]}
                    demo_services)) 0 = Some q /\
    q_userEnv q !! "FOO" = Some "2" /\
    q_userEnv q !! "QUX" = Some "x" /\
    q_userEnv q !! "BAR" = Some "keep" /\
    q_userEnv q !! "TMP" = None.
Proof.
  destruct (proj1 (C7_payload_merges_overlays "machine"
              {[ "FOO" := Some "0"; "BAR" := Some "keep"; "TMP" := Some "t" ]}
              demo_services)
            {[ "FOO" := Some "1"; "QUX" := Some "x" ]}
            [ {[ "FOO" := Some "2"; "TMP" := None ]} ])
    as (q & Hq & Hlast & Hbase).
  exists q. split; [exact Hq|]. split; [|split; [|split]].
  - apply (Hlast 1 {[ "FOO" := Some "2"; "TMP" := None ]} "FOO" (Some "2"));
      [reflexivity|reflexivity|].
    intros j o' Hj Ho'. by destruct j as [|[|j]]; [lia|lia|].
  - apply (Hlast 0 {[ "FOO" := Some "1"; "QUX" := Some "x" ]} "QUX" (Some "x"));
      [reflexivity|reflexivity|].
    intros j o' Hj Ho'. destruct j as [|[|j]]; [lia| |done].
    injection Ho' as <-. reflexivity.
  - apply (Hbase "BAR"). intros o Ho.
    apply elem_of_cons in Ho as [->|Ho%list_elem_of_singleton]; [|subst o]; reflexivity.
  - apply (Hlast 1 {[ "FOO" := Some "2"; "TMP" := None ]} "TMP" None);
      [reflexivity|reflexivity|].
    intros j o' Hj Ho'. by destruct j as [|[|j]]; [lia|lia|].
Defined.

(** ** C3: a channel needs a live window *)





(** ** C9: the readiness gate *)

Lemma gate_run_spec {W} (ops : list (GateOp W)) (b : Barrier.t W) (rel : list W) :
  (Barrier.isOpen b = true -> Barrier.waiters b = []) ->
  let r := foldl gate_step (b, rel) ops in
  r.2 ++ Barrier.waiters r.1 = rel ++ Barrier.waiters b ++ gate_waits ops /\
  (Barrier.isOpen r.1 = true -> Barrier.waiters r.1 = []) /\
  (Barrier.isOpen b = true -> Barrier.isOpen r.1 = true) /\
  (G_open ∈ ops -> Barrier.isOpen r.1 = true).
Proof.
  revert b rel. induction ops as [|op ops IH]; intros b rel Hb; simpl.
  { rewrite app_nil_r. split; [done|]. split; [done|]. split; [done|].
    intros H. by apply elem_of_nil in H. }
  destruct op as [|w]; simpl.
  - destruct (IH (Barrier.mk true []) (rel ++ Barrier.waiters b)) as (H1 & H2 & H3 & H4);
      [done|].
    split; [|split; [done|split; [auto|auto]]].
    rewrite H1. simpl. by rewrite <- app_assoc.
  - unfold Barrier.wait. destruct (Barrier.isOpen b) eqn:Ho; simpl.
    + pose proof (Hb eq_refl) as Hw.
      destruct (IH b (rel ++ [w])) as (H1 & H2 & H3 & H4); [by intros _|].
      split; [|split; [done|split; [by intros _; apply H3|]]].
      * rewrite H1, Hw. simpl. by rewrite <- app_assoc.
      * intros _. by apply H3.
    + destruct (IH (Barrier.mk false (Barrier.waiters b ++ [w])) (rel ++ []))
        as (H1 & H2 & H3 & H4); [done|].
      split; [|split; [done|split; [done|]]].
      * rewrite H1, app_nil_r. simpl. by rewrite <- app_assoc.
      * intros [Hin|Hin]%elem_of_cons; [done|auto].
Qed.

Lemma gate_stays_open {W} (ops : list (GateOp W)) (b : Barrier.t W) (rel : list W) :
  Barrier.isOpen b = true -> Barrier.isOpen (foldl gate_step (b, rel) ops).1 = true.
Proof.
  revert b rel. induction ops as [|[|w] ops IH]; intros b rel Ho; simpl; [done| |].
  - by apply IH.
  - unfold Barrier.wait. rewrite Ho. simpl. by apply IH.
Qed.

(** The first access of [whenIpcReady], made by [connect()]: the body waits
    at the barrier, or goes through at once when the barrier is open. *)
Lemma connect_first s :
  _whenIpcReady s = None ->
  let k := K_whenIpcReady_spawned (S (length (promises s))) in
  whenSpawnedBarrier (step E_connect s) = (Barrier.wait k (whenSpawnedBarrier s)).1 /\
  microtasks (step E_connect s) =
    microtasks s ++ map (fun k' => (k', Normal (VBool true)))
                        (Barrier.wait k (whenSpawnedBarrier s)).2.
Proof.
  intros Hm k.
  assert (H : wp connect (fun _ s' =>
    whenSpawnedBarrier s' = (Barrier.wait k (whenSpawnedBarrier s)).1 /\
    microtasks s' =
      microtasks s ++ map (fun k' => (k', Normal (VBool true)))
                          (Barrier.wait k (whenSpawnedBarrier s)).2) (fun _ => False) s).
  { unfold connect. apply wp_bind, wp_newPromise.
    unfold whenIpcReady. apply wp_bind, wp_bind, wp_gets. simpl. rewrite Hm.
    apply wp_bind, wp_newPromise. simpl.
    replace (length (promises s ++ [Pending []])) with (S (length (promises s)))
      by (rewrite length_app; simpl; lia).
    fold k. apply wp_bind.
    unfold wp at 1, await_whenSpawnedBarrier, enqueue, modify. simpl.
    destruct (Barrier.wait k (whenSpawnedBarrier s)) as [b rel]. simpl.
    apply wp_bind, wp_modify, wp_ret.
    apply wp_bind, (wp_await_pending _ _ []).
    { simpl. rewrite lookup_app_r; rewrite length_app; simpl; [|lia].
      by replace (S (length (promises s)) - (length (promises s) + 1)) with 0 by lia. }
    by apply wp_ret. }
  apply wp_returns in H as (p & s' & Heq & H).
  change (step E_connect s) with (exec connect s). unfold exec. by rewrite Heq.
Qed.

(** On a coordinator that has not accessed [whenIpcReady], nothing waits at
    the barrier. *)
Lemma no_waiter_before_access s :
  Inv s -> _whenIpcReady s = None -> Barrier.waiters (whenSpawnedBarrier s) = [].
Proof.
  intros [Hinv Hc] Hm. unfold cnt, pending_bodies, accessed in Hc. rewrite Hm in Hc.
  pose proof (pinv_waiters _ Hinv) as Hw.
  destruct (Barrier.waiters (whenSpawnedBarrier s)) as [|k ws]; [done|].
  apply Forall_cons in Hw as [(p & -> & _) _]. simpl in Hc. lia.
Qed.

(** C9.  Opening the gate again changes nothing and releases nobody: a
    second [open] leaves the gate as the first left it.  An open gate stays
    open under every sequence of [open] and [wait].  Starting from a new
    gate, the waiters released so far together with those still pending are
    exactly the waiters registered, in order and each once; as soon as the
    sequence contains an [open], nobody is pending, so everyone registered,
    before or after the [open], has been released exactly once.  On the
    coordinator, one or more [spawn] calls in a row leave the barrier and
    the microtask queue exactly as a single [spawn] does.  A continuation
    that awaits [whenSpawnedBarrier] while it is closed is registered as a
    waiter and not queued; on an open barrier it is queued at once, once.
    [spawn()] queues every registered waiter once, in order, and leaves no
    waiter behind.  So when a reachable coordinator accesses [whenIpcReady]
    for the first time and [spawn()] is then called one or more times, the
    body of [whenIpcReady] is queued exactly once, whether the barrier was
    open before or not.  In every reachable state an open barrier has no
    waiter left, and the body of an accessed [whenIpcReady] is accounted for
    exactly once: waiting at the barrier, queued, or run. *)
Theorem C9_gate_opens_once_for_all :
  (forall W (b : Barrier.t W),
     Barrier.isOpen (Barrier.open b).1 = true /\
     Barrier.open (Barrier.open b).1 = ((Barrier.open b).1, [])) /\
  (forall W (ops : list (GateOp W)) (b : Barrier.t W),
     Barrier.isOpen b = true -> Barrier.isOpen (gate_run ops b).1 = true) /\
  (forall W (ops : list (GateOp W)),
     (gate_run ops Barrier.new).2 ++ Barrier.waiters (gate_run ops Barrier.new).1
       = gate_waits ops /\
     (G_open ∈ ops ->
        Barrier.isOpen (gate_run ops Barrier.new).1 = true /\
        Barrier.waiters (gate_run ops Barrier.new).1 = [] /\
        (gate_run ops Barrier.new).2 = gate_waits ops)) /\
  (forall s env envs,
     whenSpawnedBarrier (run (map E_spawn (env :: envs)) s)
       = whenSpawnedBarrier (step (E_spawn env) s) /\
     microtasks (run (map E_spawn (env :: envs)) s)
       = microtasks (step (E_spawn env) s) /\
     barrier_open (run (map E_spawn (env :: envs)) s)) /\
  (forall s k,
     let s' := exec (await_whenSpawnedBarrier k) s in
     (~ barrier_open s ->
        Barrier.waiters (whenSpawnedBarrier s')
          = Barrier.waiters (whenSpawnedBarrier s) ++ [k] /\
        ~ barrier_open s' /\ microtasks s' = microtasks s) /\
     (barrier_open s ->
        whenSpawnedBarrier s' = whenSpawnedBarrier s /\
        microtasks s' = microtasks s ++ [(k, Normal (VBool true))])) /\
  (forall s env,
     microtasks (step (E_spawn env) s)
       = microtasks s ++ map (fun k => (k, Normal (VBool true)))
                             (Barrier.waiters (whenSpawnedBarrier s)) /\
     whenSpawnedBarrier (step (E_spawn env) s) = Barrier.mk true []) /\
  (forall s env envs,
     reachable s -> _whenIpcReady s = None ->
     let k := K_whenIpcReady_spawned (S (length (promises s))) in
     (~ barrier_open s ->
        Barrier.waiters (whenSpawnedBarrier (step E_connect s)) = [k] /\
        microtasks (step E_connect s) = microtasks s) /\
     microtasks (run (E_connect :: map E_spawn (env :: envs)) s)
       = microtasks s ++ [(k, Normal (VBool true))] /\
     Barrier.waiters (whenSpawnedBarrier (run (E_connect :: map E_spawn (env :: envs)) s))
       = []) /\
  (forall s,
     reachable s ->
     (barrier_open s -> Barrier.waiters (whenSpawnedBarrier s) = []) /\
     count_spawned (Barrier.waiters (whenSpawnedBarrier s)) +
       count_spawned (map fst (microtasks s)) + creations s = accessed s).
Proof.
  split; [|split; [|split; [|split; [|split; [|split; [|split]]]]]].
  - intros W b. done.
  - intros W ops b Ho. by apply gate_stays_open.
  - intros W ops. destruct (gate_run_spec ops (@Barrier.new W) []) as (H1 & H2 & H3 & H4);
      [done|].
    unfold gate_run. split; [exact H1|]. intros Hin.
    pose proof (H4 Hin) as Ho. pose proof (H2 Ho) as Hw.
    split; [done|]. split; [done|]. rewrite Hw, app_nil_r in H1. exact H1.
  - intros s env envs. rewrite run_spawns.
    change (step (E_spawn env) s) with (exec (spawn env) s). by rewrite spawn_state.
  - intros s k. unfold barrier_open, exec, await_whenSpawnedBarrier, Barrier.wait, enqueue,
      modify. simpl.
    destruct (Barrier.isOpen (whenSpawnedBarrier s)) eqn:Ho; simpl.
    + split; [done|]. intros _. by destruct (whenSpawnedBarrier s).
    + split; [|done]. intros _. by rewrite app_nil_r.
  - intros s env. change (step (E_spawn env) s) with (exec (spawn env) s).
    by rewrite spawn_state.
  - intros s env envs Hs Hm k. pose proof (reachable_Inv s Hs) as Hinv.
    pose proof (no_waiter_before_access s Hinv Hm) as Hw.
    destruct (connect_first s Hm) as [Hb Hq]. fold k in Hb, Hq.
    change (run (E_connect :: map E_spawn (env :: envs)) s)
      with (run (map E_spawn (env :: envs)) (step E_connect s)).
    rewrite run_spawns. simpl.
    change (step E_connect s) with (exec connect s) in Hb, Hq. rewrite Hb, Hq.
    unfold barrier_open, Barrier.wait.
    destruct (Barrier.isOpen (whenSpawnedBarrier s)) eqn:Ho; simpl.
    + rewrite Hw, app_nil_r. done.
    + rewrite Hw, app_nil_r. done.
  - intros s Hs. pose proof (reachable_Inv s Hs) as [Hinv Hc].
    split; [apply (pinv_released _ Hinv)|exact Hc].
Qed.

Lemma C9_gate_opens_once_for_all_witness :
  reachable demo_init /\
  _whenIpcReady demo_init = None /\
  Barrier.waiters (whenSpawnedBarrier (step E_connect demo_init))
    = [K_whenIpcReady_spawned 1] /\
  microtasks (step E_connect demo_init) = [] /\
  microtasks (run [E_connect; E_spawn ∅; E_spawn ∅; E_spawn ∅] demo_init)
    = [(K_whenIpcReady_spawned 1, Normal (VBool true))] /\
  Barrier.waiters
    (whenSpawnedBarrier (run [E_connect; E_spawn ∅; E_spawn ∅; E_spawn ∅] demo_init)) = [].
Proof.
  assert (H : reachable demo_init).
  { exists "machine", ∅, demo_services, []. reflexivity. }
  assert (Hm : _whenIpcReady demo_init = None) by reflexivity.
  assert (Hc : ~ barrier_open demo_init) by (by intros Ho).
  destruct (proj1 (proj2 (proj2 (proj2 (proj2 (proj2 (proj2
              C9_gate_opens_once_for_all)))))) demo_init ∅ [∅; ∅] H Hm)
    as (Hwait & Hq & Hw).
  destruct (Hwait Hc) as [Hw1 Hq1].
  split; [exact H|]. split; [exact Hm|]. split; [exact Hw1|]. split; [exact Hq1|].
  split; [exact Hq|exact Hw].
Defined.
